(** * MyBAS Tracker: the trip-simulation core, embedded in Rocq

    A shallow embedding of [src/utils/gtfs.js] (time and calendar helpers,
    the stop-schedule index, the path interpolator) and of the
    [activeTrips] computation of [src/components/Map.jsx], followed by the
    properties of the specification that concern them.  The rest of the
    code follows: the loader, the route colours and the next trip of a
    route of [gtfs.js]; the clock, the route network and the stop tooltip
    of [Map.jsx]; the schedule table of [scripts/process-gtfs.js]; with
    further properties of the code at the end.

    Conventions of the embedding.
    - A JavaScript object used as a table is a [gmap] with string keys.
      [Object.keys] enumerates a table through [map_to_list]; no statement
      below depends on the enumeration order.
    - Numbers of the timetable (seconds since midnight, the simulated
      clock) are integers far below 2^53, where double arithmetic is
      exact.  They are values of [option Z], [None] standing for NaN.
    - Coordinates, distances and fractions are values of [num]: an exact
      rational, one of the two infinities, or NaN.  Rounding, overflow and
      the sign of zero are not represented.  The coordinates read from
      the tables are finite numbers.
    - The [Math] built-ins (sin, cos, sqrt, atan2, PI) are parameters, and
      so is [parseInt] in the processing script.
    - [new Date()] is an explicit argument, described by the two
      observations the program makes of it.
    - A raised [TypeError] is the value [Raise]. *)

From Stdlib Require Import ZArith QArith Lia Lqa List Bool Ascii String Sorted.
From stdpp Require Import base gmap strings list fin_maps.

Local Open Scope Z_scope.

(** ** Results of computations that may raise *)

Inductive result (A : Type) : Type :=
| Raise : result A
| Ret (a : A) : result A.
Arguments Raise {A}.
Arguments Ret {A} a.

Definition bind {A B : Type} (r : result A) (k : A -> result B) : result B :=
  match r with
  | Raise => Raise
  | Ret a => k a
  end.

(** ** Integer-valued numbers: [None] is NaN *)

Definition inum : Type := option Z.

Definition inum_add (a b : inum) : inum :=
  match a, b with
  | Some x, Some y => Some (x + y)
  | _, _ => None
  end.

Definition inum_sub (a b : inum) : inum :=
  match a, b with
  | Some x, Some y => Some (x - y)
  | _, _ => None
  end.

Definition inum_mul (a b : inum) : inum :=
  match a, b with
  | Some x, Some y => Some (x * y)
  | _, _ => None
  end.

(** Every comparison with NaN is false. *)
Definition inum_ltb (a b : inum) : bool :=
  match a, b with
  | Some x, Some y => x <? y
  | _, _ => false
  end.

Definition inum_leb (a b : inum) : bool :=
  match a, b with
  | Some x, Some y => x <=? y
  | _, _ => false
  end.

Definition inum_gtb (a b : inum) : bool := inum_ltb b a.
Definition inum_geb (a b : inum) : bool := inum_leb b a.

(** ** Numbers with a fractional part *)

Inductive num : Type :=
| NaN
| PInf
| NInf
| Fin (q : Q).

Definition of_Z (z : Z) : num := Fin (inject_Z z).

Definition of_inum (a : inum) : num :=
  match a with
  | Some z => of_Z z
  | None => NaN
  end.

Definition Qsign (q : Q) : Z := Z.sgn (Qnum q).

(** The infinity of sign [s]; a zero sign gives NaN (0 * Infinity). *)
Definition inf_of_sign (s : Z) : num :=
  match s with
  | Z0 => NaN
  | Zpos _ => PInf
  | Zneg _ => NInf
  end.

Definition num_neg (a : num) : num :=
  match a with
  | NaN => NaN
  | PInf => NInf
  | NInf => PInf
  | Fin q => Fin (- q)
  end.

Definition num_add (a b : num) : num :=
  match a, b with
  | NaN, _ | _, NaN => NaN
  | PInf, NInf | NInf, PInf => NaN
  | PInf, _ | _, PInf => PInf
  | NInf, _ | _, NInf => NInf
  | Fin x, Fin y => Fin (x + y)
  end.

Definition num_sub (a b : num) : num := num_add a (num_neg b).

Definition num_mul (a b : num) : num :=
  match a, b with
  | NaN, _ | _, NaN => NaN
  | PInf, PInf | NInf, NInf => PInf
  | PInf, NInf | NInf, PInf => NInf
  | PInf, Fin y | Fin y, PInf => inf_of_sign (Qsign y)
  | NInf, Fin y | Fin y, NInf => inf_of_sign (- Qsign y)
  | Fin x, Fin y => Fin (x * y)
  end.

(** Division: x / 0 is an infinity of the sign of x, and 0 / 0 is NaN. *)
Definition num_div (a b : num) : num :=
  match a, b with
  | NaN, _ | _, NaN => NaN
  | (PInf | NInf), (PInf | NInf) => NaN
  | PInf, Fin y => if (Qsign y <? 0) then NInf else PInf
  | NInf, Fin y => if (Qsign y <? 0) then PInf else NInf
  | Fin _, (PInf | NInf) => Fin 0
  | Fin x, Fin y =>
      if (Qsign y =? 0) then inf_of_sign (Qsign x) else Fin (x / y)
  end.

Definition num_ltb (a b : num) : bool :=
  match a, b with
  | NaN, _ | _, NaN => false
  | _, NInf => false
  | PInf, _ => false
  | NInf, _ => true
  | _, PInf => true
  | Fin x, Fin y => negb (Qle_bool y x)
  end.

Definition num_leb (a b : num) : bool :=
  match a, b with
  | NaN, _ | _, NaN => false
  | NInf, _ => true
  | _, PInf => true
  | _, NInf => false
  | PInf, _ => false
  | Fin x, Fin y => Qle_bool x y
  end.

Definition num_geb (a b : num) : bool := num_leb b a.

(** ** Strings *)

(** [s.split(sep)] for a one-character separator. *)
Fixpoint split (sep : ascii) (s : string) : list string :=
  match s with
  | EmptyString => [EmptyString]
  | String c s' =>
      if Ascii.eqb c sep then EmptyString :: split sep s'
      else match split sep s' with
           | [] => [String c EmptyString]
           | w :: ws => String c w :: ws
           end
  end.

(** [l.join(sep)], the inverse of [split]. *)
Fixpoint join (sep : ascii) (l : list string) : string :=
  match l with
  | [] => EmptyString
  | w :: l' =>
      match l' with
      | [] => w
      | _ :: _ => w ++ String sep (join sep l')
      end
  end.

(** [s.replace(/c/g, '')]. *)
Fixpoint remove_char (c : ascii) (s : string) : string :=
  match s with
  | EmptyString => EmptyString
  | String c' s' =>
      if Ascii.eqb c' c then remove_char c s' else String c' (remove_char c s')
  end.

Definition is_digit (c : ascii) : bool :=
  ((48 <=? N_of_ascii c) && (N_of_ascii c <=? 57))%N.

Definition digit_value (c : ascii) : Z := Z.of_N (N_of_ascii c) - 48.

Fixpoint digits_value (acc : Z) (s : string) : inum :=
  match s with
  | EmptyString => Some acc
  | String c s' =>
      if is_digit c then digits_value (10 * acc + digit_value c) s' else None
  end.

(** [Number(s)] on a string of decimal digits (the empty string is 0).
    Other numeric syntax (sign, fraction, exponent, radix prefix, white
    space) does not occur in a timetable and is mapped to NaN. *)
Definition Number (s : string) : inum := digits_value 0 s.

(** ** Time and calendar (gtfs.js) *)

(** [const [h, m, s] = timeStr.split(':').map(Number)]: a missing
    component is [undefined], which arithmetic turns into NaN. *)
Definition timeToSeconds (timeStr : string) : inum :=
  let parts := map Number (split ":" timeStr) in
  let h := mjoin (parts !! 0%nat) in
  let m := mjoin (parts !! 1%nat) in
  let s := mjoin (parts !! 2%nat) in
  inum_add (inum_add (inum_mul h (Some 3600)) (inum_mul m (Some 60))) s.

(** A [Date], through the two observations made of it: [toISOString()],
    which writes the instant in UTC, and [getDay()], the day of the week
    in local time, 0 for Sunday.  Nothing relates the two here. *)
Record Date : Type := mkDate {
  toISOString : string;
  getDay : nat
}.

Record Service : Type := mkService {
  monday : bool;
  tuesday : bool;
  wednesday : bool;
  thursday : bool;
  friday : bool;
  saturday : bool;
  sunday : bool;
  startDate : string;
  endDate : string
}.

(** [service[key]], read as a truth value: a missing key is [undefined]. *)
Definition service_flag (service : Service) (key : string) : bool :=
  if String.eqb key "sunday" then sunday service
  else if String.eqb key "monday" then monday service
  else if String.eqb key "tuesday" then tuesday service
  else if String.eqb key "wednesday" then wednesday service
  else if String.eqb key "thursday" then thursday service
  else if String.eqb key "friday" then friday service
  else if String.eqb key "saturday" then saturday service
  else false.

Definition days : list string :=
  ["sunday"; "monday"; "tuesday"; "wednesday"; "thursday"; "friday";
   "saturday"]%string.

(** [date.toISOString().split('T')[0].replace(/-/g, '')] *)
Definition nowStr (date : Date) : string :=
  remove_char "-" (hd EmptyString (split "T" (toISOString date))).

Definition isServiceActive (serviceId : string)
    (calendar : gmap string Service) (date : Date) : bool :=
  match calendar !! serviceId with
  | None => false
  | Some service =>
      if String.ltb (nowStr date) (startDate service)
         || String.ltb (endDate service) (nowStr date)
      then false
      else
        match days !! getDay date with
        | Some key => service_flag service key
        | None => false
        end
  end.

(** ** Data model: the tables written by the feed processing script *)

Record StopTime : Type := mkStopTime {
  stopId : string;
  arrival : string;
  departure : string
}.

Record Trip : Type := mkTrip {
  tripId : string;
  serviceId : string;
  shapeId : string;
  headsign : string;
  stops : list StopTime
}.

Record Route : Type := mkRoute {
  route_id : string;
  shortName : string;
  longName : string;
  color : string;
  textColor : string
}.

Record Stop : Type := mkStop {
  name : string;
  lat : Q;
  lon : Q
}.

(** A shape point is the array [[lat, lon]]. *)
Definition point : Type := (Q * Q)%type.

(** A computed position [[lat, lon]]. *)
Definition position : Type := (num * num)%type.

Definition stop_position (stop : Stop) : position := (Fin (lat stop), Fin (lon stop)).

(** An entry of a stop's schedule list. *)
Module Arrival.
Record t : Type := mk {
  time : inum;
  route : Route;
  tripId : string;
  serviceId : string;
  headsign : string
}.
End Arrival.

(** The loaded data set. *)
Module Data.
Record t : Type := mk {
  routes : list Route;
  stops : gmap string Stop;
  shapes : gmap string (list point);
  schedule : gmap string (list Trip);
  calendar : gmap string Service;
  stopSchedules : gmap string (list Arrival.t)
}.
End Data.

(** [routes.find(r => r.id === routeId)] *)
Definition find_route (routes : list Route) (routeId : string) : option Route :=
  find (fun r => String.eqb (route_id r) routeId) routes.

(** ** Stop-schedule index (gtfs.js) *)

(** [arrivals.sort(cmp)]: the sort is stable, so for a comparator that is
    a consistent ordering its result is the one computed here by
    insertion.  [lt0 (cmp y x)] says that [y] must come before [x].
    With a key that is NaN the comparator is not a consistent ordering
    and the order of the result is the engine's choice, which is not
    represented: what is stated below of the order of a sorted list is
    stated for keys that are numbers. *)
Section Sort.
Context {A : Type} (cmp : A -> A -> inum).

Definition lt0 (v : inum) : bool := inum_ltb v (Some 0).

Fixpoint insert_sorted (x : A) (l : list A) : list A :=
  match l with
  | [] => [x]
  | y :: l' => if lt0 (cmp y x) then y :: insert_sorted x l' else x :: y :: l'
  end.

Fixpoint sort (l : list A) : list A :=
  match l with
  | [] => []
  | x :: l' => insert_sorted x (sort l')
  end.
End Sort.

(** [(a, b) => a.time - b.time] *)
Definition by_time (a b : Arrival.t) : inum :=
  inum_sub (Arrival.time a) (Arrival.time b).

(** [if (!idx[k]) idx[k] = []; idx[k].push(a)] *)
Definition push_arrival (idx : gmap string (list Arrival.t)) (k : string)
    (a : Arrival.t) : gmap string (list Arrival.t) :=
  <[k := default [] (idx !! k) ++ [a]]> idx.

Definition arrival_of (route : Route) (trip : Trip) (stop : StopTime) : Arrival.t :=
  Arrival.mk (timeToSeconds (departure stop)) route (tripId trip)
    (serviceId trip) (headsign trip).

Definition add_trip (route : Route) (idx : gmap string (list Arrival.t))
    (trip : Trip) : gmap string (list Arrival.t) :=
  foldl (fun idx stop => push_arrival idx (stopId stop) (arrival_of route trip stop))
    idx (stops trip).

Definition add_route (routes : list Route) (idx : gmap string (list Arrival.t))
    (entry : string * list Trip) : gmap string (list Arrival.t) :=
  match find_route routes entry.1 with
  | None => idx
  | Some route => foldl (add_trip route) idx entry.2
  end.

Definition precalculateStopSchedules (schedule : gmap string (list Trip))
    (routes : list Route) (calendar : gmap string Service)
    : gmap string (list Arrival.t) :=
  sort by_time <$> foldl (add_route routes) ∅ (map_to_list schedule).

(** [getNextArrival]; [now] is the value of [new Date()]. *)
Definition getNextArrival (now : Date) (stopId : string) (currentTime : Z)
    (stopSchedules : gmap string (list Arrival.t))
    (calendar : gmap string Service) : option Arrival.t :=
  match stopSchedules !! stopId with
  | None => None
  | Some arrivals =>
      find (fun arrival =>
              inum_gtb (Arrival.time arrival) (Some currentTime)
              && isServiceActive (Arrival.serviceId arrival) calendar now)
        arrivals
  end.

(** ** Geometry and path interpolation (gtfs.js) *)

(** [l.slice(start, end)], negative indices counting from the end. *)
Definition clamp_index (len i : Z) : Z :=
  if i <? 0 then Z.max (len + i) 0 else Z.min i len.

Definition slice {A : Type} (l : list A) (start finish : Z) : list A :=
  let len := Z.of_nat (length l) in
  let k := clamp_index len start in
  let final := clamp_index len finish in
  take (Z.to_nat (final - k)) (drop (Z.to_nat k) l).

(** Squared Euclidean distance in (lat, lon) space. *)
Definition sq_dist (p : point) (stop : Stop) : num :=
  let dlat := num_sub (Fin p.1) (Fin (lat stop)) in
  let dlon := num_sub (Fin p.2) (Fin (lon stop)) in
  num_add (num_mul dlat dlat) (num_mul dlon dlon).

(** The loop of [findClosestPointIndex] from index [i] on, [pts] being the
    points at indices [i], [i+1], ... *)
Fixpoint closest_from (pts : list point) (stop : Stop) (i : Z)
    (minDesc : num) (idx : Z) : Z :=
  match pts with
  | [] => idx
  | p :: pts' =>
      let d := sq_dist p stop in
      if num_ltb d minDesc then closest_from pts' stop (i + 1) d i
      else closest_from pts' stop (i + 1) minDesc idx
  end.

(** A negative [startIndex] below the length makes the first iteration
    read [shape[i][0]] with [shape[i]] undefined, which raises. *)
Definition findClosestPointIndex (shape : list point) (stop : Stop)
    (startIndex : Z) : result Z :=
  if (startIndex <? 0) && (startIndex <? Z.of_nat (length shape)) then Raise
  else Ret (closest_from (drop (Z.to_nat startIndex) shape) stop startIndex PInf (-1)).

(** The [Math] built-ins used by [haversineDistance].  They have no exact
    counterpart; the development is parametric in them. *)
Record MathObject : Type := mkMath {
  Math_sin : num -> num;
  Math_cos : num -> num;
  Math_sqrt : num -> num;
  Math_atan2 : num -> num -> num;
  Math_PI : num
}.

Section Simulation.
Variable Math : MathObject.

Definition haversineDistance (p1 p2 : point) : num :=
  let R := of_Z 6371000 in
  let phi1 := num_div (num_mul (Fin p1.1) (Math_PI Math)) (of_Z 180) in
  let phi2 := num_div (num_mul (Fin p2.1) (Math_PI Math)) (of_Z 180) in
  let dphi := num_div (num_mul (num_sub (Fin p2.1) (Fin p1.1)) (Math_PI Math)) (of_Z 180) in
  let dlambda := num_div (num_mul (num_sub (Fin p2.2) (Fin p1.2)) (Math_PI Math)) (of_Z 180) in
  let a :=
    num_add
      (num_mul (Math_sin Math (num_div dphi (of_Z 2))) (Math_sin Math (num_div dphi (of_Z 2))))
      (num_mul
         (num_mul (num_mul (Math_cos Math phi1) (Math_cos Math phi2))
            (Math_sin Math (num_div dlambda (of_Z 2))))
         (Math_sin Math (num_div dlambda (of_Z 2)))) in
  let c := num_mul (of_Z 2) (Math_atan2 Math (Math_sqrt Math a) (Math_sqrt Math (num_sub (of_Z 1) a))) in
  num_mul R c.

(** [distances]: the length of every segment of [path]. *)
Fixpoint segment_lengths (path : list point) : list num :=
  match path with
  | p1 :: ((p2 :: _) as path') => haversineDistance p1 p2 :: segment_lengths path'
  | _ => []
  end.

(** [totalDist], accumulated from 0 in path order. *)
Definition total_length (distances : list num) : num :=
  foldl num_add (of_Z 0) distances.

(** The second loop: [path] and [distances] are what is left from the
    current index on; [fallback] is the last point of the whole path. *)
Fixpoint walk (path : list point) (distances : list num)
    (currentDist targetDist : num) (fallback : position) : position :=
  match distances, path with
  | d :: distances', p1 :: ((p2 :: _) as path') =>
      if num_geb (num_add currentDist d) targetDist then
        let segmentProgress := num_div (num_sub targetDist currentDist) d in
        (num_add (Fin p1.1) (num_mul (num_sub (Fin p2.1) (Fin p1.1)) segmentProgress),
         num_add (Fin p1.2) (num_mul (num_sub (Fin p2.2) (Fin p1.2)) segmentProgress))
      else walk path' distances' (num_add currentDist d) targetDist fallback
  | _, _ => fallback
  end.

(** [interpolatePositionOnShape] once both indices are known. *)
Definition interpolate_between (shape : list point) (stopFrom : Stop)
    (idx1 idx2 : Z) (progress : num) : position :=
  let idx2 := if idx2 <? idx1 then idx1 else idx2 in
  let path := slice shape idx1 (idx2 + 1) in
  match path with
  | [] | [_] => stop_position stopFrom
  | p0 :: _ =>
      let distances := segment_lengths path in
      let targetDist := num_mul (total_length distances) progress in
      let pN := List.last path p0 in
      walk path distances (of_Z 0) targetDist (Fin pN.1, Fin pN.2)
  end.

(** [shape] is [None] when the shapes table has no such shape. *)
Definition interpolatePositionOnShape (shape : option (list point))
    (stopFrom stopTo : Stop) (progress : num) : result position :=
  match shape with
  | None => Ret (stop_position stopFrom)
  | Some shape =>
      if (length shape <? 2)%nat then Ret (stop_position stopFrom)
      else
        bind (findClosestPointIndex shape stopFrom 0) (fun idx1 =>
        bind (findClosestPointIndex shape stopTo idx1) (fun idx2 =>
        Ret (interpolate_between shape stopFrom idx1 idx2 progress)))
  end.

(** ** The simulation engine (Map.jsx) *)

Inductive Status : Type := moving | dwelling.

(** [currentSegment]: [{ from, to, progress, type: 'moving' }] or
    [{ stop, type: 'dwelling' }]. *)
Inductive Segment : Type :=
| Moving (from to : StopTime) (progress : num)
| Dwelling (stop : StopTime).

Definition segment_type (seg : Segment) : Status :=
  match seg with
  | Moving _ _ _ => moving
  | Dwelling _ => dwelling
  end.

(** The [for] loop over consecutive stop-times, left at the first
    match; [stops] is what is left of [trip.stops] from index [i] on. *)
Fixpoint currentSegment (seconds : Z) (stops : list StopTime) : option Segment :=
  match stops with
  | s1 :: ((s2 :: _) as stops') =>
      let t1 := timeToSeconds (departure s1) in
      let t2 := timeToSeconds (arrival s2) in
      if inum_geb (Some seconds) t1 && inum_leb (Some seconds) t2 then
        let progress :=
          num_div (of_inum (inum_sub (Some seconds) t1)) (of_inum (inum_sub t2 t1)) in
        Some (Moving s1 s2 progress)
      else if inum_geb (Some seconds) (timeToSeconds (arrival s1))
              && inum_ltb (Some seconds) t1 then
        Some (Dwelling s1)
      else currentSegment seconds stops'
  | _ => None
  end.

(** [position]: [None] is [null]. *)
Definition segment_position (data : Data.t) (trip : Trip) (seg : Segment)
    : result (option position) :=
  match seg with
  | Dwelling s =>
      match Data.stops data !! stopId s with
      | Some stop => Ret (Some (stop_position stop))
      | None => Ret None
      end
  | Moving from to progress =>
      match Data.stops data !! stopId from, Data.stops data !! stopId to with
      | Some stop1, Some stop2 =>
          let shape := Data.shapes data !! shapeId trip in
          bind (interpolatePositionOnShape shape stop1 stop2 progress)
            (fun p => Ret (Some p))
      | _, _ => Ret None
      end
  end.

(** A rendered vehicle: the trip's fields, and [route], [position],
    [status]. *)
Record Vehicle : Type := mkVehicle {
  vehicle_trip : Trip;
  route : option Route;
  vehicle_position : position;
  status : Status
}.

(** What the body of [routeTrips.forEach] does for a trip. *)
Inductive outcome : Type :=
| Throw
| Skip
| Push (v : Vehicle).

Definition evalTrip (data : Data.t) (now : Date) (seconds : Z)
    (routeId : string) (trip : Trip) : outcome :=
  if negb (isServiceActive (serviceId trip) (Data.calendar data) now) then Skip
  else
    match stops trip with
    | [] => Throw
    | firstStop :: _ =>
        let lastStop := List.last (stops trip) firstStop in
        let startSec := timeToSeconds (departure firstStop) in
        let endSec := timeToSeconds (arrival lastStop) in
        if inum_geb (Some seconds) startSec && inum_leb (Some seconds) endSec then
          match currentSegment seconds (stops trip) with
          | None => Skip
          | Some seg =>
              match segment_position data trip seg with
              | Raise => Throw
              | Ret None => Skip
              | Ret (Some position) =>
                  Push (mkVehicle trip (find_route (Data.routes data) routeId)
                          position (segment_type seg))
              end
          end
        else Skip
    end.

Definition run_trip (data : Data.t) (now : Date) (seconds : Z)
    (routeId : string) (active : result (list Vehicle)) (trip : Trip)
    : result (list Vehicle) :=
  bind active (fun active =>
    match evalTrip data now seconds routeId trip with
    | Throw => Raise
    | Skip => Ret active
    | Push v => Ret (active ++ [v])
    end).

Definition run_route (data : Data.t) (now : Date) (seconds : Z)
    (active : result (list Vehicle)) (entry : string * list Trip)
    : result (list Vehicle) :=
  foldl (run_trip data now seconds entry.1) active entry.2.

(** [activeTrips]; [data] is [None] until the tables are loaded. *)
Definition activeTrips (data : option Data.t) (now : Date) (currentTime : Z)
    : result (list Vehicle) :=
  match data with
  | None => Ret []
  | Some data =>
      foldl (run_route data now currentTime) (Ret [])
        (map_to_list (Data.schedule data))
  end.
End Simulation.

(** * The rest of the code *)

(** ** Route colours and loading (gtfs.js) *)

Definition palette : list string :=
  ["#FF3B30"; "#007AFF"; "#34C759"; "#FF9500"; "#AF52DE"; "#5AC8FA";
   "#FF2D55"; "#5856D6"; "#FFCC00"; "#8E8E93"]%string.

(** [{ ...route, color: c }] *)
Definition recolor (route : Route) (c : string) : Route :=
  mkRoute (route_id route) (shortName route) (longName route) c (textColor route).

(** [routes.map((route, index) => ...)]; the index taken modulo the
    length of the palette is always one of its positions. *)
Definition assignRouteColors (routes : list Route) : list Route :=
  imap (fun index route =>
          recolor route
            (default EmptyString (palette !! (index mod length palette)%nat)))
    routes.

(** [loadData], given the five tables that the fetches deliver. *)
Definition loadData (routes : list Route) (stops : gmap string Stop)
    (shapes : gmap string (list point)) (schedule : gmap string (list Trip))
    (calendar : gmap string Service) : Data.t :=
  let coloredRoutes := assignRouteColors routes in
  let stopSchedules := precalculateStopSchedules schedule coloredRoutes calendar in
  Data.mk coloredRoutes stops shapes schedule calendar stopSchedules.

(** ** The next trip of a route (gtfs.js) *)

Module NextTrip.
Record t : Type := mk {
  tripId : string;
  serviceId : string;
  startTime : string;
  endTime : string;
  headsign : string
}.
End NextTrip.

(** *** Sorting and searching with functions that may raise *)

Section Raising.
Context {A : Type}.

(** [l.sort(cmp)] for a comparator that may raise: the sort raises as
    soon as a comparison does.  The comparisons made are those of the
    insertion of [sort].  An engine may compare other pairs; but it
    compares nothing in an array of fewer than two elements, and every
    element of a longer one at least once, as this sort does (see
    [sortM_Raise] below), which is all that matters for a comparator that
    raises on an element whatever the other one is. *)
Fixpoint insert_sortedM (cmp : A -> A -> result inum) (x : A) (l : list A)
    : result (list A) :=
  match l with
  | [] => Ret [x]
  | y :: l' =>
      bind (cmp y x) (fun v =>
        if lt0 v then bind (insert_sortedM cmp x l') (fun r => Ret (y :: r))
        else Ret (x :: y :: l'))
  end.

Fixpoint sortM (cmp : A -> A -> result inum) (l : list A) : result (list A) :=
  match l with
  | [] => Ret []
  | x :: l' => bind (sortM cmp l') (insert_sortedM cmp x)
  end.

(** [l.find(p)] for a predicate that may raise: the elements are tested
    in order, up to the first that passes. *)
Fixpoint findM (p : A -> result bool) (l : list A) : result (option A) :=
  match l with
  | [] => Ret None
  | x :: l' => bind (p x) (fun b => if b then Ret (Some x) else findM p l')
  end.
End Raising.

(** [timeToSeconds(trip.stops[0].departure)]: on a trip without
    stop-times [trip.stops[0]] is undefined, and reading its departure
    raises. *)
Definition startTime (trip : Trip) : result inum :=
  match stops trip with
  | [] => Raise
  | firstStop :: _ => Ret (timeToSeconds (departure firstStop))
  end.

(** [(a, b) => { const t1 = ...; const t2 = ...; return t1 - t2; }] *)
Definition compare_start (a b : Trip) : result inum :=
  bind (startTime a) (fun t1 =>
  bind (startTime b) (fun t2 =>
  Ret (inum_sub t1 t2))).

(** [trip => { const startTime = ...; return startTime > currentTime; }] *)
Definition starts_after (currentTime : Z) (trip : Trip) : result bool :=
  bind (startTime trip) (fun startTime =>
  Ret (inum_gtb startTime (Some currentTime))).

(** [getNextRouteTrip]; [now] is the value of [new Date()]. *)
Definition getNextRouteTrip (now : Date) (routeId : string)
    (schedule : gmap string (list Trip)) (calendar : gmap string Service)
    (currentTime : Z) : result (option NextTrip.t) :=
  match schedule !! routeId with
  | None => Ret None
  | Some routeTrips =>
      let activeTrips :=
        List.filter (fun trip => isServiceActive (serviceId trip) calendar now)
          routeTrips in
      bind (sortM compare_start activeTrips) (fun activeTrips =>
      bind (findM (starts_after currentTime) activeTrips) (fun nextTrip =>
      match nextTrip with
      | None => Ret None
      | Some nextTrip =>
          match stops nextTrip with
          | [] => Raise
          | firstStop :: _ =>
              let lastStop := List.last (stops nextTrip) firstStop in
              Ret (Some (NextTrip.mk (tripId nextTrip) (serviceId nextTrip)
                           (substring 0 5 (departure firstStop))
                           (substring 0 5 (arrival lastStop))
                           (headsign nextTrip)))
          end
      end))
  end.

(** ** The simulated clock (Map.jsx) *)

(** The update of [currentTime] at every tick of the timer. *)
Definition tick (simSpeed prev : Z) : Z :=
  let next := prev + simSpeed in
  if 86400 <=? next then 0 else next.

(** ** The static route network (Map.jsx) *)

Module RouteShape.
Record t : Type := mk {
  id : string;
  points : list point;
  route : option Route
}.
End RouteShape.

(** The body of [trips.forEach]; the state is the array [shapes] and the
    set [processedShapes].  An empty [shapeId] is falsy. *)
Definition routeShapes_trip (data : Data.t) (route : option Route)
    (st : list RouteShape.t * gset string) (trip : Trip)
    : list RouteShape.t * gset string :=
  if negb (String.eqb (shapeId trip) EmptyString)
     && negb (bool_decide (shapeId trip ∈ st.2))
  then
    match Data.shapes data !! shapeId trip with
    | Some pts =>
        (st.1 ++ [RouteShape.mk (shapeId trip) pts route], {[shapeId trip]} ∪ st.2)
    | None => st
    end
  else st.

Definition routeShapes_route (data : Data.t)
    (st : list RouteShape.t * gset string) (entry : string * list Trip)
    : list RouteShape.t * gset string :=
  foldl (routeShapes_trip data (find_route (Data.routes data) entry.1)) st entry.2.

(** [routeShapes]; [data] is [None] until the tables are loaded. *)
Definition routeShapes (data : option Data.t) : list RouteShape.t :=
  match data with
  | None => []
  | Some data =>
      (foldl (routeShapes_route data) ([], ∅) (map_to_list (Data.schedule data))).1
  end.

(** ** The tooltip of a stop (Map.jsx) *)

(** [Math.floor((nextBus.time - currentTime) / 60)] *)
Definition minsAway (nextBus : Arrival.t) (currentTime : Z) : inum :=
  match Arrival.time nextBus with
  | Some t => Some ((t - currentTime) / 60)
  | None => None
  end.

(** The text ['Due'] or [`${minsAway} min`]. *)
Inductive Label : Type :=
| Due
| Mins (n : inum).

Definition label (nextBus : Arrival.t) (currentTime : Z) : Label :=
  let m := minsAway nextBus currentTime in
  if inum_leb m (Some 0) then Due else Mins m.

(** The stops of the stops table are the objects [{ name, lat, lon }]
    that the processing script writes: they have no [stopId], so
    [stop.stopId] is undefined and [stopSchedules[stop.stopId]] reads the
    property named "undefined". *)
Definition stop_stopId (stop : Stop) : string := "undefined".

(** [nextBus], with its label, in the tooltip of a stop. *)
Definition stopTooltip (data : Data.t) (now : Date) (currentTime : Z)
    (stop : Stop) : option (Arrival.t * Label) :=
  match getNextArrival now (stop_stopId stop) currentTime
          (Data.stopSchedules data) (Data.calendar data) with
  | Some nextBus => Some (nextBus, label nextBus currentTime)
  | None => None
  end.

(** ** Drawing the route network (Map.jsx) *)

(** [color: shape.route.color], among the options of the line drawn for a
    shape: reading the colour of an undefined route raises. *)
Definition polyline_color (shape : RouteShape.t) : result string :=
  match RouteShape.route shape with
  | Some r => Ret (color r)
  | None => Raise
  end.

(** ** The schedule table (process-gtfs.js) *)

Module StopTimeRow.
Record t : Type := mk {
  trip_id : string;
  arrival_time : string;
  departure_time : string;
  stop_id : string;
  stop_sequence : string
}.
End StopTimeRow.

Module TripRow.
Record t : Type := mk {
  route_id : string;
  service_id : string;
  trip_id : string;
  trip_headsign : string;
  shape_id : string
}.
End TripRow.

(** A stop-time with its sequence number, as the script holds it. *)
Record SeqStopTime : Type := mkSeqStopTime {
  seq_stop : StopTime;
  seq : inum
}.

(** [(a, b) => a.seq - b.seq] *)
Definition by_seq (a b : SeqStopTime) : inum := inum_sub (seq a) (seq b).

Section ProcessGTFS.
(** The built-in [parseInt]. *)
Variable parseInt : string -> inum.

Definition push_stop_time (m : gmap string (list SeqStopTime))
    (st : StopTimeRow.t) : gmap string (list SeqStopTime) :=
  <[StopTimeRow.trip_id st :=
      default [] (m !! StopTimeRow.trip_id st)
      ++ [mkSeqStopTime
            (mkStopTime (StopTimeRow.stop_id st) (StopTimeRow.arrival_time st)
               (StopTimeRow.departure_time st))
            (parseInt (StopTimeRow.stop_sequence st))]]> m.

Definition sortedStopTimes (stopTimes : list StopTimeRow.t)
    : gmap string (list SeqStopTime) :=
  sort by_seq <$> foldl push_stop_time ∅ stopTimes.

(** The trip object pushed for a row of trips.txt; the application reads
    the stop-times without their sequence numbers. *)
Definition trip_of (sorted : gmap string (list SeqStopTime)) (trip : TripRow.t)
    : option Trip :=
  match sorted !! TripRow.trip_id trip with
  | Some sts =>
      Some (mkTrip (TripRow.trip_id trip) (TripRow.service_id trip)
              (TripRow.shape_id trip) (TripRow.trip_headsign trip)
              (map seq_stop sts))
  | None => None
  end.

Definition push_trip (sorted : gmap string (list SeqStopTime))
    (schedule : gmap string (list Trip)) (trip : TripRow.t)
    : gmap string (list Trip) :=
  let routeId := TripRow.route_id trip in
  let schedule :=
    match schedule !! routeId with
    | None => <[routeId := []]> schedule
    | Some _ => schedule
    end in
  match trip_of sorted trip with
  | Some t => <[routeId := default [] (schedule !! routeId) ++ [t]]> schedule
  | None => schedule
  end.

(** The [schedule] object written to schedule.json. *)
Definition processSchedule (stopTimes : list StopTimeRow.t)
    (trips : list TripRow.t) : gmap string (list Trip) :=
  foldl (push_trip (sortedStopTimes stopTimes)) ∅ trips.
End ProcessGTFS.

(** ** The calendar table (process-gtfs.js) *)

Module CalendarRow.
Record t : Type := mk {
  service_id : string;
  monday : string;
  tuesday : string;
  wednesday : string;
  thursday : string;
  friday : string;
  saturday : string;
  sunday : string;
  start_date : string;
  end_date : string
}.
End CalendarRow.



(** ** The shapes table (process-gtfs.js) *)

Module ShapeRow.
Record t : Type := mk {
  shape_id : string;
  shape_pt_lat : string;
  shape_pt_lon : string;
  shape_pt_sequence : string
}.
End ShapeRow.

(** A shape point with its sequence number, as the script holds it. *)
Record SeqPoint : Type := mkSeqPoint {
  pt_lat : num;
  pt_lon : num;
  pt_seq : inum
}.

(** [(a, b) => a.seq - b.seq] *)
Definition by_pt_seq (a b : SeqPoint) : inum := inum_sub (pt_seq a) (pt_seq b).

Section ProcessShapes.
(** The built-ins [parseFloat] and [parseInt]. *)
Variable parseFloat : string -> num.
Variable parseInt : string -> inum.

Definition push_shape_point (m : gmap string (list SeqPoint)) (shape : ShapeRow.t)
    : gmap string (list SeqPoint) :=
  <[ShapeRow.shape_id shape :=
      default [] (m !! ShapeRow.shape_id shape)
      ++ [mkSeqPoint (parseFloat (ShapeRow.shape_pt_lat shape))
            (parseFloat (ShapeRow.shape_pt_lon shape))
            (parseInt (ShapeRow.shape_pt_sequence shape))]]> m.

(** [shapesMap], once every list is sorted. *)
Definition shapesMap (shapes : list ShapeRow.t) : gmap string (list SeqPoint) :=
  sort by_pt_seq <$> foldl push_shape_point ∅ shapes.

(** The [simplifiedShapes] object written to shapes.json: the arrays
    [[lat, lon]]. *)
Definition simplifiedShapes (shapes : list ShapeRow.t) : gmap string (list position) :=
  map (fun p => (pt_lat p, pt_lon p)) <$> shapesMap shapes.
End ProcessShapes.

(** ** The time of day (gtfs.js, Map.jsx) *)

(** A [Date], through its local time of day. *)
Record LocalTime : Type := mkLocalTime {
  getHours : Z;
  getMinutes : Z;
  getSeconds : Z
}.

(** [getCurrentTimeSeconds]; [now] is the value of [new Date()].  The
    clock of the map starts from the same expression. *)
Definition getCurrentTimeSeconds (now : LocalTime) : Z :=
  getHours now * 3600 + getMinutes now * 60 + getSeconds now.

(** * Notions used to state the properties *)

(** ** Well-formed times *)

Fixpoint all_digits (s : string) : bool :=
  match s with
  | EmptyString => true
  | String c s' => is_digit c && all_digits s'
  end.

(** The number a string of digits denotes, by position. *)
Fixpoint decimal_value (s : string) : Z :=
  match s with
  | EmptyString => 0
  | String c s' => digit_value c * 10 ^ Z.of_nat (String.length s') + decimal_value s'
  end.

(** The three fields of a time, when there are exactly three. *)
Definition time_fields (s : string) : option (string * string * string) :=
  match split ":" s with
  | [hh; mm; ss] => Some (hh, mm, ss)
  | _ => None
  end.

(** A valid time: an hour field of one to ten digits (any hour count, and
    every intermediate value stays an integer below 2^53), then two-digit
    minute and second fields below 60. *)
Definition valid_time (s : string) : bool :=
  match time_fields s with
  | Some (hh, mm, ss) =>
      (1 <=? String.length hh)%nat && (String.length hh <=? 10)%nat && all_digits hh
      && (String.length mm =? 2)%nat && all_digits mm && (decimal_value mm <? 60)
      && (String.length ss =? 2)%nat && all_digits ss && (decimal_value ss <? 60)
  | None => false
  end.

(** ** Calendar *)



(** ** Stop schedules *)

(** A schedule list in ascending order of time (all times being numbers). *)
Fixpoint ascending (l : list Arrival.t) : bool :=
  match l with
  | a :: ((b :: _) as l') =>
      inum_leb (Arrival.time a) (Arrival.time b) && ascending l'
  | _ => true
  end.

Definition parses (s : string) : bool :=
  match timeToSeconds s with
  | Some _ => true
  | None => false
  end.

(** Every departure time of the schedule table is a number. *)
Definition departures_ok (schedule : gmap string (list Trip)) : bool :=
  forallb (fun entry : string * list Trip =>
    forallb (fun trip => forallb (fun st => parses (departure st)) (stops trip))
      entry.2)
    (map_to_list schedule).

(** ** Trips *)

(** Every arrival and departure time of the stop-times is a number. *)
Definition times_ok (stops : list StopTime) : bool :=
  forallb (fun s => parses (arrival s) && parses (departure s)) stops.

(** The stop-times follow each other in time: a stop is not left before
    it is reached, and the next stop is not reached before this one is
    left. *)
Fixpoint chronological (stops : list StopTime) : bool :=
  match stops with
  | [] => true
  | s1 :: stops' =>
      inum_leb (timeToSeconds (arrival s1)) (timeToSeconds (departure s1))
      && match stops' with
         | [] => true
         | s2 :: _ =>
             inum_leb (timeToSeconds (departure s1)) (timeToSeconds (arrival s2))
         end
      && chronological stops'
  end.

(** Every trip of the schedule table has at least one stop-time (the
    feed processing script keeps no other trip). *)
Definition trips_nonempty (schedule : gmap string (list Trip)) : bool :=
  forallb (fun entry : string * list Trip =>
    forallb (fun trip => match stops trip with [] => false | _ :: _ => true end)
      entry.2)
    (map_to_list schedule).

(** Every stop of the trip is in the stops table. *)
Definition stops_resolve (data : Data.t) (trip : Trip) : bool :=
  forallb (fun s => bool_decide (is_Some (Data.stops data !! stopId s))) (stops trip).

(** [a] is in the schedule list of stop [k]. *)
Definition listed (idx : gmap string (list Arrival.t)) (k : string)
    (a : Arrival.t) : Prop :=
  exists l, idx !! k = Some l /\ a ∈ l.

(** ** Vehicles *)

Section Resolved.
Variable Math : MathObject.

(** The position of a vehicle comes from stops found in the stops table:
    the coordinates of the stop it dwells at, or a point interpolated
    between the two stops of its leg. *)
Definition resolved (data : Data.t) (v : Vehicle) : Prop :=
  (status v = dwelling
   /\ exists s stop,
        s ∈ stops (vehicle_trip v) /\ Data.stops data !! stopId s = Some stop
        /\ vehicle_position v = stop_position stop)
  \/ (status v = moving
      /\ exists s1 s2 stop1 stop2 progress,
           s1 ∈ stops (vehicle_trip v) /\ s2 ∈ stops (vehicle_trip v)
           /\ Data.stops data !! stopId s1 = Some stop1
           /\ Data.stops data !! stopId s2 = Some stop2
           /\ interpolatePositionOnShape Math
                (Data.shapes data !! shapeId (vehicle_trip v)) stop1 stop2 progress
              = Ret (vehicle_position v)).
End Resolved.

(** ** Fields of a time *)

(** A string of at most ten digits, the empty string included. *)
Definition digits10 (s : string) : bool :=
  all_digits s && (String.length s <=? 10)%nat.

(** ** Paths *)

Definition finite (d : num) : bool :=
  match d with
  | Fin _ => true
  | _ => false
  end.

Definition positive (d : num) : bool :=
  match d with
  | Fin q => negb (Qle_bool q 0)
  | _ => false
  end.

(** Every segment of the path has a finite length. *)
Definition finite_lengths (Math : MathObject) (path : list point) : bool :=
  forallb finite (segment_lengths Math path).

(** Every segment of the path has a finite length above zero. *)
Definition positive_lengths (Math : MathObject) (path : list point) : bool :=
  forallb positive (segment_lengths Math path).

(** ** Trips of a route *)

(** The first departure of a trip in seconds, NaN for a trip without
    stop-times: what [startTime] computes when it does not raise. *)
Definition startTime_of (trip : Trip) : inum :=
  match stops trip with
  | [] => None
  | firstStop :: _ => timeToSeconds (departure firstStop)
  end.

(** The comparator of [getNextRouteTrip] on trips that have stop-times. *)
Definition by_start (a b : Trip) : inum :=
  inum_sub (startTime_of a) (startTime_of b).

Definition no_stops (trip : Trip) : bool :=
  match stops trip with
  | [] => true
  | _ :: _ => false
  end.

(** The service of the trip runs on the day, and its first departure is
    after the given time. *)
Definition upcoming (now : Date) (calendar : gmap string Service)
    (currentTime : Z) (trip : Trip) : bool :=
  isServiceActive (serviceId trip) calendar now
  && inum_gtb (startTime_of trip) (Some currentTime).

(** ** The loaded data *)

(** [a] is the schedule entry of a stop-time at stop [k] of a trip of a
    route that is in the routes table. *)
Definition scheduled (schedule : gmap string (list Trip)) (routes : list Route)
    (k : string) (a : Arrival.t) : Prop :=
  exists routeId trips route trip st,
    schedule !! routeId = Some trips /\ find_route routes routeId = Some route
    /\ trip ∈ trips /\ st ∈ stops trip
    /\ k = stopId st /\ a = arrival_of route trip st.

(** [a] is a bus to come: its time is a number after [currentTime] and its
    service runs on the day. *)
Definition to_come (now : Date) (calendar : gmap string Service)
    (currentTime : Z) (a : Arrival.t) : Prop :=
  (exists t, Arrival.time a = Some t /\ currentTime < t)
  /\ isServiceActive (Arrival.serviceId a) calendar now = true.

(** ** The static route network *)

(** What the loop of [routeShapes] keeps true: the set holds the
    identifiers of the shapes pushed, each pushed once, each with its
    points in the shapes table. *)
Definition routeShapes_inv (data : Data.t)
    (st : list RouteShape.t * gset string) : Prop :=
  NoDup (RouteShape.id <$> st.1)
  /\ (forall k, k ∈ st.2 <-> k ∈ RouteShape.id <$> st.1)
  /\ (forall s, s ∈ st.1 ->
        RouteShape.id s <> EmptyString
        /\ Data.shapes data !! RouteShape.id s = Some (RouteShape.points s)).

(** Where a pushed shape comes from. *)
Definition routeShapes_from (data : Data.t)
    (entries : list (string * list Trip)) (s : RouteShape.t) : Prop :=
  exists e trip, e ∈ entries /\ trip ∈ e.2 /\ RouteShape.id s = shapeId trip
                 /\ RouteShape.route s = find_route (Data.routes data) e.1.

(** ** The schedule table, as a function of the rows *)

Section ProcessGTFSNotions.
Variable parseInt : string -> inum.

(** The stop-time that the script holds for a row of stop_times.txt. *)
Definition stop_time_of (st : StopTimeRow.t) : SeqStopTime :=
  mkSeqStopTime
    (mkStopTime (StopTimeRow.stop_id st) (StopTimeRow.arrival_time st)
       (StopTimeRow.departure_time st))
    (parseInt (StopTimeRow.stop_sequence st)).

(** The stop-times of the rows of trip [k], in row order. *)
Definition rows_of (k : string) (stopTimes : list StopTimeRow.t) : list SeqStopTime :=
  map stop_time_of
    (List.filter (fun st => String.eqb (StopTimeRow.trip_id st) k) stopTimes).

(** The trip written for a row of trips.txt: none when no row of
    stop_times.txt has its trip. *)
Definition written_trip (stopTimes : list StopTimeRow.t) (row : TripRow.t)
    : option Trip :=
  match rows_of (TripRow.trip_id row) stopTimes with
  | [] => None
  | l =>
      Some (mkTrip (TripRow.trip_id row) (TripRow.service_id row)
              (TripRow.shape_id row) (TripRow.trip_headsign row)
              (map seq_stop (sort by_seq l)))
  end.

(** Some row of stop_times.txt is of the trip of the row. *)
Definition has_stop_times (stopTimes : list StopTimeRow.t) (row : TripRow.t) : bool :=
  existsb (fun st => String.eqb (StopTimeRow.trip_id st) (TripRow.trip_id row))
    stopTimes.

(** [trip] is what the script writes for [row]: the identifiers and the
    headsign of the row, and for stop-times those of the rows of
    stop_times.txt of its trip, each of them once; when the sequence
    numbers of these rows are all numbers, they are these rows sorted by
    sequence number. *)
Definition written_for (stopTimes : list StopTimeRow.t) (row : TripRow.t)
    (trip : Trip) : Prop :=
  tripId trip = TripRow.trip_id row
  /\ serviceId trip = TripRow.service_id row
  /\ shapeId trip = TripRow.shape_id row
  /\ headsign trip = TripRow.trip_headsign row
  /\ exists sts,
       stops trip = map seq_stop sts
       /\ sts ≡ₚ rows_of (TripRow.trip_id row) stopTimes
       /\ (Forall (fun s => is_Some (seq s)) (rows_of (TripRow.trip_id row) stopTimes) ->
           sts = sort by_seq (rows_of (TripRow.trip_id row) stopTimes)).
End ProcessGTFSNotions.

(** ** The tables, as functions of the rows *)


Section ProcessShapesNotions.
Variable parseFloat : string -> num.
Variable parseInt : string -> inum.

(** The point that the script holds for a row of shapes.txt. *)
Definition point_of (shape : ShapeRow.t) : SeqPoint :=
  mkSeqPoint (parseFloat (ShapeRow.shape_pt_lat shape))
    (parseFloat (ShapeRow.shape_pt_lon shape))
    (parseInt (ShapeRow.shape_pt_sequence shape)).

(** The points of the rows of shape [k], in row order. *)
Definition points_of (k : string) (shapes : list ShapeRow.t) : list SeqPoint :=
  map point_of
    (List.filter (fun shape => String.eqb (ShapeRow.shape_id shape) k) shapes).
End ProcessShapesNotions.

(** The time of day is a time of the clock: hours below 24, minutes and
    seconds below 60. *)
Definition time_of_day (now : LocalTime) : bool :=
  (0 <=? getHours now) && (getHours now <? 24)
  && (0 <=? getMinutes now) && (getMinutes now <? 60)
  && (0 <=? getSeconds now) && (getSeconds now <? 60).

(** * A small feed, to run the definitions on *)

Module Sample.
(** Rational stand-ins for the [Math] built-ins, enough to run the
    definitions; no property below depends on them. *)
Definition sin (x : num) : num := x.
Definition cos (x : num) : num := of_Z 1.
Definition sqrt (x : num) : num := x.
Definition atan2 (y x : num) : num := num_div y x.
Definition PI : num := Fin (355 # 113).

Definition weekdays : Service :=
  mkService true true true true true false false "20240101" "20241231".

Definition calendar : gmap string Service := {[ "WD"%string := weekdays ]}.

(** Wednesday 13 March 2024. *)
Definition today : Date := mkDate "2024-03-13T02:15:00.000Z" 3.



Definition A : Stop := mkStop "Terminal" (6125 # 1000) (102238 # 1000).
Definition B : Stop := mkStop "Market" (6130 # 1000) (102250 # 1000).
Definition C : Stop := mkStop "Hospital" (6140 # 1000) (102255 # 1000).

Definition stopsTable : gmap string Stop :=
  {[ "A"%string := A; "B"%string := B; "C"%string := C ]}.

Definition shape1 : list point :=
  [(6125 # 1000, 102238 # 1000); (6130 # 1000, 102250 # 1000);
   (6140 # 1000, 102255 # 1000)]%Q.

Definition stA : StopTime := mkStopTime "A" "07:55:00" "08:00:00".
Definition stB : StopTime := mkStopTime "B" "08:05:00" "08:06:00".
Definition stC : StopTime := mkStopTime "C" "08:10:00" "08:10:00".

Definition trip1 : Trip := mkTrip "T1" "WD" "S1" "Hospital" [stA; stB; stC].

Definition route1 : Route := mkRoute "R1" "1" "Terminal - Hospital" "#3b82f6" "#ffffff".

Definition schedule : gmap string (list Trip) := {[ "R1"%string := [trip1] ]}.

Definition data : Data.t :=
  Data.mk [route1] stopsTable {[ "S1"%string := shape1 ]} schedule calendar
    (precalculateStopSchedules schedule [route1] calendar).

(** The same feed with stop B missing from the stops table. *)
Definition dataNoB : Data.t :=
  Data.mk [route1] {[ "A"%string := A; "C"%string := C ]}
    {[ "S1"%string := shape1 ]} schedule calendar
    (precalculateStopSchedules schedule [route1] calendar).

Definition entry (t : Z) (service : string) : Arrival.t :=
  Arrival.mk (Some t) route1 "T" service "Hospital".

(** Arrivals at 300, 600 and 900 seconds, and one of a service that does
    not run, at 450. *)
Definition index : gmap string (list Arrival.t) :=
  {[ "A"%string := [entry 300 "WD"; entry 450 "OFF"; entry 600 "WD"; entry 900 "WD"] ]}.

Definition Math : MathObject := mkMath sin cos sqrt atan2 PI.
End Sample.

(** * More of the small feed *)

Module Demo.
(** A shape whose first point is recorded twice. *)
Definition doubled : list point :=
  [(6125 # 1000, 102238 # 1000); (6125 # 1000, 102238 # 1000);
   (6140 # 1000, 102255 # 1000)]%Q.

(** Another route. *)
Definition route2 : Route := mkRoute "R2" "2" "Terminal - Airport" "#3b82f6" "#ffffff".

(** A later trip on the same route. *)
Definition stA2 : StopTime := mkStopTime "A" "08:25:00" "08:30:00".
Definition stC2 : StopTime := mkStopTime "C" "08:40:00" "08:40:00".
Definition trip2 : Trip := mkTrip "T2" "WD" "S1" "Hospital" [stA2; stC2].

Definition schedule : gmap string (list Trip) :=
  {[ "R1"%string := [trip2; Sample.trip1] ]}.

(** A feed in which a stop has the identifier "undefined". *)
Definition stU : StopTime := mkStopTime "undefined" "08:30:00" "08:31:00".
Definition tripU : Trip := mkTrip "T3" "WD" "S1" "Hospital" [Sample.stA; stU].
Definition scheduleU : gmap string (list Trip) := {[ "R1"%string := [tripU] ]}.

(** Rows of stop_times.txt, out of order, and of trips.txt, one of them
    without stop-times. *)
Definition stopTimeRows : list StopTimeRow.t :=
  [StopTimeRow.mk "T1" "08:05:00" "08:06:00" "B" "2";
   StopTimeRow.mk "T1" "07:55:00" "08:00:00" "A" "1";
   StopTimeRow.mk "T1" "08:10:00" "08:10:00" "C" "3"].

Definition tripRows : list TripRow.t :=
  [TripRow.mk "R1" "WD" "T1" "Hospital" "S1";
   TripRow.mk "R1" "WD" "T9" "Hospital" "S1"].

(** A stand-in for [parseInt], on strings of digits. *)
Definition parseInt (s : string) : inum := Number s.

Definition processed : Data.t :=
  loadData [Sample.route1] Sample.stopsTable {[ "S1"%string := Sample.shape1 ]}
    (processSchedule parseInt stopTimeRows tripRows) Sample.calendar.
End Demo.

Module Rows.
(** Two rows of calendar.txt for the same service: the later one counts. *)
Definition calendarRows : list CalendarRow.t :=
  [CalendarRow.mk "WD" "0" "0" "0" "0" "0" "1" "1" "20230101" "20231231";
   CalendarRow.mk "WD" "1" "1" "1" "1" "1" "0" "0" "20240101" "20241231"].

(** Rows of shapes.txt, out of order. *)
Definition shapeRows : list ShapeRow.t :=
  [ShapeRow.mk "S1" "6.130" "102.250" "2";
   ShapeRow.mk "S1" "6.125" "102.238" "1"].

(** A stand-in for [parseFloat]: the digits, read as a whole number. *)
Definition parseFloat (s : string) : num :=
  of_inum (Number (remove_char "." s)).

(** 08:05:30. *)
Definition morning : LocalTime := mkLocalTime 8 5 30.
End Rows.

(** * Proof automation *)

(** Case analysis on every integer comparison of the goal. *)
Ltac order_cases :=
  repeat match goal with
  | |- context [Z.leb ?x ?y] => destruct (Z.leb_spec x y)
  | |- context [Z.ltb ?x ?y] => destruct (Z.ltb_spec x y)
  end; cbn [andb]; try lia.

(** * Properties *)

(** ** Time parsing *)

Lemma is_digit_value c : is_digit c = true -> 0 <= digit_value c <= 9.
Proof.
  unfold is_digit, digit_value. intros H.
  apply andb_true_iff in H as [H1 H2].
  apply N.leb_le in H1, H2. lia.
Qed.

Lemma digit_value_inj c1 c2 :
  digit_value c1 = digit_value c2 -> c1 = c2.
Proof.
  unfold digit_value. intros H.
  assert (N_of_ascii c1 = N_of_ascii c2) as E by lia.
  rewrite <- (ascii_N_embedding c1), <- (ascii_N_embedding c2). by rewrite E.
Qed.

Lemma decimal_value_bounds s :
  all_digits s = true -> 0 <= decimal_value s < 10 ^ Z.of_nat (String.length s).
Proof.
  induction s as [|c s IH]; simpl; intros H; [lia|].
  apply andb_true_iff in H as [Hc Hs].
  specialize (IH Hs). apply is_digit_value in Hc.
  rewrite Nat2Z.inj_succ, Z.pow_succ_r by lia. nia.
Qed.

Lemma digits_value_spec s : forall acc,
  all_digits s = true ->
  digits_value acc s = Some (acc * 10 ^ Z.of_nat (String.length s) + decimal_value s).
Proof.
  induction s as [|c s IH]; simpl; intros acc H.
  - f_equal. lia.
  - apply andb_true_iff in H as [Hc Hs]. rewrite Hc, (IH _ Hs).
    f_equal. rewrite Nat2Z.inj_succ, Z.pow_succ_r by lia. ring.
Qed.

Lemma Number_digits s : all_digits s = true -> Number s = Some (decimal_value s).
Proof. intros H. unfold Number. by rewrite digits_value_spec. Qed.

Lemma decimal_value_inj s1 : forall s2,
  String.length s1 = String.length s2 ->
  all_digits s1 = true -> all_digits s2 = true ->
  decimal_value s1 = decimal_value s2 -> s1 = s2.
Proof.
  induction s1 as [|c1 s1 IH]; intros [|c2 s2]; simpl; try done.
  intros Hl H1 H2 Hv.
  apply andb_true_iff in H1 as [Hc1 Hs1]. apply andb_true_iff in H2 as [Hc2 Hs2].
  injection Hl as Hl.
  pose proof (decimal_value_bounds _ Hs1) as B1.
  pose proof (decimal_value_bounds _ Hs2) as B2.
  apply is_digit_value in Hc1, Hc2. rewrite Hl in *.
  set (p := 10 ^ Z.of_nat (String.length s2)) in *.
  assert (digit_value c1 = digit_value c2) as Hd by nia.
  assert (decimal_value s1 = decimal_value s2) as Hr by nia.
  f_equal; [by apply digit_value_inj | by apply IH].
Qed.

(** Splitting and joining again gives the string back. *)
Lemma split_nonempty sep s : split sep s <> [].
Proof. destruct s as [|c s]; simpl; [done|]. destruct (Ascii.eqb c sep); [done|]. by destruct (split sep s). Qed.

Lemma join_split sep s : join sep (split sep s) = s.
Proof.
  induction s as [|c s IH]; simpl; [done|].
  pose proof (split_nonempty sep s) as Hn.
  destruct (Ascii.eqb_spec c sep) as [->|Hc].
  - destruct (split sep s) as [|w ws]; [done|]. simpl in *. by rewrite IH.
  - destruct (split sep s) as [|w ws]; [done|]. simpl in *.
    destruct ws; simpl in *; by rewrite <- IH.
Qed.

Lemma time_fields_join s hh mm ss :
  time_fields s = Some (hh, mm, ss) ->
  s = (hh ++ ":" ++ mm ++ ":" ++ ss)%string.
Proof.
  unfold time_fields. intros H.
  rewrite <- (join_split ":" s) at 1.
  destruct (split ":" s) as [|a [|b [|c [|? ?]]]]; try done.
  by injection H as -> -> ->.
Qed.

Lemma timeToSeconds_fields s hh mm ss :
  time_fields s = Some (hh, mm, ss) ->
  all_digits hh = true -> all_digits mm = true -> all_digits ss = true ->
  timeToSeconds s =
    Some (decimal_value hh * 3600 + decimal_value mm * 60 + decimal_value ss).
Proof.
  unfold time_fields, timeToSeconds. intros H Hh Hm Hs.
  destruct (split ":" s) as [|a [|b [|c [|? ?]]]]; try done.
  injection H as -> -> ->. simpl.
  by rewrite !Number_digits.
Qed.

Lemma valid_time_fields s :
  valid_time s = true ->
  exists hh mm ss,
    time_fields s = Some (hh, mm, ss) /\
    all_digits hh = true /\ all_digits mm = true /\ all_digits ss = true /\
    String.length mm = 2%nat /\ String.length ss = 2%nat /\
    decimal_value mm < 60 /\ decimal_value ss < 60.
Proof.
  unfold valid_time. destruct (time_fields s) as [[[hh mm] ss]|]; [|done].
  intros H. repeat (apply andb_true_iff in H as [H ?]).
  exists hh, mm, ss.
  repeat split; try done; try (by apply Nat.eqb_eq); by apply Z.ltb_lt.
Qed.

Lemma append_length s1 s2 :
  String.length (s1 ++ s2) = (String.length s1 + String.length s2)%nat.
Proof. induction s1 as [|c s1 IH]; [reflexivity|]. cbn. by rewrite <- IH. Qed.

Lemma timeToSeconds_inj x y :
  valid_time x = true -> valid_time y = true ->
  String.length x = String.length y ->
  timeToSeconds x = timeToSeconds y -> x = y.
Proof.
  intros Hx Hy Hl He.
  destruct (valid_time_fields _ Hx) as (h1 & m1 & s1 & F1 & Dh1 & Dm1 & Ds1 & Lm1 & Ls1 & Bm1 & Bs1).
  destruct (valid_time_fields _ Hy) as (h2 & m2 & s2 & F2 & Dh2 & Dm2 & Ds2 & Lm2 & Ls2 & Bm2 & Bs2).
  rewrite (timeToSeconds_fields _ _ _ _ F1), (timeToSeconds_fields _ _ _ _ F2) in He by done.
  injection He as He.
  pose proof (decimal_value_bounds _ Dh1). pose proof (decimal_value_bounds _ Dh2).
  pose proof (decimal_value_bounds _ Dm1). pose proof (decimal_value_bounds _ Dm2).
  pose proof (decimal_value_bounds _ Ds1). pose proof (decimal_value_bounds _ Ds2).
  assert (decimal_value h1 = decimal_value h2 /\ decimal_value m1 = decimal_value m2
          /\ decimal_value s1 = decimal_value s2) as (Eh & Em & Es) by lia.
  apply time_fields_join in F1, F2. subst x y.
  rewrite !append_length in Hl. cbn in Hl.
  assert (String.length h1 = String.length h2) as Lh by lia.
  rewrite (decimal_value_inj h1 h2), (decimal_value_inj m1 m2), (decimal_value_inj s1 s2);
    congruence.
Qed.

(** C8. On a valid time, hours of any count then two-digit minutes and
    seconds below 60, [timeToSeconds] is H * 3600 + M * 60 + S; over valid
    times written with the same number of hour digits (two within a day)
    it is injective; midnight is 0 and 23:59:59 is 86399. *)
Theorem timeToSeconds_valid :
  (forall s hh mm ss,
      valid_time s = true -> time_fields s = Some (hh, mm, ss) ->
      timeToSeconds s
      = Some (decimal_value hh * 3600 + decimal_value mm * 60 + decimal_value ss))
  /\ (forall x y,
        valid_time x = true -> valid_time y = true ->
        String.length x = String.length y ->
        timeToSeconds x = timeToSeconds y -> x = y)
  /\ timeToSeconds "00:00:00" = Some 0
  /\ timeToSeconds "23:59:59" = Some 86399.
Proof.
  split; [|split; [|split; reflexivity]].
  - intros s hh mm ss Hv Hf.
    destruct (valid_time_fields _ Hv) as (h & m & x & Hf' & Dh & Dm & Ds & _).
    assert (h = hh /\ m = mm /\ x = ss) as (-> & -> & ->) by (split; [|split]; congruence).
    by apply timeToSeconds_fields.
  - apply timeToSeconds_inj.
Qed.

Lemma timeToSeconds_valid_witness :
  valid_time "08:05:30" = true
  /\ timeToSeconds "08:05:30" = Some 29130
  /\ timeToSeconds "08:05:30" <> timeToSeconds "08:05:31".
Proof.
  split; [reflexivity|]. split.
  - exact (proj1 timeToSeconds_valid "08:05:30" "08" "05" "30" eq_refl eq_refl).
  - intros E.
    apply (proj1 (proj2 timeToSeconds_valid) "08:05:30" "08:05:31" eq_refl eq_refl eq_refl) in E.
    discriminate E.
Defined.

(** ** Calendar *)






(** ** Next arrival *)

Lemma find_first {A} (p : A -> bool) (l : list A) :
  match find p l with
  | Some a =>
      exists i, l !! i = Some a /\ p a = true
                /\ forall j b, (j < i)%nat -> l !! j = Some b -> p b = false
  | None => forall b, b ∈ l -> p b = false
  end.
Proof.
  induction l as [|x l IH]; simpl.
  - intros b Hb. by apply elem_of_nil in Hb.
  - destruct (p x) eqn:Hx.
    + exists 0%nat. repeat split; [done|]. intros j b Hj. lia.
    + destruct (find p l) as [a|].
      * destruct IH as (i & Hi & Ha & Hmin). exists (S i). repeat split; [done..|].
        intros [|j] b Hj Hb; simpl in Hb; [congruence|]. apply (Hmin j); [lia|done].
      * intros b [->|Hb]%elem_of_cons; [done|by apply IH].
Qed.

Lemma inum_leb_trans a b c :
  inum_leb a b = true -> inum_leb b c = true -> inum_leb a c = true.
Proof.
  destruct a, b, c; simpl; try done.
  rewrite !Z.leb_le. lia.
Qed.

Lemma ascending_tail x (l : list Arrival.t) :
  ascending (x :: l) = true -> ascending l = true.
Proof. destruct l; [done|]. simpl. by intros [_ ?]%andb_true_iff. Qed.

Lemma ascending_head (l : list Arrival.t) : forall x,
  ascending (x :: l) = true ->
  forall b, b ∈ l -> inum_leb (Arrival.time x) (Arrival.time b) = true.
Proof.
  induction l as [|y l IH]; intros x H b Hb.
  - by apply elem_of_nil in Hb.
  - pose proof (ascending_tail _ _ H) as Hyl.
    simpl in H. apply andb_true_iff in H as [Hxy _].
    apply elem_of_cons in Hb as [->|Hb]; [done|].
    eapply inum_leb_trans; [exact Hxy|]. by apply IH.
Qed.

Lemma ascending_lookup (l : list Arrival.t) :
  ascending l = true ->
  forall i j a b, (i < j)%nat -> l !! i = Some a -> l !! j = Some b ->
    inum_leb (Arrival.time a) (Arrival.time b) = true.
Proof.
  induction l as [|x l IH]; intros Hasc i j a b Hij Hi Hj; [done|].
  destruct j as [|j]; [lia|]. simpl in Hj.
  destruct i as [|i]; simpl in Hi.
  - injection Hi as ->. apply (ascending_head l); [done|].
    by apply list_elem_of_lookup_2 in Hj.
  - apply (IH (ascending_tail _ _ Hasc) i j); [lia|done..].
Qed.

Lemma getNextArrival_find now stopId currentTime
    (idx : gmap string (list Arrival.t)) calendar :
  let ok (a : Arrival.t) :=
    (exists t, Arrival.time a = Some t /\ currentTime < t)
    /\ isServiceActive (Arrival.serviceId a) calendar now = true in
  match getNextArrival now stopId currentTime idx calendar with
  | Some a =>
      exists arrivals i,
        idx !! stopId = Some arrivals /\ arrivals !! i = Some a /\ ok a
        /\ (forall j b, (j < i)%nat -> arrivals !! j = Some b -> ~ ok b)
        /\ (ascending arrivals = true ->
            forall b, b ∈ arrivals -> ok b ->
              inum_leb (Arrival.time a) (Arrival.time b) = true)
  | None =>
      forall arrivals b, idx !! stopId = Some arrivals -> b ∈ arrivals -> ~ ok b
  end.
Proof.
  intros ok. unfold getNextArrival.
  set (p := fun arrival : Arrival.t =>
              inum_gtb (Arrival.time arrival) (Some currentTime)
              && isServiceActive (Arrival.serviceId arrival) calendar now).
  assert (forall a, p a = true <-> ok a) as Hp.
  { intros a. unfold p, ok, inum_gtb, inum_ltb. rewrite andb_true_iff. split.
    - intros [Ht Hs]. split; [|done]. destruct (Arrival.time a) as [t|]; [|done].
      exists t. split; [done|]. by apply Z.ltb_lt.
    - intros [(t & -> & Ht) Hs]. split; [|done]. by apply Z.ltb_lt. }
  destruct (idx !! stopId) as [arrivals|] eqn:Hidx; [|done].
  pose proof (find_first p arrivals) as Hf.
  destruct (find p arrivals) as [a|].
  - destruct Hf as (i & Hi & Ha & Hmin).
    exists arrivals, i. split; [done|]. split; [done|]. split; [by apply Hp|]. split.
    + intros j b Hj Hb Hok. apply Hp in Hok. rewrite (Hmin j b Hj Hb) in Hok. done.
    + intros Hasc b Hb Hok.
      apply list_elem_of_lookup in Hb as [j Hj].
      destruct (decide (j < i)%nat) as [Hlt|Hge].
      * apply Hp in Hok. by rewrite (Hmin j b Hlt Hj) in Hok.
      * destruct (decide (j = i)) as [->|Hne].
        -- assert (b = a) as -> by congruence.
           apply Hp in Ha as [(t & -> & _) _]. simpl. apply Z.leb_le. lia.
        -- apply (ascending_lookup arrivals Hasc i j); [lia|done..].
  - intros arrivals' b [= <-] Hb Hok. apply Hp in Hok. by rewrite (Hf b Hb) in Hok.
Qed.

(** C3. [getNextArrival] returns the first entry of the list of the stop
    that is later than the current time and whose service is active
    today: no entry before it in the list qualifies, and in a list in
    ascending order of time no qualifying entry is earlier.  It returns
    nothing when no entry qualifies.  With arrivals at 300, 600 and 900
    seconds, and one of a service that does not run at 450, the answer at
    301 is the entry at 600. *)
Theorem getNextArrival_first :
  (forall now stopId currentTime (idx : gmap string (list Arrival.t)) calendar,
      let ok (a : Arrival.t) :=
        (exists t, Arrival.time a = Some t /\ currentTime < t)
        /\ isServiceActive (Arrival.serviceId a) calendar now = true in
      match getNextArrival now stopId currentTime idx calendar with
      | Some a =>
          exists arrivals i,
            idx !! stopId = Some arrivals /\ arrivals !! i = Some a /\ ok a
            /\ (forall j b, (j < i)%nat -> arrivals !! j = Some b -> ~ ok b)
            /\ (ascending arrivals = true ->
                forall b, b ∈ arrivals -> ok b ->
                  inum_leb (Arrival.time a) (Arrival.time b) = true)
      | None =>
          forall arrivals b,
            idx !! stopId = Some arrivals -> b ∈ arrivals -> ~ ok b
      end)
  /\ getNextArrival Sample.today "A" 301 Sample.index Sample.calendar
     = Some (Sample.entry 600 "WD")
  /\ getNextArrival Sample.today "A" 900 Sample.index Sample.calendar = None.
Proof.
  split; [apply getNextArrival_find|]. split; reflexivity.
Qed.

Lemma getNextArrival_first_witness :
  ascending [Sample.entry 300 "WD"; Sample.entry 450 "OFF"; Sample.entry 600 "WD";
             Sample.entry 900 "WD"] = true
  /\ inum_leb (Arrival.time (Sample.entry 600 "WD")) (Arrival.time (Sample.entry 900 "WD"))
     = true.
Proof.
  split; [reflexivity|].
  pose proof (proj1 getNextArrival_first Sample.today "A"%string 301 Sample.index
                Sample.calendar) as H.
  cbv zeta in H.
  change (getNextArrival Sample.today "A" 301 Sample.index Sample.calendar)
    with (Some (Sample.entry 600 "WD")) in H.
  destruct H as (arrivals & i & Hidx & _ & _ & _ & Hmin).
  change (Sample.index !! "A"%string)
    with (Some [Sample.entry 300 "WD"; Sample.entry 450 "OFF"; Sample.entry 600 "WD";
                Sample.entry 900 "WD"]) in Hidx.
  injection Hidx as <-.
  apply Hmin; [reflexivity| |].
  - do 3 apply list_elem_of_further. apply list_elem_of_here.
  - split; [exists 900; split; [reflexivity|lia]|reflexivity].
Defined.

(** ** The stop-schedule index *)

Section Index.
Implicit Types (idx : gmap string (list Arrival.t)) (k : string) (a : Arrival.t).

Lemma push_arrival_listed idx k a k' a' :
  listed (push_arrival idx k a) k' a' <-> listed idx k' a' \/ (k' = k /\ a' = a).
Proof.
  unfold listed, push_arrival. destruct (decide (k = k')) as [<-|Hne].
  - rewrite lookup_insert_eq. split.
    + intros (l & [= <-] & Hin). apply elem_of_app in Hin as [Hin|Hin].
      * left. destruct (idx !! k) as [l0|]; [by exists l0|]. by apply elem_of_nil in Hin.
      * right. apply list_elem_of_singleton in Hin. done.
    + intros [(l & Hl & Hin)|[_ ->]]; eexists; (split; [done|]).
      * rewrite Hl. simpl. apply elem_of_app. by left.
      * apply elem_of_app. right. by apply list_elem_of_singleton.
  - rewrite lookup_insert_ne by done. split; [by left|].
    intros [?|[-> _]]; done.
Qed.

Lemma foldl_listed {X} (f : gmap string (list Arrival.t) -> X -> gmap string (list Arrival.t))
    (R : X -> string -> Arrival.t -> Prop) :
  (forall idx x k a, listed (f idx x) k a <-> listed idx k a \/ R x k a) ->
  forall xs idx k a,
    listed (foldl f idx xs) k a <-> listed idx k a \/ exists x, x ∈ xs /\ R x k a.
Proof.
  intros Hf xs. induction xs as [|x xs IH]; intros idx k a; simpl.
  - split; [by left|]. intros [?|(x & Hx & _)]; [done|]. by apply elem_of_nil in Hx.
  - rewrite IH, Hf. split.
    + intros [[?|?]|(y & Hy & ?)]; [by left| |].
      * right. exists x. split; [apply elem_of_cons; by left|done].
      * right. exists y. split; [apply elem_of_cons; by right|done].
    + intros [?|(y & [->|Hy]%elem_of_cons & ?)]; [by left; left|by left; right|].
      right. by exists y.
Qed.

Lemma add_trip_listed route trip idx k a :
  listed (add_trip route idx trip) k a <->
  listed idx k a \/
  exists st, st ∈ stops trip /\ k = stopId st /\ a = arrival_of route trip st.
Proof.
  unfold add_trip.
  apply (foldl_listed _ (fun st k a => k = stopId st /\ a = arrival_of route trip st)).
  intros. apply push_arrival_listed.
Qed.

Lemma add_route_listed routes entry idx k a :
  listed (add_route routes idx entry) k a <->
  listed idx k a \/
  exists route trip st,
    find_route routes entry.1 = Some route /\ trip ∈ entry.2 /\ st ∈ stops trip
    /\ k = stopId st /\ a = arrival_of route trip st.
Proof.
  unfold add_route. destruct (find_route routes entry.1) as [route|].
  - rewrite (foldl_listed _ (fun trip k a =>
       exists st, st ∈ stops trip /\ k = stopId st /\ a = arrival_of route trip st)).
    + split; (intros [?|H]; [by left|right]).
      * destruct H as (trip & ? & st & ? & ? & ?). by exists route, trip, st.
      * destruct H as (r & trip & st & [= <-] & ? & ? & ? & ?). exists trip. split; [done|]. by exists st.
    + intros. apply add_trip_listed.
  - split; [by left|]. intros [?|(? & ? & ? & ? & _)]; done.
Qed.

Lemma not_listed_empty k a : ~ listed (∅ : gmap string (list Arrival.t)) k a.
Proof. intros (l & Hl & _). by rewrite lookup_empty in Hl. Qed.

(** The unsorted index lists exactly the stop-times of the trips of the
    routes that are in the routes table. *)
Lemma unsorted_index_listed (schedule : gmap string (list Trip)) routes k a :
  listed (foldl (add_route routes) ∅ (map_to_list schedule)) k a <->
  exists routeId trips route trip st,
    schedule !! routeId = Some trips /\ find_route routes routeId = Some route
    /\ trip ∈ trips /\ st ∈ stops trip
    /\ k = stopId st /\ a = arrival_of route trip st.
Proof.
  rewrite (foldl_listed _ (fun entry k a => exists route trip st,
     find_route routes entry.1 = Some route /\ trip ∈ entry.2 /\ st ∈ stops trip
     /\ k = stopId st /\ a = arrival_of route trip st)).
  - split.
    + intros [H|([routeId trips] & Hin & route & trip & st & H)]; [by apply not_listed_empty in H|].
      apply elem_of_map_to_list in Hin. by exists routeId, trips, route, trip, st.
    + intros (routeId & trips & route & trip & st & Hs & H). right.
      exists (routeId, trips). split; [by apply elem_of_map_to_list|]. by exists route, trip, st.
  - intros. apply add_route_listed.
Qed.
End Index.

(** *** Sorting *)

Lemma insert_sorted_elem (x : Arrival.t) l a :
  a ∈ insert_sorted by_time x l <-> a = x \/ a ∈ l.
Proof.
  induction l as [|y l IH]; simpl.
  - rewrite list_elem_of_singleton, elem_of_nil. tauto.
  - destruct (lt0 (by_time y x)).
    + rewrite !elem_of_cons, IH. tauto.
    + rewrite !elem_of_cons. tauto.
Qed.

Lemma sort_elem (l : list Arrival.t) a : a ∈ sort by_time l <-> a ∈ l.
Proof.
  induction l as [|x l IH]; simpl; [done|].
  rewrite insert_sorted_elem, elem_of_cons, IH. tauto.
Qed.

Lemma ascending_cons_iff x y (l : list Arrival.t) :
  ascending (x :: y :: l) = true <->
  inum_leb (Arrival.time x) (Arrival.time y) = true /\ ascending (y :: l) = true.
Proof. simpl. by rewrite andb_true_iff. Qed.

Lemma ascending_cons_all x (l : list Arrival.t) :
  (forall b, b ∈ l -> inum_leb (Arrival.time x) (Arrival.time b) = true) ->
  ascending l = true -> ascending (x :: l) = true.
Proof.
  destruct l as [|y l]; [done|]. intros Hx Hl.
  apply ascending_cons_iff. split; [|done]. apply Hx, elem_of_cons. by left.
Qed.

Lemma insert_sorted_ascending (x : Arrival.t) l :
  is_Some (Arrival.time x) -> Forall (fun a => is_Some (Arrival.time a)) l ->
  ascending l = true -> ascending (insert_sorted by_time x l) = true.
Proof.
  intros [tx Hx] Hall. induction l as [|y l IH]; intros Hasc; [done|].
  apply Forall_cons in Hall as [[ty Hy] Hall].
  cbn [insert_sorted].
  assert (lt0 (by_time y x) = (ty <? tx)) as ->.
  { unfold lt0, by_time. rewrite Hx, Hy. cbn.
    destruct (Z.ltb_spec (ty - tx) 0), (Z.ltb_spec ty tx); lia. }
  destruct (Z.ltb_spec ty tx) as [Hlt|Hge].
  - apply ascending_cons_all.
    + intros b [->|Hb]%insert_sorted_elem.
      * rewrite Hx, Hy. cbn. apply Z.leb_le. lia.
      * by apply (ascending_head l).
    + apply IH; [done|]. by apply ascending_tail in Hasc.
  - apply ascending_cons_iff. split; [|done].
    rewrite Hx, Hy. cbn. apply Z.leb_le. lia.
Qed.

Lemma sort_ascending (l : list Arrival.t) :
  Forall (fun a => is_Some (Arrival.time a)) l -> ascending (sort by_time l) = true.
Proof.
  induction l as [|x l IH]; intros Hall; [done|].
  apply Forall_cons in Hall as [Hx Hall]. simpl.
  apply insert_sorted_ascending; [done| |by apply IH].
  apply Forall_forall. intros a Ha. rewrite sort_elem in Ha.
  rewrite Forall_forall in Hall. by apply Hall.
Qed.

Lemma find_route_first routes routeId i route :
  routes !! i = Some route -> route_id route = routeId ->
  (forall j r, (j < i)%nat -> routes !! j = Some r -> route_id r <> routeId) ->
  find_route routes routeId = Some route.
Proof.
  unfold find_route. revert i.
  induction routes as [|x routes IH]; intros i Hi Hid Hfirst; [done|].
  cbn [find]. destruct i as [|i].
  - injection Hi as ->. by rewrite (proj2 (String.eqb_eq _ _) Hid).
  - destruct (String.eqb_spec (route_id x) routeId) as [E|_].
    + by destruct (Hfirst 0%nat x ltac:(lia) eq_refl).
    + apply (IH i); [done..|]. intros j r Hj Hr. apply (Hfirst (S j) r); [lia|done].
Qed.

Lemma find_route_Some routes routeId route :
  find_route routes routeId = Some route ->
  route ∈ routes /\ route_id route = routeId.
Proof.
  unfold find_route. intros H.
  pose proof (find_first (fun r => String.eqb (route_id r) routeId) routes) as Hf.
  rewrite H in Hf. destruct Hf as (i & Hi & Hid & _).
  split; [by apply list_elem_of_lookup_2 in Hi|by apply String.eqb_eq].
Qed.

(** C2 (amended). In the index built from a schedule table, every
    stop-time of every trip of a trip list whose route identifier is that
    of a route of the routes table has an entry in the list of its stop,
    made of the departure time in seconds, the first route of the table
    with that identifier, the trip id, the service id and the headsign.
    Every entry of the index is such an entry: its route is in the routes
    table and has the identifier of the trip list that the entry comes
    from, so a trip list whose identifier is that of no route leaves no
    entry.  And, the departure times being numbers, every list is in
    ascending order of time. *)
Theorem precalculateStopSchedules_spec schedule routes calendar :
  let idx := precalculateStopSchedules schedule routes calendar in
  (forall routeId trips i route trip st,
      schedule !! routeId = Some trips ->
      routes !! i = Some route -> route_id route = routeId ->
      (forall j r, (j < i)%nat -> routes !! j = Some r -> route_id r <> routeId) ->
      trip ∈ trips -> st ∈ stops trip ->
      exists arrivals,
        idx !! stopId st = Some arrivals
        /\ Arrival.mk (timeToSeconds (departure st)) route (tripId trip)
             (serviceId trip) (headsign trip) ∈ arrivals)
  /\ (forall k arrivals a,
        idx !! k = Some arrivals -> a ∈ arrivals ->
        exists routeId trips trip st,
          schedule !! routeId = Some trips /\ trip ∈ trips /\ st ∈ stops trip
          /\ stopId st = k
          /\ Arrival.route a ∈ routes /\ route_id (Arrival.route a) = routeId
          /\ a = Arrival.mk (timeToSeconds (departure st)) (Arrival.route a)
                   (tripId trip) (serviceId trip) (headsign trip))
  /\ (departures_ok schedule = true ->
      forall stopId arrivals,
        idx !! stopId = Some arrivals -> ascending arrivals = true).
Proof.
  intros idx. subst idx. unfold precalculateStopSchedules. split; [|split].
  - intros routeId trips i route trip st Hs Hi Hid Hfirst Ht Hst.
    pose proof (find_route_first routes routeId i route Hi Hid Hfirst) as Hr.
    assert (listed (foldl (add_route routes) ∅ (map_to_list schedule)) (stopId st)
              (arrival_of route trip st)) as (l & Hl & Hin).
    { apply unsorted_index_listed. by exists routeId, trips, route, trip, st. }
    exists (sort by_time l). split.
    + by rewrite lookup_fmap, Hl.
    + by apply sort_elem.
  - intros k arrivals a Hk Ha.
    rewrite lookup_fmap in Hk.
    destruct (foldl (add_route routes) ∅ (map_to_list schedule) !! k) as [l|] eqn:Hl; [|done].
    injection Hk as <-. rewrite sort_elem in Ha.
    assert (listed (foldl (add_route routes) ∅ (map_to_list schedule)) k a) as Hlisted
      by (by exists l).
    apply unsorted_index_listed in Hlisted
      as (routeId & trips & route & trip & st & Hs & Hr & Ht & Hst & -> & ->).
    apply find_route_Some in Hr as [Hin Hid].
    exists routeId, trips, trip, st. by repeat (split; [done|]).
  - intros Hok k arrivals Hk.
    rewrite lookup_fmap in Hk.
    destruct (foldl (add_route routes) ∅ (map_to_list schedule) !! k) as [l|] eqn:Hl; [|done].
    injection Hk as <-. apply sort_ascending, Forall_forall. intros a Ha.
    assert (listed (foldl (add_route routes) ∅ (map_to_list schedule)) k a) as Hlisted
      by (by exists l).
    apply unsorted_index_listed in Hlisted
      as (routeId & trips & route & trip & st & Hs & _ & Ht & Hst & _ & ->).
    unfold departures_ok in Hok. rewrite forallb_forall in Hok.
    apply elem_of_map_to_list, list_elem_of_In in Hs. specialize (Hok _ Hs). simpl in Hok.
    rewrite forallb_forall in Hok. apply list_elem_of_In in Ht. specialize (Hok _ Ht).
    rewrite forallb_forall in Hok. apply list_elem_of_In in Hst. specialize (Hok _ Hst).
    unfold parses in Hok. simpl. by destruct (timeToSeconds (departure st)).
Qed.

(** C2, as stated, fails on the sample feed when the routes table holds
    another route only: the trip list of route R1 has a trip with a
    stop-time at stop A, and the index has no list for stop A. *)
Lemma index_claim_fails :
  Sample.schedule !! "R1"%string = Some [Sample.trip1]
  /\ Sample.stA ∈ stops Sample.trip1
  /\ stopId Sample.stA = "A"%string
  /\ find_route [Demo.route2] "R1" = None
  /\ precalculateStopSchedules Sample.schedule [Demo.route2] Sample.calendar !! "A"%string
     = None.
Proof.
  split; [reflexivity|]. split; [apply list_elem_of_here|].
  split; [reflexivity|]. split; [reflexivity|]. vm_compute. reflexivity.
Qed.

(** On a feed with two trips, listed with the later one first, and a
    routes table in which route R1 comes second: the list of stop A holds
    the entries of both trips, with route R1, in ascending order. *)
Lemma precalculateStopSchedules_spec_witness :
  departures_ok Demo.schedule = true
  /\ (exists arrivals,
        precalculateStopSchedules Demo.schedule [Demo.route2; Sample.route1] Sample.calendar
          !! "A"%string = Some arrivals
        /\ Arrival.mk (Some 28800) Sample.route1 "T1" "WD" "Hospital" ∈ arrivals
        /\ Arrival.mk (Some 30600) Sample.route1 "T2" "WD" "Hospital" ∈ arrivals
        /\ ascending arrivals = true
        /\ forall a, a ∈ arrivals -> route_id (Arrival.route a) = "R1"%string).
Proof.
  split; [reflexivity|].
  pose proof (precalculateStopSchedules_spec Demo.schedule [Demo.route2; Sample.route1]
                Sample.calendar) as (Hin & Hsound & Hsorted).
  assert (forall j r, (j < 1)%nat -> [Demo.route2; Sample.route1] !! j = Some r ->
                      route_id r <> "R1"%string) as Hfirst.
  { intros j r Hj Hr. destruct j as [|j]; [|lia]. injection Hr as <-. discriminate. }
  destruct (Hin "R1"%string [Demo.trip2; Sample.trip1] 1%nat Sample.route1 Sample.trip1
              Sample.stA eq_refl eq_refl eq_refl Hfirst) as (arrivals & Hidx & Hmem1).
  { apply list_elem_of_further, list_elem_of_here. }
  { apply list_elem_of_here. }
  destruct (Hin "R1"%string [Demo.trip2; Sample.trip1] 1%nat Sample.route1 Demo.trip2
              Demo.stA2 eq_refl eq_refl eq_refl Hfirst) as (arrivals' & Hidx' & Hmem2).
  { apply list_elem_of_here. }
  { apply list_elem_of_here. }
  assert (Some arrivals' = Some arrivals) as [= ->]
    by (rewrite <- Hidx, <- Hidx'; reflexivity).
  exists arrivals. split; [exact Hidx|]. split; [exact Hmem1|]. split; [exact Hmem2|].
  split; [exact (Hsorted eq_refl "A"%string arrivals Hidx)|].
  intros a Ha.
  destruct (Hsound "A"%string arrivals a Hidx Ha)
    as (routeId & trips & trip & st & Hs & _ & _ & _ & _ & Hid & _).
  rewrite Hid. destruct (decide (routeId = "R1"%string)) as [->|Hne]; [done|].
  unfold Demo.schedule in Hs. by rewrite lookup_singleton_ne in Hs.
Defined.

(** ** Path interpolation *)

Lemma sq_dist_finite p stop : exists q, sq_dist p stop = Fin q.
Proof. unfold sq_dist. simpl. eauto. Qed.

Lemma closest_from_bounds pts stop : forall i minDesc idx,
  closest_from pts stop i minDesc idx = idx
  \/ i <= closest_from pts stop i minDesc idx < i + Z.of_nat (length pts).
Proof.
  induction pts as [|p pts IH]; intros i minDesc idx; [by left|].
  cbn [closest_from length]. rewrite Nat2Z.inj_succ.
  destruct (num_ltb (sq_dist p stop) minDesc).
  - right. destruct (IH (i + 1) (sq_dist p stop) i) as [E|?]; [rewrite E|]; lia.
  - destruct (IH (i + 1) minDesc idx) as [E|?]; [by left|right; lia].
Qed.

Lemma closest_from_found pts stop i idx :
  pts <> [] ->
  i <= closest_from pts stop i PInf idx < i + Z.of_nat (length pts).
Proof.
  destruct pts as [|p pts]; [done|]. intros _.
  cbn [closest_from length]. rewrite Nat2Z.inj_succ.
  destruct (sq_dist_finite p stop) as [q ->]. cbn [num_ltb].
  destruct (closest_from_bounds pts stop (i + 1) (Fin q) i) as [E|?]; [rewrite E|]; lia.
Qed.

Lemma findClosestPointIndex_from shape stop startIndex :
  0 <= startIndex < Z.of_nat (length shape) ->
  exists idx, findClosestPointIndex shape stop startIndex = Ret idx
              /\ startIndex <= idx < Z.of_nat (length shape).
Proof.
  intros H. unfold findClosestPointIndex.
  destruct (Z.ltb_spec startIndex 0); [lia|]. simpl.
  eexists. split; [done|].
  pose proof (closest_from_found (drop (Z.to_nat startIndex) shape) stop startIndex (-1)) as Hf.
  rewrite length_drop in Hf.
  assert (drop (Z.to_nat startIndex) shape <> []) as Hne.
  { intros E. apply (f_equal length) in E. rewrite length_drop in E. simpl in E. lia. }
  specialize (Hf Hne). lia.
Qed.

Section InterpolationFacts.
Variable Math : MathObject.

(** With the coordinates of the tables the interpolator never raises. *)
Lemma interpolatePositionOnShape_total shape stopFrom stopTo progress :
  exists pos, interpolatePositionOnShape Math shape stopFrom stopTo progress = Ret pos.
Proof.
  unfold interpolatePositionOnShape.
  destruct shape as [pts|]; [|eauto].
  destruct (Nat.ltb_spec (length pts) 2); [eauto|].
  destruct (findClosestPointIndex_from pts stopFrom 0) as (idx1 & -> & H1); [lia|].
  cbn [bind].
  destruct (findClosestPointIndex_from pts stopTo idx1) as (idx2 & -> & H2); [lia|].
  cbn [bind]. eauto.
Qed.

Lemma clamp_index_step len i : 0 <= len -> clamp_index len (i + 1) - clamp_index len i <= 1.
Proof.
  intros. unfold clamp_index.
  destruct (Z.ltb_spec (i + 1) 0), (Z.ltb_spec i 0); lia.
Qed.

Lemma slice_one {A} (l : list A) i : (length (slice l i (i + 1)) <= 1)%nat.
Proof.
  unfold slice. rewrite length_take.
  pose proof (clamp_index_step (Z.of_nat (length l)) i). lia.
Qed.

Lemma interpolate_between_short pts stopFrom idx1 idx2 progress :
  (length (slice pts idx1 (Z.max idx1 idx2 + 1)) < 2)%nat ->
  interpolate_between Math pts stopFrom idx1 idx2 progress = stop_position stopFrom.
Proof.
  unfold interpolate_between.
  assert ((if idx2 <? idx1 then idx1 else idx2) = Z.max idx1 idx2) as ->.
  { destruct (Z.ltb_spec idx2 idx1); lia. }
  destruct (slice pts idx1 (Z.max idx1 idx2 + 1)) as [|p [|p' path]]; simpl; [done..|lia].
Qed.

(** C5. [interpolatePositionOnShape] returns the coordinates of the
    from-stop when the shape is missing or has fewer than two points, and
    when the points between the two resolved indices, the to-index raised
    to the from-index if it is lower, are fewer than two; a to-index
    below the from-index is treated as the from-index, and then the
    result is again the coordinates of the from-stop. *)
Theorem interpolatePositionOnShape_fallback :
  (forall shape stopFrom stopTo progress,
      shape = None \/ (exists pts, shape = Some pts /\ (length pts < 2)%nat) ->
      interpolatePositionOnShape Math shape stopFrom stopTo progress
      = Ret (stop_position stopFrom))
  /\ (forall pts stopFrom stopTo progress idx1 idx2,
        findClosestPointIndex pts stopFrom 0 = Ret idx1 ->
        findClosestPointIndex pts stopTo idx1 = Ret idx2 ->
        (length (slice pts idx1 (Z.max idx1 idx2 + 1)) < 2)%nat ->
        interpolatePositionOnShape Math (Some pts) stopFrom stopTo progress
        = Ret (stop_position stopFrom))
  /\ (forall pts stopFrom idx1 idx2 progress,
        idx2 < idx1 ->
        interpolate_between Math pts stopFrom idx1 idx2 progress
        = interpolate_between Math pts stopFrom idx1 idx1 progress
        /\ interpolate_between Math pts stopFrom idx1 idx2 progress
           = stop_position stopFrom).
Proof.
  split; [|split].
  - intros shape stopFrom stopTo progress [->|(pts & -> & Hlen)]; [done|].
    unfold interpolatePositionOnShape.
    by destruct (Nat.ltb_spec (length pts) 2); [|lia].
  - intros pts stopFrom stopTo progress idx1 idx2 H1 H2 Hlen.
    unfold interpolatePositionOnShape.
    destruct (Nat.ltb_spec (length pts) 2); [done|].
    rewrite H1. simpl. rewrite H2. simpl. f_equal.
    by apply interpolate_between_short.
  - intros pts stopFrom idx1 idx2 progress Hlt.
    assert (forall j, j <= idx1 ->
              interpolate_between Math pts stopFrom idx1 j progress = stop_position stopFrom) as Hj.
    { intros j Hj. apply interpolate_between_short.
      replace (Z.max idx1 j) with idx1 by lia.
      pose proof (slice_one pts idx1). lia. }
    rewrite !Hj by lia. done.
Qed.
End InterpolationFacts.

Lemma interpolatePositionOnShape_fallback_witness :
  interpolatePositionOnShape Sample.Math (Some [(6125 # 1000, 102238 # 1000)%Q])
    Sample.C Sample.A (Fin (1 # 2))
  = Ret (stop_position Sample.C)
  /\ findClosestPointIndex Sample.shape1 Sample.C 0 = Ret 2
  /\ findClosestPointIndex Sample.shape1 Sample.A 2 = Ret 2
  /\ interpolatePositionOnShape Sample.Math (Some Sample.shape1) Sample.C Sample.A
       (Fin (1 # 2))
     = Ret (stop_position Sample.C)
  /\ interpolate_between Sample.Math Sample.shape1 Sample.C 2 0 (Fin (1 # 2))
     = stop_position Sample.C.
Proof.
  destruct (interpolatePositionOnShape_fallback Sample.Math) as (Hshort & Hone & Hclamp).
  split.
  { apply Hshort. right. eexists. split; [reflexivity|]. cbn. lia. }
  split; [reflexivity|]. split; [reflexivity|]. split.
  - apply (Hone Sample.shape1 Sample.C Sample.A (Fin (1 # 2)) 2 2);
      [reflexivity|reflexivity|].
    vm_compute. lia.
  - apply (Hclamp Sample.shape1 Sample.C 2 0 (Fin (1 # 2))). lia.
Defined.

(** *** The midpoint of a two-point shape *)

Lemma sq_dist_value p stop :
  sq_dist p stop
  = Fin ((fst p - lat stop) * (fst p - lat stop)
         + (snd p - lon stop) * (snd p - lon stop))%Q.
Proof. reflexivity. Qed.

Lemma Qsign_pos d : (0 < d)%Q -> (Qsign d =? 0) = false.
Proof.
  unfold Qlt, Qsign. cbn. intros H. apply Z.eqb_neq. lia.
Qed.

Lemma num_div_Fin x y : (0 < y)%Q -> num_div (Fin x) (Fin y) = Fin (x / y).
Proof. intros H. cbn [num_div]. by rewrite (Qsign_pos y H). Qed.

Lemma Qle_bool_false x y : (y < x)%Q -> Qle_bool x y = false.
Proof.
  intros H. destruct (Qle_bool x y) eqn:E; [|done].
  apply Qle_bool_iff in E. lra.
Qed.

Lemma Qle_bool_true x y : (x <= y)%Q -> Qle_bool x y = true.
Proof. apply Qle_bool_iff. Qed.

Lemma Qsquare_nonneg (x : Q) : (0 <= x * x)%Q.
Proof. unfold Qle, Qmult. cbn. nia. Qed.

Lemma sum_squares_pos (a b : Q) : ~ (a == 0 /\ b == 0)%Q -> (0 < a * a + b * b)%Q.
Proof.
  intros H. pose proof (Qsquare_nonneg a) as Ha. pose proof (Qsquare_nonneg b) as Hb.
  destruct (Qeq_dec a 0) as [Ea|Na].
  - destruct (Qeq_dec b 0) as [Eb|Nb]; [tauto|].
    assert (0 < b * b)%Q; [|lra].
    destruct (Qlt_le_dec 0 (b * b)) as [?|Hle]; [done|]. exfalso. apply Nb.
    assert (b * b == 0)%Q as E by lra. apply Qmult_integral in E. tauto.
  - assert (0 < a * a)%Q; [|lra].
    destruct (Qlt_le_dec 0 (a * a)) as [?|Hle]; [done|]. exfalso. apply Na.
    assert (a * a == 0)%Q as E by lra. apply Qmult_integral in E. tauto.
Qed.

Section Midpoint.
Variable Math : MathObject.

(** C6. In exact arithmetic, for two stops A and B of different
    coordinates whose distance, as [haversineDistance] computes it, is a
    positive number: on the shape made of the two points A and B, from A
    to B and at progress 1/2, the interpolator returns the point whose
    latitude and longitude are the averages of those of A and B. *)
Theorem interpolate_midpoint (A B : Stop) (d : Q) :
  ~ (lat A == lat B /\ lon A == lon B)%Q ->
  haversineDistance Math (lat A, lon A) (lat B, lon B) = Fin d -> (0 < d)%Q ->
  exists x y,
    interpolatePositionOnShape Math (Some [(lat A, lon A); (lat B, lon B)]) A B
      (Fin (1 # 2))
    = Ret (Fin x, Fin y)
    /\ (x == (lat A + lat B) / 2)%Q /\ (y == (lon A + lon B) / 2)%Q.
Proof.
  intros Hne Hd Hpos.
  set (pA := (lat A, lon A)). set (pB := (lat B, lon B)).
  assert (findClosestPointIndex [pA; pB] A 0 = Ret 0) as H1.
  { unfold findClosestPointIndex. cbn [Z.ltb Z.compare andb].
    change (drop (Z.to_nat 0) [pA; pB]) with [pA; pB]. cbn [closest_from].
    rewrite !sq_dist_value. cbn [num_ltb fst snd pA pB].
    rewrite Qle_bool_true; [done|].
    subst pA pB. cbn [fst snd].
    pose proof (Qsquare_nonneg (lat B + - lat A)). pose proof (Qsquare_nonneg (lon B + - lon A)).
    assert ((lat A + - lat A) * (lat A + - lat A)
            + (lon A + - lon A) * (lon A + - lon A) == 0)%Q as E by ring.
    rewrite E. lra. }
  assert (findClosestPointIndex [pA; pB] B 0 = Ret 1) as H2.
  { unfold findClosestPointIndex. cbn [Z.ltb Z.compare andb].
    change (drop (Z.to_nat 0) [pA; pB]) with [pA; pB]. cbn [closest_from].
    rewrite !sq_dist_value. cbn [num_ltb fst snd pA pB].
    rewrite Qle_bool_false; [done|].
    subst pA pB. cbn [fst snd].
    assert (0 < (lat A + - lat B) * (lat A + - lat B) + (lon A + - lon B) * (lon A + - lon B))%Q.
    { apply sum_squares_pos. intros [E1 E2]. apply Hne. split; lra. }
    assert ((lat B + - lat B) * (lat B + - lat B)
            + (lon B + - lon B) * (lon B + - lon B) == 0)%Q as E by ring.
    rewrite E. done. }
  unfold interpolatePositionOnShape. cbn [length Nat.ltb Nat.leb].
  rewrite H1. cbn [bind]. rewrite H2. cbn [bind].
  unfold interpolate_between. cbn [Z.ltb Z.compare].
  change (slice [pA; pB] 0 (1 + 1)) with [pA; pB].
  cbn [segment_lengths]. fold pA pB in Hd. rewrite Hd.
  unfold total_length. cbn [foldl walk List.last].
  change (num_add (of_Z 0) (Fin d)) with (Fin (0 + d)).
  change (num_mul (Fin (0 + d)) (Fin (1 # 2))) with (Fin ((0 + d) * (1 # 2))).
  change (num_sub (Fin ((0 + d) * (1 # 2))) (of_Z 0)) with (Fin ((0 + d) * (1 # 2) + - 0)).
  rewrite num_div_Fin by done.
  cbn [num_geb num_leb num_add num_mul num_sub num_neg].
  rewrite Qle_bool_true by lra.
  eexists _, _. split; [reflexivity|].
  subst pA pB. cbn [fst snd].
  split; field; lra.
Qed.
End Midpoint.

Lemma interpolate_midpoint_witness :
  exists x y,
    interpolatePositionOnShape Sample.Math
      (Some [(lat Sample.A, lon Sample.A); (lat Sample.B, lon Sample.B)])
      Sample.A Sample.B (Fin (1 # 2))
    = Ret (Fin x, Fin y)
    /\ (x == (lat Sample.A + lat Sample.B) / 2)%Q
    /\ (y == (lon Sample.A + lon Sample.B) / 2)%Q.
Proof.
  eapply (interpolate_midpoint Sample.Math Sample.A Sample.B).
  - intros [E _]. vm_compute in E. discriminate E.
  - vm_compute. reflexivity.
  - vm_compute. reflexivity.
Defined.

(** ** Stop-times in chronological order *)

Lemma chronological_tail s stops :
  chronological (s :: stops) = true -> chronological stops = true.
Proof. cbn [chronological]. by intros [_ ?]%andb_true_iff. Qed.

Lemma inum_leb_Some a b :
  inum_leb a b = true -> exists x y, a = Some x /\ b = Some y /\ x <= y.
Proof.
  destruct a as [x|], b as [y|]; simpl; try done.
  intros H%Z.leb_le. eauto.
Qed.

Lemma chronological_head s stops :
  chronological (s :: stops) = true ->
  exists a d, timeToSeconds (arrival s) = Some a
              /\ timeToSeconds (departure s) = Some d /\ a <= d.
Proof.
  cbn [chronological]. intros [[H _]%andb_true_iff _]%andb_true_iff.
  by apply inum_leb_Some in H.
Qed.

Lemma chronological_next s1 s2 stops :
  chronological (s1 :: s2 :: stops) = true ->
  exists d a, timeToSeconds (departure s1) = Some d
              /\ timeToSeconds (arrival s2) = Some a /\ d <= a.
Proof.
  cbn [chronological]. intros [[_ H]%andb_true_iff _]%andb_true_iff.
  by apply inum_leb_Some in H.
Qed.

(** Arrival times do not decrease along the list. *)
Lemma chronological_arrival_le stops : forall s0 j sj,
  chronological (s0 :: stops) = true -> (s0 :: stops) !! j = Some sj ->
  exists a0 aj, timeToSeconds (arrival s0) = Some a0
                /\ timeToSeconds (arrival sj) = Some aj /\ a0 <= aj.
Proof.
  induction stops as [|s1 stops IH]; intros s0 j sj Hc Hj.
  - destruct j; [|done]. injection Hj as <-.
    destruct (chronological_head _ _ Hc) as (a & d & Ha & _ & _).
    exists a, a. split; [done|]. split; [done|lia].
  - destruct (chronological_head _ _ Hc) as (a0 & d0 & Ha0 & Hd0 & Hle0).
    destruct j as [|j].
    + injection Hj as <-. exists a0, a0. split; [done|]. split; [done|lia].
    + destruct (chronological_next _ _ _ Hc) as (d0' & a1 & Hd0' & Ha1 & Hle1).
      destruct (IH s1 j sj (chronological_tail _ _ Hc) Hj) as (a1' & aj & Ha1' & Haj & Hle).
      exists a0, aj. split; [done|]. split; [done|].
      assert (d0' = d0) by congruence. assert (a1' = a1) by congruence. lia.
Qed.

Lemma chronological_arrival_mono stops : forall i j si sj,
  chronological stops = true -> (i <= j)%nat ->
  stops !! i = Some si -> stops !! j = Some sj ->
  exists ai aj, timeToSeconds (arrival si) = Some ai
                /\ timeToSeconds (arrival sj) = Some aj /\ ai <= aj.
Proof.
  induction stops as [|x stops IH]; intros i j si sj Hc Hij Hi Hj; [done|].
  destruct i as [|i].
  - injection Hi as <-. by apply (chronological_arrival_le stops x j).
  - destruct j as [|j]; [lia|].
    apply (IH i j); [by apply chronological_tail in Hc|lia|done..].
Qed.

Lemma chronological_dep_arr stops : forall i j si sj,
  chronological stops = true -> (i < j)%nat ->
  stops !! i = Some si -> stops !! j = Some sj ->
  exists d a, timeToSeconds (departure si) = Some d
              /\ timeToSeconds (arrival sj) = Some a /\ d <= a.
Proof.
  induction stops as [|x stops IH]; intros i j si sj Hc Hij Hi Hj; [done|].
  destruct j as [|j]; [lia|]. cbn in Hj.
  destruct i as [|i].
  - injection Hi as <-. destruct stops as [|y stops]; [done|].
    destruct (chronological_next _ _ _ Hc) as (d & a1 & Hd & Ha1 & Hle).
    destruct (chronological_arrival_le stops y j sj (chronological_tail _ _ Hc) Hj)
      as (a1' & a & Ha1' & Ha & Hle').
    exists d, a. split; [done|]. split; [done|].
    assert (a1' = a1) by congruence. lia.
  - apply (IH i j); [by apply chronological_tail in Hc|lia|done..].
Qed.

Lemma chronological_lookup stops i s :
  chronological stops = true -> stops !! i = Some s ->
  exists a d, timeToSeconds (arrival s) = Some a
              /\ timeToSeconds (departure s) = Some d /\ a <= d.
Proof.
  revert i. induction stops as [|x stops IH]; intros i Hc Hi; [done|].
  destruct i as [|i].
  - injection Hi as <-. by apply chronological_head in Hc.
  - apply (IH i); [by apply chronological_tail in Hc|done].
Qed.

(** ** The scan for the current segment *)

Lemma currentSegment_cons t s1 s2 rest :
  currentSegment t (s1 :: s2 :: rest) =
    if inum_geb (Some t) (timeToSeconds (departure s1))
       && inum_leb (Some t) (timeToSeconds (arrival s2))
    then
      Some (Moving s1 s2
              (num_div (of_inum (inum_sub (Some t) (timeToSeconds (departure s1))))
                 (of_inum (inum_sub (timeToSeconds (arrival s2))
                             (timeToSeconds (departure s1))))))
    else if inum_geb (Some t) (timeToSeconds (arrival s1))
            && inum_ltb (Some t) (timeToSeconds (departure s1))
    then Some (Dwelling s1)
    else currentSegment t (s2 :: rest).
Proof. reflexivity. Qed.

Lemma currentSegment_step t s1 s2 rest a1 d1 a2 :
  timeToSeconds (arrival s1) = Some a1 ->
  timeToSeconds (departure s1) = Some d1 ->
  timeToSeconds (arrival s2) = Some a2 ->
  currentSegment t (s1 :: s2 :: rest) =
    if (d1 <=? t) && (t <=? a2) then
      Some (Moving s1 s2 (num_div (of_Z (t - d1)) (of_Z (a2 - d1))))
    else if (a1 <=? t) && (t <? d1) then Some (Dwelling s1)
    else currentSegment t (s2 :: rest).
Proof. intros H1 H2 H3. cbn [currentSegment]. by rewrite H1, H2, H3. Qed.

Lemma currentSegment_moving stops : forall i s1 s2 d a t,
  chronological stops = true ->
  stops !! i = Some s1 -> stops !! S i = Some s2 ->
  timeToSeconds (departure s1) = Some d ->
  timeToSeconds (arrival s2) = Some a ->
  d <= t <= a ->
  (i = 0%nat \/ exists a1, timeToSeconds (arrival s1) = Some a1 /\ a1 < t) ->
  currentSegment t stops
  = Some (Moving s1 s2 (num_div (of_Z (t - d)) (of_Z (a - d)))).
Proof.
  induction stops as [|x1 stops IH]; intros i s1 s2 d a t Hc H1 H2 Hd Ha Ht Hi; [done|].
  destruct stops as [|x2 stops]; [by destruct i|].
  destruct (chronological_head _ _ Hc) as (ax & dx & Hax & Hdx & Hlex).
  destruct (chronological_next _ _ _ Hc) as (dx' & ax2 & Hdx' & Hax2 & Hle2).
  assert (dx' = dx) as -> by congruence.
  rewrite (currentSegment_step t x1 x2 stops ax dx ax2) by done.
  destruct i as [|i].
  - injection H1 as <-. injection H2 as <-.
    assert (d = dx) as -> by congruence. assert (a = ax2) as -> by congruence.
    by order_cases.
  - cbn in H1, H2. destruct Hi as [?|(a1 & Ha1 & Hlt)]; [done|].
    destruct (chronological_arrival_le stops x2 i s1 (chronological_tail _ _ Hc) H1)
      as (ax2' & a1' & Hax2' & Ha1' & Hle).
    assert (ax2' = ax2) as -> by congruence. assert (a1' = a1) as -> by congruence.
    order_cases.
    apply (IH i); try done; [by apply chronological_tail in Hc|].
    right. by exists a1.
Qed.

Lemma currentSegment_dwelling stops : forall i s a d t,
  chronological stops = true ->
  stops !! i = Some s -> (S i < length stops)%nat ->
  timeToSeconds (arrival s) = Some a ->
  timeToSeconds (departure s) = Some d ->
  a < t < d ->
  currentSegment t stops = Some (Dwelling s).
Proof.
  induction stops as [|x1 stops IH]; intros i s a d t Hc Hi Hlen Ha Hd Ht; [done|].
  destruct stops as [|x2 stops]; [cbn [length] in Hlen; lia|].
  destruct (chronological_head _ _ Hc) as (ax & dx & Hax & Hdx & Hlex).
  destruct (chronological_next _ _ _ Hc) as (dx' & ax2 & Hdx' & Hax2 & Hle2).
  assert (dx' = dx) as -> by congruence.
  rewrite (currentSegment_step t x1 x2 stops ax dx ax2) by done.
  destruct i as [|i].
  - injection Hi as <-.
    assert (a = ax) as -> by congruence. assert (d = dx) as -> by congruence.
    by order_cases.
  - cbn in Hi.
    destruct (chronological_arrival_le stops x2 i s (chronological_tail _ _ Hc) Hi)
      as (ax2' & a' & Hax2' & Ha' & Hle).
    assert (ax2' = ax2) as -> by congruence. assert (a' = a) as -> by congruence.
    order_cases.
    apply (IH i s a d); try done; [by apply chronological_tail in Hc|cbn [length] in *; lia].
Qed.

Lemma currentSegment_in t stops : forall seg,
  currentSegment t stops = Some seg ->
  match seg with
  | Moving s1 s2 _ => s1 ∈ stops /\ s2 ∈ stops
  | Dwelling s => s ∈ stops
  end.
Proof.
  induction stops as [|x1 stops IH]; intros seg; [done|].
  destruct stops as [|x2 stops]; [done|].
  cbn [currentSegment].
  destruct (_ && _).
  - intros [= <-]. split; [apply elem_of_cons; by left|].
    apply elem_of_cons; right. apply elem_of_cons; by left.
  - destruct (_ && _).
    + intros [= <-]. apply elem_of_cons; by left.
    + intros H. specialize (IH _ H). destruct seg as [s1 s2 p|s].
      * destruct IH. split; apply elem_of_cons; by right.
      * apply elem_of_cons; by right.
Qed.

(** A moving segment found by the scan is a pair of consecutive
    stop-times, and the time lies between the departure from the first
    and the arrival at the second. *)
Lemma currentSegment_Moving_inv t stops : forall s1 s2 p,
  currentSegment t stops = Some (Moving s1 s2 p) ->
  exists i d a,
    stops !! i = Some s1 /\ stops !! S i = Some s2
    /\ timeToSeconds (departure s1) = Some d
    /\ timeToSeconds (arrival s2) = Some a
    /\ d <= t <= a
    /\ p = num_div (of_Z (t - d)) (of_Z (a - d)).
Proof.
  induction stops as [|x1 stops IH]; intros s1 s2 p; [done|].
  destruct stops as [|x2 stops]; [done|].
  rewrite currentSegment_cons.
  destruct (inum_geb (Some t) (timeToSeconds (departure x1))
            && inum_leb (Some t) (timeToSeconds (arrival x2))) eqn:C1.
  - intros [= <- <- <-]. apply andb_true_iff in C1 as [G1 G2].
    unfold inum_geb in G1.
    apply inum_leb_Some in G1 as (d & t' & Hd & [= <-] & Hdt).
    apply inum_leb_Some in G2 as (t' & a & [= <-] & Ha & Hta).
    exists 0%nat, d, a. rewrite Hd, Ha. by repeat (split; [done|]).
  - destruct (inum_geb (Some t) (timeToSeconds (arrival x1))
              && inum_ltb (Some t) (timeToSeconds (departure x1))); [done|].
    intros H. destruct (IH _ _ _ H) as (i & d & a & ? & ? & ? & ? & ? & ?).
    by exists (S i), d, a.
Qed.

Lemma last_default {A} (l : list A) d d' : l <> [] -> List.last l d = List.last l d'.
Proof.
  induction l as [|x l IH]; [done|]. intros _.
  destruct l as [|y l]; [done|]. cbn [List.last] in *. by apply IH.
Qed.

Lemma times_ok_cons s stops :
  times_ok (s :: stops) = true ->
  (exists a d, timeToSeconds (arrival s) = Some a /\ timeToSeconds (departure s) = Some d)
  /\ times_ok stops = true.
Proof.
  unfold times_ok, parses. cbn [forallb].
  intros [[Ha Hd]%andb_true_iff Hr]%andb_true_iff. split; [|done].
  destruct (timeToSeconds (arrival s)) as [a|]; [|done].
  destruct (timeToSeconds (departure s)) as [d|]; [|done]. eauto.
Qed.

(** Between the first departure and the last arrival some segment is
    always found: every instant there belongs to a leg or to a dwell. *)
Lemma currentSegment_covers stops : forall s1 s2 rest t a1 d1 aN,
  stops = s1 :: s2 :: rest ->
  times_ok stops = true ->
  timeToSeconds (arrival s1) = Some a1 ->
  timeToSeconds (departure s1) = Some d1 ->
  timeToSeconds (arrival (List.last stops s1)) = Some aN ->
  (a1 <= t \/ d1 <= t) -> t <= aN ->
  exists seg, currentSegment t stops = Some seg.
Proof.
  induction stops as [|x stops IH]; intros s1 s2 rest t a1 d1 aN E Hok Ha1 Hd1 HaN Hlo Hhi; [done|].
  injection E as -> ->.
  apply times_ok_cons in Hok as [_ Hok].
  pose proof Hok as Hok2. apply times_ok_cons in Hok2 as [(a2 & d2 & Ha2 & Hd2) _].
  rewrite (currentSegment_step t s1 s2 rest a1 d1 a2) by done.
  destruct ((d1 <=? t) && (t <=? a2)) eqn:C1; [eauto|].
  destruct ((a1 <=? t) && (t <? d1)) eqn:C2; [eauto|].
  assert (a2 < t) as Hlt.
  { apply andb_false_iff in C1, C2. rewrite Z.leb_gt in C1, C2. rewrite Z.ltb_ge in C2.
    rewrite Z.leb_gt in C1. lia. }
  destruct rest as [|s3 rest].
  - cbn in HaN. assert (aN = a2) by congruence. lia.
  - apply (IH s2 s3 rest t a2 d2 aN); try done; [|lia].
    rewrite <- HaN. do 2 f_equal.
    change (List.last (s1 :: s2 :: s3 :: rest) s1) with (List.last (s2 :: s3 :: rest) s1).
    by apply last_default.
Qed.

(** ** The simulation engine *)

Lemma last_lookup_default {A} (l : list A) d x : last l = Some x -> List.last l d = x.
Proof.
  induction l as [|y l IH]; [done|]. destruct l as [|z l].
  - by intros [= ->].
  - intros H. change (List.last (y :: z :: l) d) with (List.last (z :: l) d). by apply IH.
Qed.

Lemma trips_nonempty_lookup (schedule : gmap string (list Trip)) routeId trips trip :
  trips_nonempty schedule = true ->
  schedule !! routeId = Some trips -> trip ∈ trips -> stops trip <> [].
Proof.
  unfold trips_nonempty. rewrite forallb_forall. intros H Hs Ht.
  apply elem_of_map_to_list, list_elem_of_In in Hs. specialize (H _ Hs). cbn in H.
  rewrite forallb_forall in H. apply list_elem_of_In in Ht. specialize (H _ Ht).
  by destruct (stops trip).
Qed.

Lemma stops_resolve_lookup data trip s :
  stops_resolve data trip = true -> s ∈ stops trip ->
  exists stop, Data.stops data !! stopId s = Some stop.
Proof.
  unfold stops_resolve. rewrite forallb_forall. intros H Hs.
  apply list_elem_of_In in Hs. specialize (H _ Hs).
  by apply bool_decide_eq_true in H as [stop ?]; exists stop.
Qed.

Lemma progress_one d a :
  d < a -> exists q, num_div (of_Z (a - d)) (of_Z (a - d)) = Fin q /\ (q == 1)%Q.
Proof.
  intros H. unfold num_div, of_Z, Qsign. cbn [inject_Z Qnum].
  destruct (Z.eqb_spec (Z.sgn (a - d)) 0) as [E|_]; [lia|].
  eexists. split; [done|]. apply Qmult_inv_r.
  unfold Qeq. cbn. lia.
Qed.

Section Engine.
Variable Math : MathObject.

Lemma segment_position_total data trip seg :
  exists o, segment_position Math data trip seg = Ret o.
Proof.
  destruct seg as [s1 s2 p|s]; cbn [segment_position].
  - destruct (Data.stops data !! stopId s1) as [stop1|]; [|eauto].
    destruct (Data.stops data !! stopId s2) as [stop2|]; [|eauto].
    destruct (interpolatePositionOnShape_total Math (Data.shapes data !! shapeId trip) stop1 stop2 p) as [pos ->].
    cbn. eauto.
  - destruct (Data.stops data !! stopId s); eauto.
Qed.

Lemma segment_position_resolved data trip seg pos :
  segment_position Math data trip seg = Ret (Some pos) ->
  match seg with
  | Dwelling s =>
      exists stop, Data.stops data !! stopId s = Some stop /\ pos = stop_position stop
  | Moving s1 s2 progress =>
      exists stop1 stop2,
        Data.stops data !! stopId s1 = Some stop1
        /\ Data.stops data !! stopId s2 = Some stop2
        /\ interpolatePositionOnShape Math (Data.shapes data !! shapeId trip) stop1 stop2 progress
           = Ret pos
  end.
Proof.
  destruct seg as [s1 s2 p|s]; cbn [segment_position].
  - destruct (Data.stops data !! stopId s1) as [stop1|]; [|done].
    destruct (Data.stops data !! stopId s2) as [stop2|]; [|done].
    destruct (interpolatePositionOnShape _ _ _ _ _) as [|pos'] eqn:E; [done|].
    cbn. intros [= ->]. by exists stop1, stop2.
  - destruct (Data.stops data !! stopId s) as [stop|]; [|done].
    intros [= <-]. by exists stop.
Qed.

Lemma evalTrip_no_throw data now t routeId trip :
  stops trip <> [] -> evalTrip Math data now t routeId trip <> Throw.
Proof.
  intros Hne. unfold evalTrip.
  destruct (negb _); [done|].
  destruct (stops trip) as [|s0 rest] eqn:E; [done|].
  destruct (_ && _); [|done].
  destruct (currentSegment t (s0 :: rest)) as [seg|]; [|done].
  destruct (segment_position_total data trip seg) as [o Ho].
  rewrite Ho. by destruct o.
Qed.

(** What it takes for a trip to be pushed. *)
Lemma evalTrip_Push data now t routeId trip v :
  evalTrip Math data now t routeId trip = Push v ->
  isServiceActive (serviceId trip) (Data.calendar data) now = true
  /\ exists s0 seg,
       head (stops trip) = Some s0
       /\ inum_geb (Some t) (timeToSeconds (departure s0)) = true
       /\ inum_leb (Some t) (timeToSeconds (arrival (List.last (stops trip) s0))) = true
       /\ currentSegment t (stops trip) = Some seg
       /\ segment_position Math data trip seg = Ret (Some (vehicle_position v))
       /\ v = mkVehicle trip (find_route (Data.routes data) routeId)
                (vehicle_position v) (segment_type seg).
Proof.
  unfold evalTrip.
  destruct (isServiceActive _ _ _); [|done]. cbn [negb].
  destruct (stops trip) as [|s0 rest] eqn:E; [done|].
  destruct (inum_geb _ _) eqn:G1; [|done].
  destruct (inum_leb _ _) eqn:G2; [|done]. cbn [andb].
  destruct (currentSegment t (s0 :: rest)) as [seg|] eqn:Hseg; [|done].
  destruct (segment_position _ _ _ _) as [|[pos|]] eqn:Hpos; try done.
  intros [= <-]. split; [done|]. exists s0, seg. cbn [vehicle_position head].
  repeat (split; [done|]). done.
Qed.

(** The same, the other way round. *)
Lemma evalTrip_intro data now t routeId trip s0 seg pos :
  isServiceActive (serviceId trip) (Data.calendar data) now = true ->
  head (stops trip) = Some s0 ->
  inum_geb (Some t) (timeToSeconds (departure s0)) = true ->
  inum_leb (Some t) (timeToSeconds (arrival (List.last (stops trip) s0))) = true ->
  currentSegment t (stops trip) = Some seg ->
  segment_position Math data trip seg = Ret (Some pos) ->
  evalTrip Math data now t routeId trip
  = Push (mkVehicle trip (find_route (Data.routes data) routeId) pos (segment_type seg)).
Proof.
  intros Hact Hhd G1 G2 Hseg Hpos. unfold evalTrip.
  rewrite Hact. cbn [negb].
  destruct (stops trip) as [|s0' rest] eqn:E; [done|].
  injection Hhd as ->. rewrite G1, G2. cbn [andb]. by rewrite Hseg, Hpos.
Qed.

Lemma foldl_run_trip data now t routeId trips : forall acc,
  (forall trip, trip ∈ trips -> evalTrip Math data now t routeId trip <> Throw) ->
  exists l,
    foldl (run_trip Math data now t routeId) (Ret acc) trips = Ret (acc ++ l)
    /\ forall v, v ∈ l <->
         exists trip, trip ∈ trips /\ evalTrip Math data now t routeId trip = Push v.
Proof.
  induction trips as [|trip trips IH]; intros acc Hok.
  - exists []. split; [by rewrite app_nil_r|].
    intros v. split; [by intros ?%elem_of_nil|]. by intros (? & ?%elem_of_nil & _).
  - cbn [foldl]. unfold run_trip at 2. cbn [bind].
    assert (forall trip', trip' ∈ trips -> evalTrip Math data now t routeId trip' <> Throw) as Hok'.
    { intros trip' H. apply Hok, elem_of_cons. by right. }
    assert (evalTrip Math data now t routeId trip <> Throw) as Hhd.
    { apply Hok, elem_of_cons. by left. }
    destruct (evalTrip Math data now t routeId trip) as [| |v0] eqn:E; [done| |].
    + destruct (IH acc Hok') as (l & -> & Hl). exists l. split; [done|].
      intros v. rewrite Hl. split.
      * intros (trip' & H & ?). exists trip'. split; [apply elem_of_cons; by right|done].
      * intros (trip' & [->|H]%elem_of_cons & H'); [congruence|]. by exists trip'.
    + destruct (IH (acc ++ [v0]) Hok') as (l & -> & Hl). exists (v0 :: l).
      split; [by rewrite <- app_assoc|].
      intros v. rewrite elem_of_cons, Hl. split.
      * intros [->|(trip' & H & ?)].
        -- exists trip. split; [apply elem_of_cons; by left|done].
        -- exists trip'. split; [apply elem_of_cons; by right|done].
      * intros (trip' & [->|H]%elem_of_cons & H'); [left; congruence|]. right. by exists trip'.
Qed.

Lemma foldl_run_route data now t (entries : list (string * list Trip)) : forall acc,
  (forall routeId trips trip,
      (routeId, trips) ∈ entries -> trip ∈ trips ->
      evalTrip Math data now t routeId trip <> Throw) ->
  exists l,
    foldl (run_route Math data now t) (Ret acc) entries = Ret (acc ++ l)
    /\ forall v, v ∈ l <->
         exists routeId trips trip,
           (routeId, trips) ∈ entries /\ trip ∈ trips
           /\ evalTrip Math data now t routeId trip = Push v.
Proof.
  induction entries as [|[routeId trips] entries IH]; intros acc Hok.
  - exists []. split; [by rewrite app_nil_r|].
    intros v. split; [by intros ?%elem_of_nil|]. by intros (? & ? & ? & ?%elem_of_nil & _).
  - cbn [foldl]. unfold run_route at 2. cbn [fst snd].
    destruct (foldl_run_trip data now t routeId trips acc) as (l1 & -> & Hl1).
    { intros trip H. apply (Hok routeId trips); [apply elem_of_cons; by left|done]. }
    destruct (IH (acc ++ l1)) as (l2 & -> & Hl2).
    { intros r ts trip H. apply Hok, elem_of_cons. by right. }
    exists (l1 ++ l2). split; [by rewrite <- app_assoc|].
    intros v. rewrite elem_of_app, Hl1, Hl2. split.
    + intros [(trip & H & ?)|(r & ts & trip & H & ? & ?)].
      * exists routeId, trips, trip. split; [apply elem_of_cons; by left|done].
      * exists r, ts, trip. split; [apply elem_of_cons; by right|done].
    + intros (r & ts & trip & [[= -> ->]|H]%elem_of_cons & ? & ?).
      * left. by exists trip.
      * right. by exists r, ts, trip.
Qed.

(** With no empty trip in the table the engine returns, and its result
    holds exactly the vehicles pushed for the trips of the table. *)
Lemma activeTrips_returns data now t :
  trips_nonempty (Data.schedule data) = true ->
  exists active,
    activeTrips Math (Some data) now t = Ret active
    /\ forall v, v ∈ active <->
         exists routeId trips trip,
           Data.schedule data !! routeId = Some trips /\ trip ∈ trips
           /\ evalTrip Math data now t routeId trip = Push v.
Proof.
  intros Hne. unfold activeTrips.
  destruct (foldl_run_route data now t (map_to_list (Data.schedule data)) [])
    as (l & -> & Hl).
  { intros routeId trips trip Hs Ht. apply evalTrip_no_throw.
    apply elem_of_map_to_list in Hs. by eapply trips_nonempty_lookup. }
  exists l. split; [done|]. intros v. rewrite Hl.
  split; intros (r & ts & trip & H & ?); exists r, ts, trip;
    (split; [by apply elem_of_map_to_list|done]).
Qed.
End Engine.

Lemma last_index {A} (l : list A) x :
  last l = Some x -> exists n, length l = S n /\ l !! n = Some x.
Proof.
  rewrite last_lookup. destruct l as [|y l]; [done|].
  intros H. exists (length l). split; [done|]. exact H.
Qed.

Lemma head_lookup0 {A} (l : list A) x : head l = Some x -> l !! 0%nat = Some x.
Proof. by destruct l. Qed.

Section EngineProperties.
Variable Math : MathObject.

(** The window of a chronological trip is open at every instant between
    the arrival at any stop but the first and the departure from any
    stop but the last. *)
Lemma window_open (trip : Trip) s0 t :
  chronological (stops trip) = true ->
  head (stops trip) = Some s0 ->
  (exists i s a, (0 < i)%nat /\ stops trip !! i = Some s
                 /\ timeToSeconds (arrival s) = Some a /\ a <= t) ->
  (exists j s b, stops trip !! j = Some s /\ timeToSeconds (arrival s) = Some b /\ t <= b) ->
  inum_geb (Some t) (timeToSeconds (departure s0)) = true
  /\ inum_leb (Some t) (timeToSeconds (arrival (List.last (stops trip) s0))) = true.
Proof.
  intros Hc Hhd (i & s & a & Hi & Hs & Ha & Hat) (j & s' & b & Hs' & Hb & Htb).
  apply head_lookup0 in Hhd as H0. split.
  - destruct (chronological_dep_arr _ 0%nat i s0 s Hc Hi H0 Hs) as (d0 & a' & Hd0 & Ha' & Hle).
    rewrite Hd0. cbn. apply Z.leb_le. assert (a' = a) by congruence. lia.
  - destruct (last (stops trip)) as [sN|] eqn:HN.
    2:{ apply last_None in HN. by rewrite HN in Hs'. }
    rewrite (last_lookup_default _ s0 sN HN).
    destruct (last_index _ _ HN) as (n & Hlen & Hn).
    assert (j <= n)%nat as Hjn.
    { apply lookup_lt_Some in Hs'. lia. }
    destruct (chronological_arrival_mono _ j n s' sN Hc Hjn Hs' Hn) as (b' & aN & Hb' & HaN & Hle).
    rewrite HaN. cbn. apply Z.leb_le. assert (b' = b) by congruence. lia.
Qed.

(** C1 (amended). A trip whose service is active today and whose
    stop-times are in chronological order is in the active set, with
    status [dwelling] and at the coordinates of stop [i], at every time
    strictly between the arrival at and the departure from an
    intermediate stop [i] that the stops table resolves. *)
Theorem activeTrips_dwelling data now t routeId trips trip i s stop a d :
  trips_nonempty (Data.schedule data) = true ->
  Data.schedule data !! routeId = Some trips -> trip ∈ trips ->
  isServiceActive (serviceId trip) (Data.calendar data) now = true ->
  chronological (stops trip) = true ->
  stops trip !! i = Some s -> (0 < i)%nat -> (S i < length (stops trip))%nat ->
  Data.stops data !! stopId s = Some stop ->
  timeToSeconds (arrival s) = Some a ->
  timeToSeconds (departure s) = Some d ->
  a < t < d ->
  exists active,
    activeTrips Math (Some data) now t = Ret active
    /\ mkVehicle trip (find_route (Data.routes data) routeId) (stop_position stop)
         dwelling ∈ active.
Proof.
  intros Hne Hsched Htrip Hact Hc Hs Hi Hlen Hstop Ha Hd Ht.
  destruct (activeTrips_returns Math data now t Hne)
    as (active & Hret & Hactive).
  exists active. split; [done|]. apply Hactive. exists routeId, trips, trip.
  split; [done|]. split; [done|].
  destruct (stops trip) as [|s0 rest] eqn:E; [done|]. rewrite <- E in *.
  assert (head (stops trip) = Some s0) as Hhd by (by rewrite E).
  destruct (lookup_lt_is_Some_2 (stops trip) (S i) Hlen) as [s' Hs'].
  destruct (chronological_dep_arr _ i (S i) s s' Hc ltac:(lia) Hs Hs') as (d' & a' & Hd' & Ha' & Hle).
  assert (d' = d) as -> by congruence.
  destruct (window_open trip s0 t Hc Hhd) as [G1 G2].
  { exists i, s, a. repeat split; try done. lia. }
  { exists (S i), s', a'. repeat split; try done. lia. }
  apply (evalTrip_intro Math data now t routeId trip s0 (Dwelling s)); try done.
  - by apply (currentSegment_dwelling _ i s a d).
  - cbn. by rewrite Hstop.
Qed.

(** C4. A trip is out of the active set at every time outside
    [[firstStopDeparture, lastStopArrival]].  Inside that interval a trip
    of at least two stop-times, with numeric times and stops that the
    table resolves, is in the set, moving or dwelling.  So a trip that
    leaves its first stop at 28800 and reaches its last at 29400 is out at
    28500 and at 29700, and in at 29000. *)
Theorem activeTrips_window data now routeId trips trip s0 sN a b :
  trips_nonempty (Data.schedule data) = true ->
  Data.schedule data !! routeId = Some trips -> trip ∈ trips ->
  head (stops trip) = Some s0 -> last (stops trip) = Some sN ->
  timeToSeconds (departure s0) = Some a ->
  timeToSeconds (arrival sN) = Some b ->
  let excluded t :=
    exists active,
      activeTrips Math (Some data) now t = Ret active
      /\ forall v, v ∈ active -> vehicle_trip v <> trip in
  let included t :=
    isServiceActive (serviceId trip) (Data.calendar data) now = true ->
    (2 <= length (stops trip))%nat ->
    times_ok (stops trip) = true ->
    stops_resolve data trip = true ->
    exists active v,
      activeTrips Math (Some data) now t = Ret active
      /\ v ∈ active /\ vehicle_trip v = trip
      /\ (status v = moving \/ status v = dwelling) in
  (forall t, t < a \/ b < t -> excluded t)
  /\ (forall t, a <= t <= b -> included t)
  /\ (a = 28800 -> b = 29400 ->
      excluded 28500 /\ excluded 29700 /\ included 29000).
Proof.
  intros Hne Hsched Htrip Hhd Hlast Ha Hb excluded included.
  assert (forall t, t < a \/ b < t -> excluded t) as Hout.
  { intros t Ht.
    destruct (activeTrips_returns Math data now t Hne)
      as (active & Hret & Hactive).
    exists active. split; [done|]. intros v Hv Heq.
    apply Hactive in Hv as (r & ts & trip' & _ & _ & Hpush).
    apply evalTrip_Push in Hpush as (_ & s0' & seg & Hhd' & G1 & G2 & _ & _ & Hv).
    assert (trip' = trip) as -> by (rewrite Hv in Heq; exact Heq).
    assert (s0' = s0) as -> by congruence.
    rewrite (last_lookup_default _ s0 sN Hlast), Hb in G2.
    unfold inum_geb in G1. rewrite Ha in G1. cbn in G1, G2.
    apply Z.leb_le in G1, G2. lia. }
  assert (forall t, a <= t <= b -> included t) as Hin.
  { intros t Ht Hact Hlen Hok Hres.
    destruct (activeTrips_returns Math data now t Hne)
      as (active & Hret & Hactive).
    destruct (stops trip) as [|x1 [|x2 rest]] eqn:E; cbn in Hlen; try lia.
    rewrite <- E in *. assert (x1 = s0) as -> by (rewrite E in Hhd; by injection Hhd).
    pose proof Hok as Hok'. rewrite E in Hok'.
    apply times_ok_cons in Hok' as [(a1 & d1 & Ha1 & Hd1) _].
    assert (d1 = a) as -> by congruence.
    destruct (currentSegment_covers (stops trip) s0 x2 rest t a1 a b E Hok Ha1 Hd1)
      as [seg Hseg]; [by rewrite (last_lookup_default _ s0 sN Hlast)|right; lia|lia|].
    assert (exists pos, segment_position Math data trip seg = Ret (Some pos)) as [pos Hpos].
    { pose proof (currentSegment_in _ _ _ Hseg) as Hmem.
      destruct seg as [s1 s2 p|s]; cbn [segment_position].
      - destruct Hmem as [M1 M2].
        destruct (stops_resolve_lookup _ _ _ Hres M1) as [stop1 ->].
        destruct (stops_resolve_lookup _ _ _ Hres M2) as [stop2 ->].
        destruct (interpolatePositionOnShape_total Math (Data.shapes data !! shapeId trip) stop1 stop2 p) as [pos ->].
        cbn. eauto.
      - destruct (stops_resolve_lookup _ _ _ Hres Hmem) as [stop ->]. eauto. }
    exists active, (mkVehicle trip (find_route (Data.routes data) routeId) pos (segment_type seg)).
    split; [done|]. split.
    - apply Hactive. exists routeId, trips, trip. split; [done|]. split; [done|].
      apply (evalTrip_intro Math data now t routeId trip s0 seg pos); try done.
      + unfold inum_geb. rewrite Ha. cbn. apply Z.leb_le. lia.
      + rewrite (last_lookup_default _ s0 sN Hlast), Hb. cbn. apply Z.leb_le. lia.
    - split; [done|]. destruct seg; cbn; auto. }
  split; [exact Hout|]. split; [exact Hin|].
  intros -> ->. split; [apply Hout; lia|]. split; [apply Hout; lia|apply Hin; lia].
Qed.

(** C9. When the scan places an active trip in a moving segment, a pair
    of consecutive stop-times with the time between the departure from
    the first and the arrival at the second, and the stops table lacks
    one of the two stops, the trip is skipped, without any error, and is
    not in the active set; and every vehicle of the active set has a
    position that comes from stops found in the table. *)
Theorem activeTrips_unresolved data now t routeId trips trip from to progress :
  trips_nonempty (Data.schedule data) = true ->
  Data.schedule data !! routeId = Some trips -> trip ∈ trips ->
  isServiceActive (serviceId trip) (Data.calendar data) now = true ->
  currentSegment t (stops trip) = Some (Moving from to progress) ->
  Data.stops data !! stopId from = None \/ Data.stops data !! stopId to = None ->
  (exists i d a,
      stops trip !! i = Some from /\ stops trip !! S i = Some to
      /\ timeToSeconds (departure from) = Some d
      /\ timeToSeconds (arrival to) = Some a
      /\ d <= t <= a)
  /\ evalTrip Math data now t routeId trip = Skip
  /\ exists active,
       activeTrips Math (Some data) now t = Ret active
       /\ (forall v, v ∈ active -> vehicle_trip v <> trip)
       /\ (forall v, v ∈ active -> resolved Math data v).
Proof.
  intros Hne Hsched Htrip Hact Hseg Hun.
  assert (segment_position Math data trip (Moving from to progress) = Ret None) as Hpos.
  { cbn [segment_position].
    destruct Hun as [-> | ->]; [done|]. by destruct (Data.stops data !! stopId from). }
  split.
  { destruct (currentSegment_Moving_inv _ _ _ _ _ Hseg) as (i & d & a & ? & ? & ? & ? & ? & _).
    by exists i, d, a. }
  split.
  - unfold evalTrip. rewrite Hact. cbn [negb].
    destruct (stops trip) as [|s0 rest] eqn:E; [done|].
    destruct (_ && _); [|done]. by rewrite Hseg, Hpos.
  - destruct (activeTrips_returns Math data now t Hne)
      as (active & Hret & Hactive).
    exists active. split; [done|]. split.
    + intros v Hv Heq.
      apply Hactive in Hv as (r & ts & trip' & _ & _ & Hpush).
      apply evalTrip_Push in Hpush as (_ & s0' & seg & _ & _ & _ & Hseg' & Hpos' & Hv).
      assert (trip' = trip) as -> by (rewrite Hv in Heq; exact Heq).
      assert (seg = Moving from to progress) as -> by congruence.
      congruence.
    + intros v Hv.
      apply Hactive in Hv as (r & ts & trip' & _ & _ & Hpush).
      apply evalTrip_Push in Hpush as (_ & s0' & seg & _ & _ & _ & Hseg' & Hpos' & Hv).
      assert (vehicle_trip v = trip') as Htv by (by rewrite Hv).
      assert (status v = segment_type seg) as Hst by (by rewrite Hv).
      apply segment_position_resolved in Hpos'.
      apply currentSegment_in in Hseg'. unfold resolved. rewrite Htv, Hst.
      destruct seg as [s1 s2 p|s]; cbn [segment_type].
      * right. split; [done|]. destruct Hpos' as (stop1 & stop2 & ? & ? & ?).
        destruct Hseg'. by exists s1, s2, stop1, stop2, p.
      * left. split; [done|]. destruct Hpos' as (stop & ? & ?). by exists s, stop.
Qed.

(** C10. For an active trip with chronological stop-times, at the very
    time of arrival at stop [i+1], later than the departure from stop
    [i]: the dwell test of stop [i+1] holds when the stop has a dwell,
    yet the scan reports the leg from [i] to [i+1] as moving with a
    progress fraction equal to 1; every vehicle shown for the trip is
    moving; and the trip is shown when the table resolves both stops. *)
Theorem activeTrips_arrival_instant data now routeId trips trip i s1 s2 d a d2 :
  trips_nonempty (Data.schedule data) = true ->
  Data.schedule data !! routeId = Some trips -> trip ∈ trips ->
  isServiceActive (serviceId trip) (Data.calendar data) now = true ->
  chronological (stops trip) = true ->
  stops trip !! i = Some s1 -> stops trip !! S i = Some s2 ->
  timeToSeconds (departure s1) = Some d ->
  timeToSeconds (arrival s2) = Some a ->
  timeToSeconds (departure s2) = Some d2 ->
  d < a -> a < d2 ->
  inum_geb (Some a) (timeToSeconds (arrival s2))
    && inum_ltb (Some a) (timeToSeconds (departure s2)) = true
  /\ exists progress q,
       currentSegment a (stops trip) = Some (Moving s1 s2 progress)
       /\ progress = Fin q /\ (q == 1)%Q
       /\ exists active,
            activeTrips Math (Some data) now a = Ret active
            /\ (forall v, v ∈ active -> vehicle_trip v = trip -> status v = moving)
            /\ (forall stop1 stop2,
                  Data.stops data !! stopId s1 = Some stop1 ->
                  Data.stops data !! stopId s2 = Some stop2 ->
                  exists v,
                    v ∈ active /\ vehicle_trip v = trip /\ status v = moving
                    /\ interpolatePositionOnShape Math (Data.shapes data !! shapeId trip)
                         stop1 stop2 progress
                       = Ret (vehicle_position v)).
Proof.
  intros Hne Hsched Htrip Hact Hc H1 H2 Hd Ha Hd2 Hda Had2.
  split.
  { unfold inum_geb. rewrite Ha, Hd2. cbn. apply andb_true_iff.
    split; [apply Z.leb_le|apply Z.ltb_lt]; lia. }
  destruct (progress_one d a Hda) as (q & Hq & Hq1).
  exists (num_div (of_Z (a - d)) (of_Z (a - d))), q.
  assert (currentSegment a (stops trip)
          = Some (Moving s1 s2 (num_div (of_Z (a - d)) (of_Z (a - d))))) as Hseg.
  { apply (currentSegment_moving _ i); try done; [lia|].
    destruct (chronological_lookup _ _ _ Hc H1) as (a1 & d' & Ha1 & Hd' & Hle).
    right. exists a1. split; [done|]. assert (d' = d) by congruence. lia. }
  split; [done|]. split; [done|]. split; [done|].
  destruct (activeTrips_returns Math data now a Hne)
    as (active & Hret & Hactive).
  exists active. split; [done|]. split.
  - intros v Hv Heq.
    apply Hactive in Hv as (r & ts & trip' & _ & _ & Hpush).
    apply evalTrip_Push in Hpush as (_ & s0' & seg & _ & _ & _ & Hseg' & _ & Hv).
    assert (trip' = trip) as -> by (rewrite Hv in Heq; exact Heq).
    assert (seg = Moving s1 s2 (num_div (of_Z (a - d)) (of_Z (a - d)))) as -> by congruence.
    by rewrite Hv.
  - intros stop1 stop2 Hs1 Hs2.
    destruct (interpolatePositionOnShape_total Math (Data.shapes data !! shapeId trip) stop1 stop2
                (num_div (of_Z (a - d)) (of_Z (a - d)))) as [pos Hpos].
    exists (mkVehicle trip (find_route (Data.routes data) routeId) pos moving).
    split; [|done].
    apply Hactive. exists routeId, trips, trip. split; [done|]. split; [done|].
    destruct (stops trip) as [|s0 rest] eqn:E; [done|]. rewrite <- E in *.
    assert (head (stops trip) = Some s0) as Hhd by (by rewrite E).
    destruct (window_open trip s0 a Hc Hhd) as [G1 G2].
    { exists (S i), s2, a. repeat split; try done; lia. }
    { exists (S i), s2, a. repeat split; try done; lia. }
    apply (evalTrip_intro Math data now a routeId trip s0
             (Moving s1 s2 (num_div (of_Z (a - d)) (of_Z (a - d)))) pos); try done.
    cbn [segment_position]. rewrite Hs1, Hs2, Hpos. done.
Qed.
End EngineProperties.

(** C1, as stated, fails twice on the sample feed.  At 07:57:00, between
    the arrival at the first stop (07:55:00) and the departure from it
    (08:00:00), the trip is not in the active set.  At 08:05:00, the very
    time of arrival at the intermediate stop B, the trip is shown moving,
    not dwelling. *)
Lemma dwelling_claim_fails :
  isServiceActive (serviceId Sample.trip1) (Data.calendar Sample.data) Sample.today = true
  /\ stops_resolve Sample.data Sample.trip1 = true
  /\ Data.schedule Sample.data !! "R1"%string = Some [Sample.trip1]
  /\ stops Sample.trip1 !! 0%nat = Some Sample.stA
  /\ timeToSeconds (arrival Sample.stA) = Some 28500
  /\ timeToSeconds (departure Sample.stA) = Some 28800
  /\ 28500 <= 28620 < 28800
  /\ activeTrips Sample.Math (Some Sample.data) Sample.today 28620 = Ret []
  /\ stops Sample.trip1 !! 1%nat = Some Sample.stB
  /\ timeToSeconds (arrival Sample.stB) = Some 29100
  /\ timeToSeconds (departure Sample.stB) = Some 29160
  /\ 29100 <= 29100 < 29160
  /\ exists v,
       activeTrips Sample.Math (Some Sample.data) Sample.today 29100 = Ret [v]
       /\ status v = moving.
Proof.
  do 6 (split; [reflexivity|]). split; [lia|]. split; [vm_compute; reflexivity|].
  do 3 (split; [reflexivity|]). split; [lia|].
  eexists. split; [vm_compute; reflexivity|reflexivity].
Qed.

Lemma activeTrips_dwelling_witness :
  exists active,
    activeTrips Sample.Math (Some Sample.data) Sample.today 29130 = Ret active
    /\ mkVehicle Sample.trip1 (find_route (Data.routes Sample.data) "R1")
         (stop_position Sample.B) dwelling ∈ active.
Proof.
  apply (activeTrips_dwelling Sample.Math Sample.data Sample.today 29130 "R1"
           [Sample.trip1] Sample.trip1 1 Sample.stB Sample.B 29100 29160);
    try reflexivity; try (cbn; lia).
  apply list_elem_of_here.
Defined.

Lemma activeTrips_window_witness :
  (exists active,
      activeTrips Sample.Math (Some Sample.data) Sample.today 28500 = Ret active
      /\ forall v, v ∈ active -> vehicle_trip v <> Sample.trip1)
  /\ (exists active,
        activeTrips Sample.Math (Some Sample.data) Sample.today 29700 = Ret active
        /\ forall v, v ∈ active -> vehicle_trip v <> Sample.trip1)
  /\ (exists active v,
        activeTrips Sample.Math (Some Sample.data) Sample.today 29000 = Ret active
        /\ v ∈ active /\ vehicle_trip v = Sample.trip1
        /\ (status v = moving \/ status v = dwelling)).
Proof.
  destruct (activeTrips_window Sample.Math Sample.data Sample.today "R1" [Sample.trip1]
              Sample.trip1 Sample.stA Sample.stC 28800 29400) as (_ & _ & H);
    try reflexivity; [apply list_elem_of_here|].
  destruct (H eq_refl eq_refl) as (H1 & H2 & H3).
  split; [exact H1|]. split; [exact H2|].
  apply H3; try reflexivity. cbn. lia.
Defined.

Lemma activeTrips_unresolved_witness :
  currentSegment 29000 (stops Sample.trip1)
  = Some (Moving Sample.stA Sample.stB
            (num_div (of_Z (29000 - 28800)) (of_Z (29100 - 28800))))
  /\ Data.stops Sample.dataNoB !! stopId Sample.stB = None
  /\ evalTrip Sample.Math Sample.dataNoB Sample.today 29000 "R1" Sample.trip1 = Skip
  /\ exists active,
       activeTrips Sample.Math (Some Sample.dataNoB) Sample.today 29000 = Ret active
       /\ (forall v, v ∈ active -> vehicle_trip v <> Sample.trip1)
       /\ (forall v, v ∈ active -> resolved Sample.Math Sample.dataNoB v).
Proof.
  split; [reflexivity|]. split; [reflexivity|].
  apply (activeTrips_unresolved Sample.Math Sample.dataNoB Sample.today 29000 "R1"
           [Sample.trip1] Sample.trip1 Sample.stA Sample.stB
           (num_div (of_Z (29000 - 28800)) (of_Z (29100 - 28800))));
    try reflexivity.
  - apply list_elem_of_here.
  - right. reflexivity.
Defined.

Lemma activeTrips_arrival_instant_witness :
  exists progress q,
    currentSegment 29100 (stops Sample.trip1)
    = Some (Moving Sample.stA Sample.stB progress)
    /\ progress = Fin q /\ (q == 1)%Q.
Proof.
  destruct (activeTrips_arrival_instant Sample.Math Sample.data Sample.today "R1"
              [Sample.trip1] Sample.trip1 0 Sample.stA Sample.stB 28800 29100 29160)
    as (_ & progress & q & H1 & H2 & H3 & _);
    try reflexivity; try lia; [apply list_elem_of_here|].
  exists progress, q. split; [exact H1|]. split; [exact H2|exact H3].
Defined.

(** * Further properties of the code *)

(** ** The nearest point of a shape *)

Lemma num_ltb_Fin_iff a b : num_ltb (Fin a) (Fin b) = true <-> (a < b)%Q.
Proof.
  cbn [num_ltb]. rewrite negb_true_iff. split.
  - intros H. destruct (Qlt_le_dec a b) as [?|Hle]; [done|].
    apply Qle_bool_iff in Hle. congruence.
  - intros H. by apply Qle_bool_false.
Qed.

Lemma num_leb_Fin_iff a b : num_leb (Fin a) (Fin b) = true <-> (a <= b)%Q.
Proof. cbn [num_leb]. apply Qle_bool_iff. Qed.

(** What the loop returns, started with a finite least distance [m]:
    the index it was given when no point is strictly nearer than [m], and
    otherwise the first of the nearest points. *)
Lemma closest_from_least pts stop : forall i m idx,
  (closest_from pts stop i (Fin m) idx = idx
   /\ forall k q, pts !! k = Some q -> num_leb (Fin m) (sq_dist q stop) = true)
  \/ exists k p,
       closest_from pts stop i (Fin m) idx = i + Z.of_nat k
       /\ pts !! k = Some p
       /\ num_ltb (sq_dist p stop) (Fin m) = true
       /\ (forall k' q, pts !! k' = Some q ->
             num_leb (sq_dist p stop) (sq_dist q stop) = true)
       /\ (forall k' q, (k' < k)%nat -> pts !! k' = Some q ->
             num_ltb (sq_dist p stop) (sq_dist q stop) = true).
Proof.
  induction pts as [|p pts IH]; intros i m idx.
  - left. split; [done|]. intros k q H. by destruct k.
  - cbn [closest_from]. destruct (sq_dist_finite p stop) as [dp Ep]. rewrite Ep.
    destruct (num_ltb (Fin dp) (Fin m)) eqn:Hlt.
    + apply num_ltb_Fin_iff in Hlt. right.
      destruct (IH (i + 1) dp i) as [[-> Hall]|(k & p' & -> & Hk & Hp' & Hmin & Hfirst)].
      * exists 0%nat, p. rewrite Ep. split; [f_equal; lia|]. split; [done|].
        split; [by apply num_ltb_Fin_iff|]. split; [|intros; lia].
        intros [|k'] q Hq; cbn in Hq.
        -- injection Hq as <-. rewrite Ep. apply num_leb_Fin_iff. lra.
        -- by apply (Hall k').
      * destruct (sq_dist_finite p' stop) as [dp' Ep']. rewrite Ep' in *.
        apply num_ltb_Fin_iff in Hp'.
        exists (S k), p'. rewrite Ep'. split; [lia|]. split; [done|].
        split; [apply num_ltb_Fin_iff; lra|]. split.
        -- intros [|k'] q Hq; cbn in Hq.
           ++ injection Hq as <-. rewrite Ep. apply num_leb_Fin_iff. lra.
           ++ by apply (Hmin k').
        -- intros [|k'] q Hk' Hq; cbn in Hq.
           ++ injection Hq as <-. rewrite Ep. apply num_ltb_Fin_iff. lra.
           ++ apply (Hfirst k'); [lia|done].
    + assert (m <= dp)%Q as Hge.
      { destruct (Qlt_le_dec dp m) as [H|H]; [|done].
        apply num_ltb_Fin_iff in H. congruence. }
      destruct (IH (i + 1) m idx) as [[-> Hall]|(k & p' & -> & Hk & Hp' & Hmin & Hfirst)].
      * left. split; [done|]. intros [|k'] q Hq; cbn in Hq.
        -- injection Hq as <-. rewrite Ep. by apply num_leb_Fin_iff.
        -- by apply (Hall k').
      * right. destruct (sq_dist_finite p' stop) as [dp' Ep']. rewrite Ep' in *.
        apply num_ltb_Fin_iff in Hp'.
        exists (S k), p'. rewrite Ep'. split; [lia|]. split; [done|].
        split; [by apply num_ltb_Fin_iff|]. split.
        -- intros [|k'] q Hq; cbn in Hq.
           ++ injection Hq as <-. rewrite Ep. apply num_leb_Fin_iff. lra.
           ++ by apply (Hmin k').
        -- intros [|k'] q Hk' Hq; cbn in Hq.
           ++ injection Hq as <-. rewrite Ep. apply num_ltb_Fin_iff. lra.
           ++ apply (Hfirst k'); [lia|done].
Qed.

(** The same from the start of the loop, where the least distance is
    [Infinity]: the first point is always taken. *)
Lemma closest_from_start pts stop i idx :
  pts <> [] ->
  exists k p,
    closest_from pts stop i PInf idx = i + Z.of_nat k
    /\ pts !! k = Some p
    /\ (forall k' q, pts !! k' = Some q ->
          num_leb (sq_dist p stop) (sq_dist q stop) = true)
    /\ (forall k' q, (k' < k)%nat -> pts !! k' = Some q ->
          num_ltb (sq_dist p stop) (sq_dist q stop) = true).
Proof.
  destruct pts as [|p pts]; [done|]. intros _. cbn [closest_from].
  destruct (sq_dist_finite p stop) as [dp Ep]. rewrite Ep. cbn [num_ltb].
  destruct (closest_from_least pts stop (i + 1) dp i)
    as [[-> Hall]|(k & p' & -> & Hk & Hp' & Hmin & Hfirst)].
  - exists 0%nat, p. rewrite Ep. split; [f_equal; lia|]. split; [done|].
    split; [|intros; lia].
    intros [|k'] q Hq; cbn in Hq.
    + injection Hq as <-. rewrite Ep. apply num_leb_Fin_iff. lra.
    + by apply (Hall k').
  - destruct (sq_dist_finite p' stop) as [dp' Ep']. rewrite Ep' in *.
    apply num_ltb_Fin_iff in Hp'.
    exists (S k), p'. rewrite Ep'. split; [lia|]. split; [done|]. split.
    + intros [|k'] q Hq; cbn in Hq.
      * injection Hq as <-. rewrite Ep. apply num_leb_Fin_iff. lra.
      * by apply (Hmin k').
    + intros [|k'] q Hk' Hq; cbn in Hq.
      * injection Hq as <-. rewrite Ep. apply num_ltb_Fin_iff. lra.
      * apply (Hfirst k'); [lia|done].
Qed.

(** X1. [findClosestPointIndex] raises on a negative start index, returns
    -1 on a start index at or past the end, and otherwise returns the
    index, from the start index on, of a point whose squared distance to
    the stop, in exact arithmetic, is least; among several such points,
    the first. *)
Theorem findClosestPointIndex_nearest shape stop startIndex :
  (startIndex < 0 -> findClosestPointIndex shape stop startIndex = Raise)
  /\ (Z.of_nat (length shape) <= startIndex ->
      findClosestPointIndex shape stop startIndex = Ret (-1))
  /\ (0 <= startIndex < Z.of_nat (length shape) ->
      exists idx p,
        findClosestPointIndex shape stop startIndex = Ret idx
        /\ startIndex <= idx < Z.of_nat (length shape)
        /\ shape !! Z.to_nat idx = Some p
        /\ (forall j q, (Z.to_nat startIndex <= j)%nat -> shape !! j = Some q ->
              num_leb (sq_dist p stop) (sq_dist q stop) = true)
        /\ (forall j q, (Z.to_nat startIndex <= j < Z.to_nat idx)%nat ->
              shape !! j = Some q ->
              num_ltb (sq_dist p stop) (sq_dist q stop) = true)).
Proof.
  unfold findClosestPointIndex. split; [|split].
  - intros H. destruct (Z.ltb_spec startIndex 0); [|lia].
    destruct (Z.ltb_spec startIndex (Z.of_nat (length shape))); [done|lia].
  - intros H. destruct (Z.ltb_spec startIndex 0); [lia|]. cbn [andb].
    rewrite drop_ge by lia. done.
  - intros H. destruct (Z.ltb_spec startIndex 0); [lia|]. cbn [andb].
    set (n := Z.to_nat startIndex).
    assert (drop n shape <> []) as Hne.
    { intros E. apply (f_equal length) in E. rewrite length_drop in E. cbn in E. lia. }
    destruct (closest_from_start (drop n shape) stop startIndex (-1) Hne)
      as (k & p & -> & Hk & Hmin & Hfirst).
    rewrite lookup_drop in Hk. pose proof (lookup_lt_Some _ _ _ Hk) as Hlt.
    exists (startIndex + Z.of_nat k), p. split; [done|]. split; [lia|].
    replace (Z.to_nat (startIndex + Z.of_nat k)) with (n + k)%nat by lia.
    split; [done|]. split.
    + intros j q Hj Hq. apply (Hmin (j - n)%nat). rewrite lookup_drop.
      by replace (n + (j - n))%nat with j by lia.
    + intros j q Hj Hq. apply (Hfirst (j - n)%nat); [lia|]. rewrite lookup_drop.
      by replace (n + (j - n))%nat with j by lia.
Qed.

(** ** The path between the two indices *)

Lemma slice_between {A} (l : list A) i j :
  0 <= i -> i <= j -> j < Z.of_nat (length l) ->
  slice l i (j + 1) = take (Z.to_nat (j - i + 1)) (drop (Z.to_nat i) l).
Proof.
  intros Hi Hij Hj. unfold slice, clamp_index.
  destruct (Z.ltb_spec i 0); [lia|]. destruct (Z.ltb_spec (j + 1) 0); [lia|].
  rewrite !Z.min_l by lia. do 2 f_equal; lia.
Qed.

Lemma slice_lookup {A} (l : list A) i j k :
  0 <= i -> i <= j -> j < Z.of_nat (length l) -> (k <= Z.to_nat (j - i))%nat ->
  slice l i (j + 1) !! k = l !! (Z.to_nat i + k)%nat.
Proof.
  intros Hi Hij Hj Hk. rewrite slice_between by done.
  rewrite lookup_take_lt by lia. apply lookup_drop.
Qed.

Lemma slice_length {A} (l : list A) i j :
  0 <= i -> i <= j -> j < Z.of_nat (length l) ->
  length (slice l i (j + 1)) = Z.to_nat (j - i + 1).
Proof.
  intros Hi Hij Hj. rewrite slice_between by done.
  rewrite length_take, length_drop. lia.
Qed.

Lemma last_lookup_len {A} (l : list A) d n :
  length l = S n -> l !! n = Some (List.last l d).
Proof.
  revert n. induction l as [|x l IH]; intros n Hn; [done|].
  destruct l as [|y l].
  - cbn in Hn. by replace n with 0%nat by lia.
  - destruct n as [|n]; [cbn in Hn; lia|].
    change (List.last (x :: y :: l) d) with (List.last (y :: l) d).
    cbn [lookup list_lookup]. apply IH. cbn in *. lia.
Qed.

Section Walk.
Variable Math : MathObject.

Lemma positive_inv d : positive d = true -> exists q, d = Fin q /\ (0 < q)%Q.
Proof.
  destruct d as [| | |q]; try done. cbn. intros H%negb_true_iff.
  exists q. split; [done|]. destruct (Qlt_le_dec 0 q) as [?|Hle]; [done|].
  apply Qle_bool_iff in Hle. congruence.
Qed.

Lemma finite_inv d : finite d = true -> exists q, d = Fin q.
Proof. destruct d; try done. eauto. Qed.

Lemma positive_finite_lengths path :
  positive_lengths Math path = true -> finite_lengths Math path = true.
Proof.
  unfold positive_lengths, finite_lengths. rewrite !forallb_forall.
  intros H d Hd. by destruct (positive_inv d (H d Hd)) as (q & -> & _).
Qed.

Lemma total_finite path : forall c,
  finite_lengths Math path = true ->
  exists T, foldl num_add (Fin c) (segment_lengths Math path) = Fin T.
Proof.
  unfold finite_lengths.
  induction path as [|p1 path IH]; intros c H; [cbn; eauto|].
  destruct path as [|p2 path]; [cbn; eauto|].
  cbn [segment_lengths forallb] in *. apply andb_true_iff in H as [[q ->]%finite_inv H].
  cbn [foldl num_add]. by apply IH.
Qed.

(** At progress 0 the walk stops in the first segment, at its start. *)
Lemma walk_start p1 p2 path q T fallback :
  segment_lengths Math (p1 :: p2 :: path) = Fin q :: segment_lengths Math (p2 :: path) ->
  (0 < q)%Q ->
  exists x y,
    walk (p1 :: p2 :: path) (segment_lengths Math (p1 :: p2 :: path)) (Fin 0)
      (num_mul (Fin T) (Fin 0)) fallback
    = (Fin x, Fin y)
    /\ (x == fst p1)%Q /\ (y == snd p1)%Q.
Proof.
  intros E Hq. rewrite E. cbn [walk].
  change (num_add (Fin 0) (Fin q)) with (Fin (0 + q)).
  change (num_mul (Fin T) (Fin 0)) with (Fin (T * 0)).
  change (num_sub (Fin (T * 0)) (Fin 0)) with (Fin (T * 0 + - 0)).
  rewrite num_div_Fin by done.
  cbn [num_geb num_leb]. rewrite Qle_bool_true by lra.
  cbn [num_add num_mul num_sub num_neg].
  eexists _, _. split; [reflexivity|]. split; field; lra.
Qed.

(** At progress 1 the walk stops in the last segment, at its end. *)
Lemma walk_end path : forall c,
  (2 <= length path)%nat -> positive_lengths Math path = true ->
  exists T,
    foldl num_add (Fin c) (segment_lengths Math path) = Fin T
    /\ (c < T)%Q
    /\ forall c' tgt fallback d,
         (c' == c)%Q -> (tgt == T)%Q ->
         exists x y,
           walk path (segment_lengths Math path) (Fin c') (Fin tgt) fallback
           = (Fin x, Fin y)
           /\ (x == fst (List.last path d))%Q /\ (y == snd (List.last path d))%Q.
Proof.
  unfold positive_lengths.
  induction path as [|p1 path IH]; intros c Hlen Hpos; [cbn in Hlen; lia|].
  destruct path as [|p2 path]; [cbn in Hlen; lia|].
  cbn [segment_lengths forallb] in *.
  apply andb_true_iff in Hpos as [(q & Eq & Hq)%positive_inv Hpos].
  rewrite Eq. cbn [foldl num_add].
  destruct path as [|p3 path].
  - exists (c + q)%Q. split; [done|]. split; [lra|].
    intros c' tgt fallback d Hc Ht. cbn [walk segment_lengths].
    change (num_add (Fin c') (Fin q)) with (Fin (c' + q)).
    change (num_sub (Fin tgt) (Fin c')) with (Fin (tgt + - c')).
    rewrite num_div_Fin by done.
    cbn [num_geb num_leb]. rewrite Qle_bool_true by lra.
    cbn [num_add num_mul num_sub num_neg List.last].
    eexists _, _. split; [reflexivity|].
    assert ((tgt + - c') / q == 1)%Q as E by (rewrite Ht, Hc; field; lra).
    split; rewrite E; ring.
  - destruct (IH (c + q)%Q) as (T & HT & HcT & Hwalk); [cbn; lia|done|].
    exists T. split; [done|]. split; [lra|].
    intros c' tgt fallback d Hc Ht.
    cbn [walk]. change (num_add (Fin c') (Fin q)) with (Fin (c' + q)).
    cbn [num_geb num_leb]. rewrite Qle_bool_false by lra.
    change (List.last (p1 :: p2 :: p3 :: path) d) with (List.last (p2 :: p3 :: path) d).
    apply Hwalk; [lra|done].
Qed.
End Walk.

Lemma findClosestPointIndex_Ret shape stop startIndex idx :
  findClosestPointIndex shape stop startIndex = Ret idx ->
  (0 <= startIndex /\ startIndex <= idx /\ idx < Z.of_nat (length shape))
  \/ (Z.of_nat (length shape) <= startIndex /\ idx = -1).
Proof.
  intros H. destruct (Z.lt_ge_cases startIndex (Z.of_nat (length shape))) as [Hlt|Hge].
  - destruct (Z.lt_ge_cases startIndex 0) as [Hneg|Hpos].
    + unfold findClosestPointIndex in H.
      destruct (Z.ltb_spec startIndex 0); [|lia].
      destruct (Z.ltb_spec startIndex (Z.of_nat (length shape))); [|lia]. done.
    + left. destruct (findClosestPointIndex_from shape stop startIndex) as (i & E & Hi); [lia|].
      rewrite E in H. injection H as <-. lia.
  - right. split; [done|]. unfold findClosestPointIndex in H.
    destruct (Z.ltb_spec startIndex (Z.of_nat (length shape))); [lia|].
    rewrite andb_false_r in H. rewrite drop_ge in H by lia. cbn in H. by injection H.
Qed.

Section Path.
Variable Math : MathObject.

(** The interpolator once the two indices are known to be in order. *)
Lemma interpolatePositionOnShape_between shape stopFrom stopTo idx1 idx2 progress :
  findClosestPointIndex shape stopFrom 0 = Ret idx1 ->
  findClosestPointIndex shape stopTo idx1 = Ret idx2 ->
  idx1 < idx2 ->
  0 <= idx1 /\ idx2 < Z.of_nat (length shape)
  /\ exists p0 p1 rest,
       slice shape idx1 (idx2 + 1) = p0 :: p1 :: rest
       /\ interpolatePositionOnShape Math (Some shape) stopFrom stopTo progress
          = Ret (walk (p0 :: p1 :: rest) (segment_lengths Math (p0 :: p1 :: rest)) (of_Z 0)
                   (num_mul (total_length (segment_lengths Math (p0 :: p1 :: rest))) progress)
                   (Fin (List.last (p0 :: p1 :: rest) p0).1,
                    Fin (List.last (p0 :: p1 :: rest) p0).2)).
Proof.
  intros H1 H2 Hlt.
  destruct (findClosestPointIndex_Ret _ _ _ _ H2) as [B2|[_ ->]]; cycle 1.
  { destruct (findClosestPointIndex_Ret _ _ _ _ H1) as [?|[_ ->]]; lia. }
  split; [lia|]. split; [lia|].
  pose proof (slice_length shape idx1 idx2 ltac:(lia) ltac:(lia) ltac:(lia)) as Hlen.
  destruct (slice shape idx1 (idx2 + 1)) as [|p0 [|p1 rest]] eqn:Es;
    [cbn in Hlen; lia|cbn in Hlen; lia|].
  exists p0, p1, rest. split; [done|].
  unfold interpolatePositionOnShape.
  destruct (Nat.ltb_spec (length shape) 2) as [Hs|_]; [lia|].
  rewrite H1. cbn [bind]. rewrite H2. cbn [bind].
  unfold interpolate_between. destruct (Z.ltb_spec idx2 idx1); [lia|].
  by rewrite Es.
Qed.

(** X2. On a shape of at least two points both searches of
    [interpolatePositionOnShape] succeed, and since the to-stop is searched
    from the from-index on, the to-index is never before the from-index:
    the branch that clamps a to-index lying before the from-index is never
    taken, and the path is the points of the shape from the one index to
    the other. *)
Theorem interpolatePositionOnShape_forward shape stopFrom stopTo progress :
  (2 <= length shape)%nat ->
  exists idx1 idx2,
    findClosestPointIndex shape stopFrom 0 = Ret idx1
    /\ findClosestPointIndex shape stopTo idx1 = Ret idx2
    /\ 0 <= idx1 /\ idx1 <= idx2 /\ idx2 < Z.of_nat (length shape)
    /\ (idx2 <? idx1) = false
    /\ slice shape idx1 (idx2 + 1)
       = take (Z.to_nat (idx2 - idx1 + 1)) (drop (Z.to_nat idx1) shape)
    /\ interpolatePositionOnShape Math (Some shape) stopFrom stopTo progress
       = Ret (interpolate_between Math shape stopFrom idx1 idx2 progress).
Proof.
  intros Hlen.
  destruct (findClosestPointIndex_from shape stopFrom 0) as (idx1 & H1 & B1); [lia|].
  destruct (findClosestPointIndex_from shape stopTo idx1) as (idx2 & H2 & B2); [lia|].
  exists idx1, idx2. split; [done|]. split; [done|].
  split; [lia|]. split; [lia|]. split; [lia|].
  split; [apply Z.ltb_ge; lia|].
  split; [apply slice_between; lia|].
  unfold interpolatePositionOnShape.
  destruct (Nat.ltb_spec (length shape) 2) as [Hs|_]; [lia|].
  rewrite H1. cbn [bind]. by rewrite H2.
Qed.

(** X3. In exact arithmetic, when the two stops snap to different points
    of the shape and every segment of the path between them has a positive
    length: at progress 0 the interpolator returns the shape point nearest
    to the from-stop, and at progress 1 the shape point nearest to the
    to-stop, not the coordinates of the stops themselves. *)
Theorem interpolatePositionOnShape_endpoints shape stopFrom stopTo idx1 idx2 :
  findClosestPointIndex shape stopFrom 0 = Ret idx1 ->
  findClosestPointIndex shape stopTo idx1 = Ret idx2 ->
  idx1 < idx2 ->
  positive_lengths Math (slice shape idx1 (idx2 + 1)) = true ->
  exists p1 p2 x0 y0 x1 y1,
    shape !! Z.to_nat idx1 = Some p1 /\ shape !! Z.to_nat idx2 = Some p2
    /\ interpolatePositionOnShape Math (Some shape) stopFrom stopTo (Fin 0)
       = Ret (Fin x0, Fin y0)
    /\ (x0 == p1.1)%Q /\ (y0 == p1.2)%Q
    /\ interpolatePositionOnShape Math (Some shape) stopFrom stopTo (Fin 1)
       = Ret (Fin x1, Fin y1)
    /\ (x1 == p2.1)%Q /\ (y1 == p2.2)%Q.
Proof.
  intros H1 H2 Hlt Hpos.
  destruct (interpolatePositionOnShape_between shape stopFrom stopTo idx1 idx2 (Fin 0)
              H1 H2 Hlt) as (B1 & B2 & p0 & p1 & rest & Es & E0).
  destruct (interpolatePositionOnShape_between shape stopFrom stopTo idx1 idx2 (Fin 1)
              H1 H2 Hlt) as (_ & _ & p0' & p1' & rest' & Es' & E1).
  rewrite Es in Es'. injection Es' as <- <- <-.
  rewrite Es in Hpos.
  pose proof (slice_length shape idx1 idx2 ltac:(lia) ltac:(lia) ltac:(lia)) as Hlen.
  assert (shape !! Z.to_nat idx1 = Some p0) as L1.
  { rewrite <- (Nat.add_0_r (Z.to_nat idx1)).
    rewrite <- (slice_lookup shape idx1 idx2 0) by lia. by rewrite Es. }
  assert (shape !! Z.to_nat idx2 = Some (List.last (p0 :: p1 :: rest) p0)) as L2.
  { replace (Z.to_nat idx2) with (Z.to_nat idx1 + Z.to_nat (idx2 - idx1))%nat by lia.
    rewrite <- (slice_lookup shape idx1 idx2) by lia. rewrite Es.
    apply last_lookup_len. rewrite <- Es, Hlen. lia. }
  destruct (walk_end Math (p0 :: p1 :: rest) 0 ltac:(cbn; lia) Hpos) as (T & HT & _ & Hend).
  assert (exists q, segment_lengths Math (p0 :: p1 :: rest)
                    = Fin q :: segment_lengths Math (p1 :: rest) /\ (0 < q)%Q)
    as (q & Eq & Hq).
  { unfold positive_lengths in Hpos. cbn [segment_lengths forallb] in Hpos.
    apply andb_true_iff in Hpos as [(q & Eq & Hq)%positive_inv _].
    exists q. cbn [segment_lengths]. by rewrite Eq. }
  destruct (walk_start Math p0 p1 rest q T
              (Fin (List.last (p0 :: p1 :: rest) p0).1, Fin (List.last (p0 :: p1 :: rest) p0).2)
              Eq Hq) as (x0 & y0 & W0 & Hx0 & Hy0).
  destruct (Hend 0%Q (T * 1)%Q
              (Fin (List.last (p0 :: p1 :: rest) p0).1, Fin (List.last (p0 :: p1 :: rest) p0).2)
              p0 ltac:(reflexivity) ltac:(ring)) as (x1 & y1 & W1 & Hx1 & Hy1).
  exists p0, (List.last (p0 :: p1 :: rest) p0), x0, y0, x1, y1.
  split; [done|]. split; [done|].
  split. { rewrite E0. unfold total_length. change (of_Z 0) with (Fin 0). by rewrite HT, W0. }
  split; [done|]. split; [done|].
  split. { rewrite E1. unfold total_length. change (of_Z 0) with (Fin 0). rewrite HT.
           change (num_mul (Fin T) (Fin 1)) with (Fin (T * 1)). by rewrite W1. }
  done.
Qed.

(** X4. When the from-stop snaps to a shape point that is followed by a
    point at distance zero (a point recorded twice) and the to-stop snaps
    further on, then at progress 0, the instant of departure, the division
    of zero by zero makes both coordinates of the position NaN. *)
Theorem interpolatePositionOnShape_NaN shape stopFrom stopTo idx1 idx2 p1 p2 q :
  findClosestPointIndex shape stopFrom 0 = Ret idx1 ->
  findClosestPointIndex shape stopTo idx1 = Ret idx2 ->
  idx1 < idx2 ->
  shape !! Z.to_nat idx1 = Some p1 -> shape !! (Z.to_nat idx1 + 1)%nat = Some p2 ->
  haversineDistance Math p1 p2 = Fin q -> (q == 0)%Q ->
  finite_lengths Math (slice shape idx1 (idx2 + 1)) = true ->
  interpolatePositionOnShape Math (Some shape) stopFrom stopTo (Fin 0) = Ret (NaN, NaN).
Proof.
  intros H1 H2 Hlt L1 L2 Hd Hq Hfin.
  destruct (interpolatePositionOnShape_between shape stopFrom stopTo idx1 idx2 (Fin 0)
              H1 H2 Hlt) as (B1 & B2 & p0 & p1' & rest & Es & E0).
  rewrite Es in Hfin.
  assert (p0 = p1) as ->.
  { rewrite <- (Nat.add_0_r (Z.to_nat idx1)) in L1.
    rewrite <- (slice_lookup shape idx1 idx2 0) in L1 by lia. rewrite Es in L1.
    by injection L1. }
  assert (p1' = p2) as ->.
  { rewrite <- (slice_lookup shape idx1 idx2 1) in L2 by lia. rewrite Es in L2.
    by injection L2. }
  destruct (total_finite Math (p1 :: p2 :: rest) 0 Hfin) as (T & HT).
  rewrite E0. unfold total_length. change (of_Z 0) with (Fin 0). rewrite HT.
  cbn [segment_lengths walk]. rewrite Hd.
  change (num_mul (Fin T) (Fin 0)) with (Fin (T * 0)).
  change (num_add (Fin 0) (Fin q)) with (Fin (0 + q)).
  cbn [num_geb num_leb]. rewrite Qle_bool_true by lra.
  assert (num_div (num_sub (Fin (T * 0)) (Fin 0)) (Fin q) = NaN) as ->; [|done].
  change (num_sub (Fin (T * 0)) (Fin 0)) with (Fin (T * 0 + - 0)).
  cbn [num_div].
  assert (Qsign q = 0) as ->.
  { unfold Qsign. unfold Qeq in Hq. cbn in Hq. rewrite Z.mul_1_r in Hq. by rewrite Hq. }
  cbn [Z.eqb].
  assert (Qsign (T * 0 + - 0) = 0) as ->; [|done].
  unfold Qsign. cbn. rewrite Z.mul_0_r. cbn. done.
Qed.
End Path.

Lemma interpolatePositionOnShape_forward_witness :
  exists idx1 idx2,
    findClosestPointIndex Sample.shape1 Sample.A 0 = Ret idx1
    /\ findClosestPointIndex Sample.shape1 Sample.C idx1 = Ret idx2
    /\ 0 <= idx1 /\ idx1 <= idx2 /\ idx2 < Z.of_nat (length Sample.shape1)
    /\ (idx2 <? idx1) = false
    /\ slice Sample.shape1 idx1 (idx2 + 1)
       = take (Z.to_nat (idx2 - idx1 + 1)) (drop (Z.to_nat idx1) Sample.shape1)
    /\ interpolatePositionOnShape Sample.Math (Some Sample.shape1) Sample.A Sample.C
         (Fin (1 # 4))
       = Ret (interpolate_between Sample.Math Sample.shape1 Sample.A idx1 idx2 (Fin (1 # 4))).
Proof.
  apply (interpolatePositionOnShape_forward Sample.Math Sample.shape1 Sample.A Sample.C
           (Fin (1 # 4))).
  cbn. lia.
Defined.

Lemma interpolatePositionOnShape_endpoints_witness :
  exists p1 p2 x0 y0 x1 y1,
    Sample.shape1 !! Z.to_nat 0 = Some p1 /\ Sample.shape1 !! Z.to_nat 2 = Some p2
    /\ interpolatePositionOnShape Sample.Math (Some Sample.shape1) Sample.A Sample.C (Fin 0)
       = Ret (Fin x0, Fin y0)
    /\ (x0 == p1.1)%Q /\ (y0 == p1.2)%Q
    /\ interpolatePositionOnShape Sample.Math (Some Sample.shape1) Sample.A Sample.C (Fin 1)
       = Ret (Fin x1, Fin y1)
    /\ (x1 == p2.1)%Q /\ (y1 == p2.2)%Q.
Proof.
  apply (interpolatePositionOnShape_endpoints Sample.Math Sample.shape1 Sample.A Sample.C 0 2).
  - vm_compute. reflexivity.
  - vm_compute. reflexivity.
  - lia.
  - vm_compute. reflexivity.
Defined.

Lemma interpolatePositionOnShape_NaN_witness :
  interpolatePositionOnShape Sample.Math (Some Demo.doubled) Sample.A Sample.C (Fin 0)
  = Ret (NaN, NaN).
Proof.
  eapply (interpolatePositionOnShape_NaN Sample.Math Demo.doubled Sample.A Sample.C 0 2
            (6125 # 1000, 102238 # 1000)%Q (6125 # 1000, 102238 # 1000)%Q).
  - vm_compute. reflexivity.
  - vm_compute. reflexivity.
  - lia.
  - reflexivity.
  - reflexivity.
  - vm_compute. reflexivity.
  - vm_compute. reflexivity.
  - vm_compute. reflexivity.
Defined.

(** ** Sorting, for any comparator *)

Section SortAny.
Context {A : Type} (cmp : A -> A -> inum).

Lemma insert_sorted_perm (x : A) l : insert_sorted cmp x l ≡ₚ x :: l.
Proof.
  induction l as [|y l IH]; cbn [insert_sorted]; [done|].
  destruct (lt0 (cmp y x)); [|done].
  rewrite IH. apply Permutation_swap.
Qed.

Lemma sort_perm (l : list A) : sort cmp l ≡ₚ l.
Proof.
  induction l as [|x l IH]; cbn [sort]; [done|].
  by rewrite insert_sorted_perm, IH.
Qed.

Lemma sort_elem_of (l : list A) a : a ∈ sort cmp l <-> a ∈ l.
Proof. by rewrite sort_perm. Qed.

Lemma sort_length (l : list A) : length (sort cmp l) = length l.
Proof. by rewrite sort_perm. Qed.
End SortAny.

(** ** Sorting by a numeric key *)

Section SortKey.
Context {A : Type} (key : A -> inum).

(** [(a, b) => key(a) - key(b)] *)
Local Abbreviation by_key := (fun a b : A => inum_sub (key a) (key b)).

Local Abbreviation le_key := (fun a b : A => inum_leb (key a) (key b) = true).

Lemma insert_sorted_key (x : A) l :
  is_Some (key x) -> Forall (fun a => is_Some (key a)) l ->
  StronglySorted le_key l -> StronglySorted le_key (insert_sorted by_key x l).
Proof.
  intros [kx Hx]. induction l as [|y l IH]; intros Hl Hs; cbn [insert_sorted].
  - repeat constructor.
  - apply Forall_cons in Hl as [[ky Hy] Hl].
    apply StronglySorted_inv in Hs as [Hs Hy_le].
    unfold lt0. rewrite Hx, Hy. cbn [inum_sub inum_ltb].
    destruct (Z.ltb_spec (ky - kx) 0) as [Hlt|Hge].
    + constructor; [by apply IH|].
      apply Forall_forall. intros a Ha. rewrite insert_sorted_perm in Ha.
      apply elem_of_cons in Ha as [->|Ha].
      * rewrite Hx, Hy. cbn. apply Z.leb_le. lia.
      * by apply (proj1 (Forall_forall _ _) Hy_le).
    + constructor; [by constructor|].
      apply Forall_cons. split.
      * rewrite Hx, Hy. cbn. apply Z.leb_le. lia.
      * apply Forall_forall. intros a Ha.
        pose proof (proj1 (Forall_forall _ _) Hy_le a Ha) as Hle.
        pose proof (proj1 (Forall_forall _ _) Hl a Ha) as [ka Hka].
        rewrite Hy, Hka in Hle. rewrite Hx, Hka. cbn in *.
        apply Z.leb_le. apply Z.leb_le in Hle. lia.
Qed.

Lemma sort_key (l : list A) :
  Forall (fun a => is_Some (key a)) l -> StronglySorted le_key (sort by_key l).
Proof.
  induction l as [|x l IH]; intros Hl; cbn [sort]; [constructor|].
  apply Forall_cons in Hl as [Hx Hl].
  apply insert_sorted_key; [done| |by apply IH].
  apply Forall_forall. intros a Ha. rewrite sort_perm in Ha.
  by apply (proj1 (Forall_forall _ _) Hl).
Qed.

(** In a list in which keys do not decrease, the first element above a
    threshold has the least key of those above it. *)
Lemma find_sorted_least (t : Z) l a :
  StronglySorted le_key l ->
  find (fun a => inum_gtb (key a) (Some t)) l = Some a ->
  forall b, b ∈ l -> inum_gtb (key b) (Some t) = true -> inum_leb (key a) (key b) = true.
Proof.
  induction l as [|x l IH]; intros Hs Hf b Hb Hgt; [done|].
  apply StronglySorted_inv in Hs as [Hs Hx].
  cbn [find] in Hf. destruct (inum_gtb (key x) (Some t)) eqn:Ex.
  - injection Hf as <-. apply elem_of_cons in Hb as [->|Hb].
    + unfold inum_gtb in Ex. destruct (key x); [|done]. cbn. apply Z.leb_refl.
    + by apply (proj1 (Forall_forall _ _) Hx).
  - apply elem_of_cons in Hb as [->|Hb]; [congruence|]. by apply IH.
Qed.
End SortKey.

Lemma find_None_elem {A} (f : A -> bool) l :
  find f l = None <-> forall a, a ∈ l -> f a = false.
Proof.
  induction l as [|x l IH]; cbn [find].
  - split; [intros _ a Ha; by apply elem_of_nil in Ha|done].
  - destruct (f x) eqn:E.
    + split; [done|]. intros H. specialize (H x ltac:(left)). congruence.
    + rewrite IH. split.
      * intros H a [->|Ha]%elem_of_cons; auto.
      * intros H a Ha. apply H. by right.
Qed.

Lemma find_Some_elem {A} (f : A -> bool) l a :
  find f l = Some a -> a ∈ l /\ f a = true.
Proof.
  induction l as [|x l IH]; cbn [find]; [done|].
  destruct (f x) eqn:E.
  - intros [= <-]. split; [left|done].
  - intros H. destruct (IH H). split; [by right|done].
Qed.

Lemma existsb_elem {A} (f : A -> bool) l :
  existsb f l = true <-> exists a, a ∈ l /\ f a = true.
Proof.
  rewrite existsb_exists. split; intros (a & Ha & Hf); exists a; split; try done.
  - by apply list_elem_of_In.
  - by apply list_elem_of_In.
Qed.

Lemma filter_elem {A} (f : A -> bool) l a :
  a ∈ List.filter f l <-> a ∈ l /\ f a = true.
Proof. rewrite !list_elem_of_In. apply filter_In. Qed.

Lemma startTime_of_stops trip : is_Some (startTime_of trip) -> stops trip <> [].
Proof. unfold startTime_of. destruct (stops trip); [by intros [? ?]|done]. Qed.

(** *** Sorting and searching with functions that may raise *)

Section RaisingFacts.
Context {A : Type} (cmp : A -> A -> result inum).

Lemma insert_sortedM_perm x l : forall r,
  insert_sortedM cmp x l = Ret r -> r ≡ₚ x :: l.
Proof.
  induction l as [|y l IH]; intros r; cbn [insert_sortedM].
  - by intros [= <-].
  - destruct (cmp y x) as [|v]; [done|]. cbn [bind]. destruct (lt0 v).
    + destruct (insert_sortedM cmp x l) as [|r'] eqn:E; [done|]. cbn [bind].
      intros [= <-]. rewrite (IH r' eq_refl). apply Permutation_swap.
    + by intros [= <-].
Qed.

Lemma sortM_perm l : forall s, sortM cmp l = Ret s -> s ≡ₚ l.
Proof.
  induction l as [|x l IH]; intros s; cbn [sortM].
  - by intros [= <-].
  - destruct (sortM cmp l) as [|s'] eqn:E; [done|]. cbn [bind].
    intros H%insert_sortedM_perm. by rewrite H, (IH s' eq_refl).
Qed.

(** A comparator that raises exactly on the elements that [bad] marks,
    and is [f] on the others. *)
Context (bad : A -> bool) (f : A -> A -> inum).
Hypothesis cmp_Ret :
  forall a b, bad a = false -> bad b = false -> cmp a b = Ret (f a b).
Hypothesis cmp_Raise :
  forall a b, bad a = true \/ bad b = true -> cmp a b = Raise.

Lemma insert_sortedM_Ret x l :
  bad x = false -> Forall (fun a => bad a = false) l ->
  insert_sortedM cmp x l = Ret (insert_sorted f x l).
Proof.
  intros Hx. induction l as [|y l IH]; intros Hl; [done|].
  apply Forall_cons in Hl as [Hy Hl]. cbn [insert_sortedM insert_sorted].
  rewrite cmp_Ret by done. cbn [bind]. destruct (lt0 (f y x)); [|done].
  by rewrite IH.
Qed.

(** Without a marked element the sort is [sort]. *)
Lemma sortM_Ret l :
  Forall (fun a => bad a = false) l -> sortM cmp l = Ret (sort f l).
Proof.
  induction l as [|x l IH]; intros Hl; [done|].
  apply Forall_cons in Hl as [Hx Hl]. cbn [sortM sort]. rewrite IH by done. cbn [bind].
  apply insert_sortedM_Ret; [done|].
  apply Forall_forall. intros a Ha. rewrite sort_elem_of in Ha.
  by apply (proj1 (Forall_forall _ _) Hl).
Qed.

(** The sort raises exactly when there are two elements or more and one
    of them is marked: every element is then compared. *)
Lemma sortM_Raise l :
  sortM cmp l = Raise
  <-> (2 <= length l)%nat /\ exists x, x ∈ l /\ bad x = true.
Proof.
  split.
  - intros H. destruct (existsb bad l) eqn:Ex.
    + apply existsb_elem in Ex. split; [|done].
      destruct l as [|x [|y l]]; [done| |cbn; lia].
      cbn in H. done.
    + rewrite sortM_Ret in H; [done|].
      apply Forall_forall. intros a Ha. destruct (bad a) eqn:Ea; [|done].
      assert (existsb bad l = true) as E; [|congruence].
      apply existsb_elem. by exists a.
  - induction l as [|x l IH]; intros [Hlen (z & Hz & Hbad)]; [cbn in Hlen; lia|].
    cbn [sortM]. destruct (sortM cmp l) as [|s] eqn:E; [done|]. cbn [bind].
    pose proof (sortM_perm l s E) as Hperm.
    destruct s as [|y s].
    { apply Permutation_nil_l in Hperm. subst l. cbn in Hlen. lia. }
    cbn [insert_sortedM]. rewrite cmp_Raise; [done|].
    apply elem_of_cons in Hz as [->|Hz]; [by right|]. left.
    destruct l as [|w [|w' l]].
    + by apply elem_of_nil in Hz.
    + apply list_elem_of_singleton in Hz as ->.
      apply Permutation_length in Hperm as Hl. destruct s; [|done].
      apply Permutation_singleton_r in Hperm. congruence.
    + assert (@Ret (list A) (y :: s) = Raise) as E'; [|done].
      apply IH. split; [cbn; lia|]. by exists z.
Qed.
End RaisingFacts.

Lemma findM_Ret {A} (p : A -> result bool) (q : A -> bool) l :
  Forall (fun a => p a = Ret (q a)) l -> findM p l = Ret (find q l).
Proof.
  induction l as [|x l IH]; intros Hl; [done|].
  apply Forall_cons in Hl as [Hx Hl]. cbn [findM find]. rewrite Hx. cbn [bind].
  destruct (q x); [done|]. by apply IH.
Qed.

(** *** The comparator and the predicate of [getNextRouteTrip] *)

Lemma no_stops_true trip : no_stops trip = true <-> stops trip = [].
Proof. unfold no_stops. by destruct (stops trip). Qed.

Lemma startTime_Ret trip :
  no_stops trip = false -> startTime trip = Ret (startTime_of trip).
Proof. unfold no_stops, startTime, startTime_of. by destruct (stops trip). Qed.

Lemma startTime_Raise trip : no_stops trip = true -> startTime trip = Raise.
Proof. unfold no_stops, startTime. by destruct (stops trip). Qed.

Lemma compare_start_Ret a b :
  no_stops a = false -> no_stops b = false -> compare_start a b = Ret (by_start a b).
Proof. intros Ha Hb. unfold compare_start. by rewrite !startTime_Ret. Qed.

Lemma compare_start_Raise a b :
  no_stops a = true \/ no_stops b = true -> compare_start a b = Raise.
Proof.
  intros H. unfold compare_start. destruct (no_stops a) eqn:Ea.
  - by rewrite startTime_Raise.
  - destruct H as [?|Hb]; [done|]. rewrite startTime_Ret by done. cbn [bind].
    by rewrite startTime_Raise.
Qed.

(** With stop-times in every trip that runs on the day, nothing raises:
    the trips are sorted by first departure and searched in that order. *)
Lemma getNextRouteTrip_Ret now routeId schedule calendar currentTime routeTrips :
  schedule !! routeId = Some routeTrips ->
  existsb no_stops
    (List.filter (fun trip => isServiceActive (serviceId trip) calendar now) routeTrips)
  = false ->
  getNextRouteTrip now routeId schedule calendar currentTime
  = match find (fun trip => inum_gtb (startTime_of trip) (Some currentTime))
            (sort by_start
               (List.filter (fun trip => isServiceActive (serviceId trip) calendar now)
                  routeTrips)) with
    | None => Ret None
    | Some nextTrip =>
        match stops nextTrip with
        | [] => Raise
        | firstStop :: _ =>
            Ret (Some (NextTrip.mk (tripId nextTrip) (serviceId nextTrip)
                         (substring 0 5 (departure firstStop))
                         (substring 0 5 (arrival (List.last (stops nextTrip) firstStop)))
                         (headsign nextTrip)))
        end
    end.
Proof.
  intros Hs Hex. unfold getNextRouteTrip. rewrite Hs.
  set (active := List.filter (fun trip => isServiceActive (serviceId trip) calendar now)
                   routeTrips) in *.
  assert (Forall (fun trip => no_stops trip = false) active) as Hall.
  { apply Forall_forall. intros trip Ht. destruct (no_stops trip) eqn:E; [|done].
    assert (existsb no_stops active = true) as E'; [|congruence].
    apply existsb_elem. by exists trip. }
  rewrite (sortM_Ret compare_start no_stops by_start compare_start_Ret active Hall).
  cbn [bind].
  rewrite (findM_Ret (starts_after currentTime)
             (fun trip => inum_gtb (startTime_of trip) (Some currentTime))).
  - done.
  - apply Forall_forall. intros trip Ht. rewrite sort_elem_of in Ht.
    unfold starts_after. by rewrite startTime_Ret by (by apply (proj1 (Forall_forall _ _) Hall)).
Qed.

Lemma getNextRouteTrip_Raise now routeId schedule calendar currentTime :
  getNextRouteTrip now routeId schedule calendar currentTime = Raise
  <-> exists routeTrips trip,
        schedule !! routeId = Some routeTrips /\ trip ∈ routeTrips
        /\ isServiceActive (serviceId trip) calendar now = true
        /\ stops trip = [].
Proof.
  destruct (schedule !! routeId) as [routeTrips|] eqn:Hs; cycle 1.
  { unfold getNextRouteTrip. rewrite Hs. split; [done|]. by intros (? & ? & ? & _). }
  set (active := List.filter (fun trip => isServiceActive (serviceId trip) calendar now)
                   routeTrips).
  destruct (existsb no_stops active) eqn:Ex.
  - apply existsb_elem in Ex as (trip & Ht & Hn).
    split.
    + intros _. apply filter_elem in Ht as [Ht Ha]. exists routeTrips, trip.
      repeat (split; [done|]). by apply no_stops_true.
    + intros _. unfold getNextRouteTrip. rewrite Hs. fold active.
      destruct (le_lt_dec 2 (length active)) as [Hlen|Hlen].
      * rewrite (proj2 (sortM_Raise compare_start no_stops by_start
                          compare_start_Ret compare_start_Raise active)); [done|].
        split; [done|]. by exists trip.
      * destruct active as [|x [|y l]]; [by apply elem_of_nil in Ht| |cbn in Hlen; lia].
        apply list_elem_of_singleton in Ht as <-.
        cbn [sortM insert_sortedM bind findM]. unfold starts_after.
        by rewrite startTime_Raise.
  - rewrite (getNextRouteTrip_Ret now routeId schedule calendar currentTime routeTrips Hs Ex).
    fold active. split.
    + destruct (find _ (sort by_start active)) as [nextTrip|] eqn:Ef; [|done].
      apply find_Some_elem in Ef as [Hin _]. rewrite sort_elem_of in Hin.
      destruct (stops nextTrip) eqn:Es; [|done]. intros _.
      assert (existsb no_stops active = true) as Ex'; [|congruence].
      apply existsb_elem. exists nextTrip. split; [done|]. by apply no_stops_true.
    + intros (l & trip & [= <-] & Ht & Ha & Es).
      assert (existsb no_stops active = true) as Ex'; [|congruence].
      apply existsb_elem. exists trip. split; [by apply filter_elem|].
      by apply no_stops_true.
Qed.

(** X5. [getNextRouteTrip] raises exactly when the route is in the
    schedule table and one of its trips whose service runs on the day has
    no stop-times: among two such trips or more the comparator of the sort
    reads the first stop-time of each of them, and on a single one the
    predicate of the search does; the current time plays no part in it. *)
Theorem getNextRouteTrip_raises now routeId schedule calendar currentTime :
  getNextRouteTrip now routeId schedule calendar currentTime = Raise
  <-> exists routeTrips trip,
        schedule !! routeId = Some routeTrips /\ trip ∈ routeTrips
        /\ isServiceActive (serviceId trip) calendar now = true
        /\ stops trip = [].
Proof.
  split.
  - apply getNextRouteTrip_Raise.
  - intros (routeTrips & trip & Hs & Ht & Ha & Hempty).
    unfold getNextRouteTrip. rewrite Hs.
    set (active := List.filter (fun trip => isServiceActive (serviceId trip) calendar now)
                     routeTrips).
    assert (trip ∈ active) as Hin by (by apply filter_elem).
    assert (no_stops trip = true) as Hbad by (by apply no_stops_true).
    destruct (sortM compare_start active) as [|sorted] eqn:E; [done|]. cbn [bind].
    pose proof (sortM_perm compare_start active sorted E) as Hperm.
    destruct active as [|x [|y l]].
    + by apply elem_of_nil in Hin.
    + apply list_elem_of_singleton in Hin as <-.
      apply Permutation_singleton_r in Hperm as ->.
      cbn [findM]. unfold starts_after. by rewrite startTime_Raise.
    + rewrite (proj2 (sortM_Raise compare_start no_stops by_start
                        compare_start_Ret compare_start_Raise (x :: y :: l))) in E; [done|].
      split; [cbn; lia|]. by exists trip.
Qed.

(** X6. When the first departure of every trip of the route whose service
    runs on the day is a number, [getNextRouteTrip] returns: null when the
    route is not in the schedule table or none of these trips departs
    after the current time; otherwise the identifiers and headsign of such
    a trip whose first departure is the earliest, with the first five
    characters of its first departure and of its last arrival. *)
Theorem getNextRouteTrip_earliest now routeId schedule calendar currentTime :
  (forall routeTrips trip,
     schedule !! routeId = Some routeTrips -> trip ∈ routeTrips ->
     isServiceActive (serviceId trip) calendar now = true ->
     is_Some (startTime_of trip)) ->
  exists r,
    getNextRouteTrip now routeId schedule calendar currentTime = Ret r
    /\ match r with
       | None =>
           forall routeTrips trip,
             schedule !! routeId = Some routeTrips -> trip ∈ routeTrips ->
             upcoming now calendar currentTime trip = false
       | Some next =>
           exists routeTrips trip firstStop,
             schedule !! routeId = Some routeTrips /\ trip ∈ routeTrips
             /\ upcoming now calendar currentTime trip = true
             /\ (forall trip', trip' ∈ routeTrips ->
                   upcoming now calendar currentTime trip' = true ->
                   inum_leb (startTime_of trip) (startTime_of trip') = true)
             /\ head (stops trip) = Some firstStop
             /\ next = NextTrip.mk (tripId trip) (serviceId trip)
                         (substring 0 5 (departure firstStop))
                         (substring 0 5 (arrival (List.last (stops trip) firstStop)))
                         (headsign trip)
       end.
Proof.
  intros Hok.
  destruct (schedule !! routeId) as [routeTrips|] eqn:Er; cycle 1.
  { exists None. unfold getNextRouteTrip. rewrite Er. split; [done|]. intros ? ? [=]. }
  specialize (Hok routeTrips).
  set (active := List.filter (fun trip => isServiceActive (serviceId trip) calendar now)
                   routeTrips).
  assert (Forall (fun trip => is_Some (startTime_of trip)) active) as Hall.
  { apply Forall_forall. intros trip [Ht Ha]%filter_elem. by apply Hok. }
  assert (existsb no_stops active = false) as Hex.
  { destruct (existsb no_stops active) eqn:Ex; [|done].
    apply existsb_elem in Ex as (trip & Ht & Hn).
    pose proof (proj1 (Forall_forall _ _) Hall trip Ht) as Hs.
    apply startTime_of_stops in Hs. by apply no_stops_true in Hn. }
  rewrite (getNextRouteTrip_Ret now routeId schedule calendar currentTime routeTrips Er Hex).
  fold active.
  pose proof (sort_key startTime_of active Hall) as Hsorted.
  change (fun a b : Trip => inum_sub (startTime_of a) (startTime_of b)) with by_start in Hsorted.
  destruct (find _ (sort by_start active)) as [nextTrip|] eqn:Ef.
  - pose proof (find_Some_elem _ _ _ Ef) as [Hin Hgt]. rewrite sort_elem_of in Hin.
    apply filter_elem in Hin as [Hin Ha].
    pose proof (startTime_of_stops nextTrip (Hok nextTrip eq_refl Hin Ha)) as Hne.
    destruct (stops nextTrip) as [|firstStop rest] eqn:Es; [done|].
    eexists. split; [reflexivity|].
    exists routeTrips, nextTrip, firstStop. split; [done|]. split; [done|].
    split; [unfold upcoming; by rewrite Ha, Hgt|].
    split; [|by rewrite Es].
    intros trip' Hin' [Ha' Hgt']%andb_true_iff.
    apply (find_sorted_least startTime_of currentTime (sort by_start active)); try done.
    apply sort_elem_of. by apply filter_elem.
  - exists None. split; [done|]. intros l trip [= <-] Hin.
    unfold upcoming. destruct (isServiceActive (serviceId trip) calendar now) eqn:Ha; [|done].
    cbn [andb]. rewrite find_None_elem in Ef. apply Ef.
    apply sort_elem_of. by apply filter_elem.
Qed.

Lemma getNextRouteTrip_earliest_witness :
  exists r,
    getNextRouteTrip Sample.today "R1" Demo.schedule Sample.calendar 28000 = Ret r
    /\ match r with
       | None =>
           forall routeTrips trip,
             Demo.schedule !! "R1"%string = Some routeTrips -> trip ∈ routeTrips ->
             upcoming Sample.today Sample.calendar 28000 trip = false
       | Some next =>
           exists routeTrips trip firstStop,
             Demo.schedule !! "R1"%string = Some routeTrips /\ trip ∈ routeTrips
             /\ upcoming Sample.today Sample.calendar 28000 trip = true
             /\ (forall trip', trip' ∈ routeTrips ->
                   upcoming Sample.today Sample.calendar 28000 trip' = true ->
                   inum_leb (startTime_of trip) (startTime_of trip') = true)
             /\ head (stops trip) = Some firstStop
             /\ next = NextTrip.mk (tripId trip) (serviceId trip)
                         (substring 0 5 (departure firstStop))
                         (substring 0 5 (arrival (List.last (stops trip) firstStop)))
                         (headsign trip)
       end.
Proof.
  apply (getNextRouteTrip_earliest Sample.today "R1" Demo.schedule Sample.calendar 28000).
  intros routeTrips trip Hs Hin _.
  vm_compute in Hs. injection Hs as <-.
  apply elem_of_cons in Hin as [->|Hin]; [by eexists|].
  apply list_elem_of_singleton in Hin as ->. by eexists.
Defined.

(** ** Route colours *)

Lemma palette_NoDup : NoDup palette.
Proof. apply (bool_decide_unpack _). vm_compute. exact I. Qed.

Lemma palette_lookup (index : nat) :
  exists c, palette !! (index mod length palette)%nat = Some c.
Proof.
  apply lookup_lt_is_Some_2. apply Nat.mod_upper_bound. cbn. lia.
Qed.

Lemma assignRouteColors_lookup routes i r' :
  assignRouteColors routes !! i = Some r' ->
  exists r c, routes !! i = Some r /\ palette !! (i mod 10)%nat = Some c
              /\ r' = recolor r c.
Proof.
  unfold assignRouteColors. intros (r & Hr & ->)%list_lookup_imap_Some.
  destruct (palette_lookup i) as [c Hc]. exists r, c. split; [done|].
  split; [done|]. by rewrite Hc.
Qed.

(** X7. [assignRouteColors] changes nothing of a route but its colour,
    which is taken from the palette; two routes receive the same colour
    exactly when their positions in the routes table differ by a multiple
    of ten, so the colours are distinct for up to ten routes only. *)
Theorem assignRouteColors_spec routes :
  length (assignRouteColors routes) = length routes
  /\ (forall i r', assignRouteColors routes !! i = Some r' ->
        exists r, routes !! i = Some r /\ r' = recolor r (color r')
                  /\ color r' ∈ palette)
  /\ (forall i j ri rj,
        assignRouteColors routes !! i = Some ri ->
        assignRouteColors routes !! j = Some rj ->
        color ri = color rj <-> (i mod 10 = j mod 10)%nat).
Proof.
  split; [apply length_imap|]. split.
  - intros i r' (r & c & Hr & Hc & ->)%assignRouteColors_lookup.
    exists r. split; [done|]. split; [done|]. cbn. by apply list_elem_of_lookup_2 in Hc.
  - intros i j ri rj (r1 & c1 & _ & Hc1 & ->)%assignRouteColors_lookup
      (r2 & c2 & _ & Hc2 & ->)%assignRouteColors_lookup.
    cbn [color recolor]. split.
    + intros <-. by apply (NoDup_lookup palette _ _ c1 palette_NoDup).
    + intros E. rewrite E in Hc1. congruence.
Qed.

Lemma find_route_imap (f : nat -> Route -> Route) routes routeId :
  (forall i r, route_id (f i r) = route_id r) ->
  match find_route routes routeId with
  | Some r => exists i, routes !! i = Some r
                        /\ find_route (imap f routes) routeId = Some (f i r)
  | None => find_route (imap f routes) routeId = None
  end.
Proof.
  unfold find_route. revert f. induction routes as [|x routes IH]; intros f Hf; [done|].
  cbn [imap find]. rewrite Hf. destruct (String.eqb (route_id x) routeId).
  - by exists 0%nat.
  - specialize (IH (f ∘ S) (fun i r => Hf (S i) r)).
    destruct (find _ routes) as [r|]; [|done].
    destruct IH as (i & Hi & E). by exists (S i).
Qed.

(** X8. Colouring does not change which route an identifier resolves to:
    in the coloured routes table an identifier finds the route that it
    finds in the table as loaded, with a colour of the palette, and none
    if it finds none there. *)
Theorem find_route_assignRouteColors routes routeId :
  match find_route routes routeId with
  | Some r =>
      exists c, c ∈ palette
                /\ find_route (assignRouteColors routes) routeId = Some (recolor r c)
  | None => find_route (assignRouteColors routes) routeId = None
  end.
Proof.
  unfold assignRouteColors.
  pose proof (find_route_imap
                (fun index route =>
                   recolor route (default EmptyString (palette !! (index mod length palette)%nat)))
                routes routeId (fun _ _ => eq_refl)) as H.
  destruct (find_route routes routeId) as [r|]; [|done].
  destruct H as (i & _ & E). destruct (palette_lookup i) as [c Hc].
  exists c. split; [by apply list_elem_of_lookup_2 in Hc|]. by rewrite E, Hc.
Qed.

(** ** The index of the loaded data *)

Lemma index_listed schedule routes calendar k a :
  listed (precalculateStopSchedules schedule routes calendar) k a
  <-> scheduled schedule routes k a.
Proof.
  unfold scheduled. rewrite <- unsorted_index_listed.
  unfold precalculateStopSchedules, listed. split.
  - intros (l & Hl & Hin). rewrite lookup_fmap in Hl.
    destruct (foldl (add_route routes) ∅ (map_to_list schedule) !! k) as [l0|] eqn:E; [|done].
    injection Hl as <-. exists l0. split; [done|]. by apply sort_elem_of in Hin.
  - intros (l & Hl & Hin). exists (sort by_time l). split.
    + by rewrite lookup_fmap, Hl.
    + by apply sort_elem_of.
Qed.

Lemma index_ascending schedule routes calendar k arrivals :
  departures_ok schedule = true ->
  precalculateStopSchedules schedule routes calendar !! k = Some arrivals ->
  ascending arrivals = true.
Proof.
  intros Hok Hk. unfold precalculateStopSchedules in Hk. rewrite lookup_fmap in Hk.
  destruct (foldl (add_route routes) ∅ (map_to_list schedule) !! k) as [l|] eqn:Hl; [|done].
  injection Hk as <-. apply sort_ascending, Forall_forall. intros a Ha.
  assert (listed (foldl (add_route routes) ∅ (map_to_list schedule)) k a) as Hlisted
    by (by exists l).
  apply unsorted_index_listed in Hlisted
    as (routeId & trips & route & trip & st & Hs & _ & Ht & Hst & _ & ->).
  unfold departures_ok in Hok. rewrite forallb_forall in Hok.
  apply elem_of_map_to_list, list_elem_of_In in Hs. specialize (Hok _ Hs). simpl in Hok.
  rewrite forallb_forall in Hok. apply list_elem_of_In in Ht. specialize (Hok _ Ht).
  rewrite forallb_forall in Hok. apply list_elem_of_In in Hst. specialize (Hok _ Hst).
  unfold parses in Hok. simpl. by destruct (timeToSeconds (departure st)).
Qed.

(** X9. The index lists nothing but stop-times: an entry is in the list
    of a stop exactly when it is the entry of a stop-time at that stop, of
    a trip of a route of the routes table.  Sorting neither drops nor adds
    an entry. *)
Theorem precalculateStopSchedules_exact schedule routes calendar k a :
  (exists arrivals,
     precalculateStopSchedules schedule routes calendar !! k = Some arrivals
     /\ a ∈ arrivals)
  <-> exists routeId trips route trip st,
        schedule !! routeId = Some trips /\ find_route routes routeId = Some route
        /\ trip ∈ trips /\ st ∈ stops trip /\ stopId st = k
        /\ a = Arrival.mk (timeToSeconds (departure st)) route (tripId trip)
                 (serviceId trip) (headsign trip).
Proof.
  pose proof (index_listed schedule routes calendar k a) as H.
  unfold listed, scheduled, arrival_of in H. rewrite H.
  split; intros (routeId & trips & route & trip & st & ? & ? & ? & ? & ? & ?);
    by exists routeId, trips, route, trip, st.
Qed.

(** X10. On loaded data whose departure times are all numbers, the next
    bus of a stop is, among the stop-times at that stop of trips of routes
    of the routes table, one that is to come (after the current time, on a
    service that runs on the day) and has the earliest time of all those to
    come; there is none exactly when no such stop-time is to come. *)
Theorem loadData_getNextArrival routes stops shapes schedule calendar now k currentTime :
  departures_ok schedule = true ->
  match getNextArrival now k currentTime
          (Data.stopSchedules (loadData routes stops shapes schedule calendar))
          (Data.calendar (loadData routes stops shapes schedule calendar)) with
  | Some a =>
      scheduled schedule (assignRouteColors routes) k a
      /\ to_come now calendar currentTime a
      /\ forall b, scheduled schedule (assignRouteColors routes) k b ->
                   to_come now calendar currentTime b ->
                   inum_leb (Arrival.time a) (Arrival.time b) = true
  | None =>
      forall b, scheduled schedule (assignRouteColors routes) k b ->
                ~ to_come now calendar currentTime b
  end.
Proof.
  intros Hok. cbn [loadData Data.stopSchedules Data.calendar].
  pose proof (getNextArrival_find now k currentTime
                (precalculateStopSchedules schedule (assignRouteColors routes) calendar)
                calendar) as H.
  cbv zeta in H.
  destruct (getNextArrival _ _ _ _ _) as [a|].
  - destruct H as (arrivals & i & Hk & Hi & Hc & _ & Hmin).
    split. { apply (index_listed _ _ calendar). exists arrivals. split; [done|]. by apply list_elem_of_lookup_2 in Hi. }
    split; [done|]. intros b Hb Hcb.
    apply (index_listed _ _ calendar) in Hb as (l & Hl & Hin).
    rewrite Hk in Hl. injection Hl as <-.
    apply Hmin; try done. by apply (index_ascending schedule (assignRouteColors routes) calendar k).
  - intros b (l & Hl & Hin)%(index_listed _ _ calendar). by apply (H l).
Qed.

Lemma loadData_getNextArrival_witness :
  departures_ok Demo.schedule = true
  /\ exists a,
       getNextArrival Sample.today "A" 29000
         (Data.stopSchedules
            (loadData [Sample.route1] Sample.stopsTable ∅ Demo.schedule Sample.calendar))
         Sample.calendar = Some a
       /\ scheduled Demo.schedule (assignRouteColors [Sample.route1]) "A" a
       /\ to_come Sample.today Sample.calendar 29000 a.
Proof.
  split; [reflexivity|].
  pose proof (loadData_getNextArrival [Sample.route1] Sample.stopsTable ∅ Demo.schedule
                Sample.calendar Sample.today "A" 29000 eq_refl) as H.
  cbn [loadData Data.stopSchedules Data.calendar] in H.
  destruct (getNextArrival _ _ _ _ _) as [a|] eqn:E.
  - exists a. split; [reflexivity|]. split; [apply H|apply H].
  - vm_compute in E. discriminate E.
Defined.

(** ** The tooltip of a stop *)

(** X11. The stops of the stops table carry no identifier, so the tooltip
    of every stop looks up the schedule list named "undefined": on loaded
    data in which no stop-time has that very string as its stop, the
    tooltip of every stop reports no bus, at every time. *)
Theorem stopTooltip_no_bus routes stopsTable shapes schedule calendar now currentTime stop :
  (forall routeId trips trip st,
     schedule !! routeId = Some trips -> trip ∈ trips -> st ∈ stops trip ->
     stopId st <> "undefined"%string) ->
  stopTooltip (loadData routes stopsTable shapes schedule calendar) now currentTime stop = None.
Proof.
  intros Hno. unfold stopTooltip, getNextArrival, stop_stopId.
  cbn [loadData Data.stopSchedules Data.calendar].
  destruct (precalculateStopSchedules schedule (assignRouteColors routes) calendar
              !! "undefined"%string) as [arrivals|] eqn:E; [|done].
  destruct (find _ arrivals) as [a|] eqn:Ef; [|done].
  apply find_Some_elem in Ef as [Hin _].
  assert (listed (precalculateStopSchedules schedule (assignRouteColors routes) calendar)
            "undefined" a) as Hl by (by exists arrivals).
  apply index_listed in Hl as (routeId & trips & route & trip & st & Hs & _ & Ht & Hst & Hk & _).
  by destruct (Hno routeId trips trip st).
Qed.

Lemma stopTooltip_no_bus_witness :
  stopTooltip
    (loadData [Sample.route1] Sample.stopsTable ∅ Sample.schedule Sample.calendar)
    Sample.today 28000 Sample.A = None.
Proof.
  apply (stopTooltip_no_bus [Sample.route1] Sample.stopsTable ∅ Sample.schedule
           Sample.calendar Sample.today 28000 Sample.A).
  intros routeId trips trip st Hs Ht Hst.
  destruct (decide (routeId = "R1"%string)) as [->|Hne].
  - vm_compute in Hs. injection Hs as <-.
    apply list_elem_of_singleton in Ht as ->.
    cbn in Hst. repeat (apply elem_of_cons in Hst as [->|Hst]; [discriminate|]).
    by apply elem_of_nil in Hst.
  - unfold Sample.schedule in Hs. by rewrite lookup_singleton_ne in Hs.
Defined.

(** X12. When the tooltip shows a bus, the bus is still to come, and the
    label is "Due" exactly when it is less than a minute away; otherwise
    the label is the whole number of minutes left, which is at least one.
    A negative or a missing number of minutes is never shown. *)
Theorem stopTooltip_label data now currentTime stop nextBus l :
  stopTooltip data now currentTime stop = Some (nextBus, l) ->
  exists t,
    Arrival.time nextBus = Some t /\ currentTime < t
    /\ isServiceActive (Arrival.serviceId nextBus) (Data.calendar data) now = true
    /\ (l = Due <-> t - currentTime < 60)
    /\ (forall m, l = Mins m ->
          exists z, m = Some z /\ 1 <= z /\ 60 * z <= t - currentTime < 60 * z + 60).
Proof.
  unfold stopTooltip, getNextArrival.
  destruct (Data.stopSchedules data !! stop_stopId stop) as [arrivals|]; [|done].
  destruct (find _ arrivals) as [a|] eqn:Ef; [|done].
  intros [= <- <-]. apply find_Some_elem in Ef as [_ [Hgt Ha]%andb_true_iff].
  unfold inum_gtb, inum_ltb in Hgt. destruct (Arrival.time a) as [t|] eqn:Et; [|done].
  apply Z.ltb_lt in Hgt. exists t. split; [done|]. split; [done|]. split; [done|].
  unfold label, minsAway. rewrite Et. cbn [inum_leb].
  pose proof (Z.div_mod (t - currentTime) 60 ltac:(lia)) as Hdm.
  pose proof (Z.mod_pos_bound (t - currentTime) 60 ltac:(lia)) as Hmod.
  destruct (Z.leb_spec ((t - currentTime) / 60) 0) as [Hle|Hlt].
  - split; [split; [intros _; lia|done]|]. intros m [=].
  - split; [split; [done|intros; lia]|].
    intros m [= <-]. exists ((t - currentTime) / 60). split; [done|]. lia.
Qed.

Lemma stopTooltip_label_witness :
  exists t,
    Arrival.time (Arrival.mk (Some 30660) (recolor Sample.route1 "#FF3B30") "T3" "WD" "Hospital")
    = Some t
    /\ 30000 < t
    /\ isServiceActive
         (Arrival.serviceId
            (Arrival.mk (Some 30660) (recolor Sample.route1 "#FF3B30") "T3" "WD" "Hospital"))
         (Data.calendar
            (loadData [Sample.route1] Sample.stopsTable ∅ Demo.scheduleU Sample.calendar))
         Sample.today = true
    /\ (Mins (Some 11) = Due <-> t - 30000 < 60)
    /\ (forall m, Mins (Some 11) = Mins m ->
          exists z, m = Some z /\ 1 <= z /\ 60 * z <= t - 30000 < 60 * z + 60).
Proof.
  apply (stopTooltip_label
           (loadData [Sample.route1] Sample.stopsTable ∅ Demo.scheduleU Sample.calendar)
           Sample.today 30000 Sample.A).
  vm_compute. reflexivity.
Defined.

(** ** The simulated clock *)

Lemma tick_range simSpeed prev :
  0 <= simSpeed -> 0 <= prev < 86400 -> 0 <= tick simSpeed prev < 86400.
Proof.
  intros Hs Hp. unfold tick. destruct (Z.leb_spec 86400 (prev + simSpeed)); lia.
Qed.

Lemma tick_one prev : 0 <= prev < 86400 -> tick 1 prev = (prev + 1) mod 86400.
Proof.
  intros Hp. unfold tick. destruct (Z.leb_spec 86400 (prev + 1)).
  - assert (prev + 1 = 86400) as -> by lia. done.
  - by rewrite Z.mod_small by lia.
Qed.

(** X13. Started within the day and advanced at a speed that is not
    negative, the simulated clock stays within the day at every tick, from
    0 to 86399: it never shows 86400.  At speed 1 it is the time of day
    modulo 86400; at a higher speed a tick that reaches or passes midnight
    sets it to 0, whatever the overshoot. *)
Theorem tick_iter simSpeed t k :
  0 <= simSpeed -> 0 <= t < 86400 ->
  0 <= Nat.iter k (tick simSpeed) t < 86400
  /\ Nat.iter k (tick 1) t = (t + Z.of_nat k) mod 86400
  /\ (86400 <= Nat.iter k (tick simSpeed) t + simSpeed ->
      Nat.iter (S k) (tick simSpeed) t = 0).
Proof.
  intros Hs Ht.
  assert (forall n, 0 <= Nat.iter n (tick simSpeed) t < 86400) as Hrange.
  { induction n as [|n IH]; [done|]. rewrite Nat.iter_succ. by apply tick_range. }
  split; [apply Hrange|]. split.
  - induction k as [|k IH].
    + cbn. rewrite Z.add_0_r. by rewrite Z.mod_small by lia.
    + rewrite Nat.iter_succ, IH. rewrite tick_one by (apply Z.mod_pos_bound; lia).
      rewrite Zplus_mod_idemp_l. f_equal. lia.
  - intros Hover. rewrite Nat.iter_succ. unfold tick at 1.
    destruct (Z.leb_spec 86400 (Nat.iter k (tick simSpeed) t + simSpeed)); [done|lia].
Qed.

Lemma tick_iter_witness :
  0 <= Nat.iter 3 (tick 600) 85000 < 86400
  /\ Nat.iter 3 (tick 1) 85000 = (85000 + Z.of_nat 3) mod 86400
  /\ (86400 <= Nat.iter 3 (tick 600) 85000 + 600 ->
      Nat.iter 4 (tick 600) 85000 = 0).
Proof. apply (tick_iter 600 85000 3); lia. Defined.

(** ** The static route network *)

Section RouteShapes.
Variable data : Data.t.

Lemma routeShapes_trip_inv route st trip :
  routeShapes_inv data st -> routeShapes_inv data (routeShapes_trip data route st trip).
Proof.
  intros (Hnd & Hset & Hpts). unfold routeShapes_trip.
  destruct (String.eqb_spec (shapeId trip) EmptyString) as [|Hne]; [done|].
  cbn [negb andb]. destruct (decide (shapeId trip ∈ st.2)) as [Hin|Hnin].
  { by rewrite bool_decide_true. }
  rewrite bool_decide_false by done. cbn [negb].
  destruct (Data.shapes data !! shapeId trip) as [pts|] eqn:Es; [|done].
  split; [|split]; cbn [fst snd].
  - rewrite fmap_app. cbn. apply NoDup_app. split; [done|]. split.
    + intros k Hk [->|[]%elem_of_nil]%elem_of_cons. by apply Hnin, Hset.
    + apply NoDup_singleton.
  - intros k. rewrite fmap_app, elem_of_app, elem_of_union, elem_of_singleton, Hset.
    cbn. rewrite list_elem_of_singleton. tauto.
  - intros s [Hs|Hs]%elem_of_app; [by apply Hpts|].
    apply list_elem_of_singleton in Hs as ->. done.
Qed.

(** A shape once pushed stays, and its identifier stays in the set. *)
Lemma routeShapes_trip_mono route st trip s :
  s ∈ st.1 -> s ∈ (routeShapes_trip data route st trip).1.
Proof.
  intros Hs. unfold routeShapes_trip.
  destruct (_ && _); [|done]. destruct (Data.shapes data !! shapeId trip); [|done].
  cbn. apply elem_of_app. by left.
Qed.

Lemma routeShapes_trips_inv route trips : forall st,
  routeShapes_inv data st -> routeShapes_inv data (foldl (routeShapes_trip data route) st trips).
Proof.
  induction trips as [|trip trips IH]; intros st H; [done|].
  cbn [foldl]. by apply IH, routeShapes_trip_inv.
Qed.

Lemma routeShapes_trips_mono route trips s : forall st,
  s ∈ st.1 -> s ∈ (foldl (routeShapes_trip data route) st trips).1.
Proof.
  induction trips as [|trip trips IH]; intros st H; [done|].
  cbn [foldl]. by apply IH, routeShapes_trip_mono.
Qed.

Lemma routeShapes_routes_inv entries : forall st,
  routeShapes_inv data st -> routeShapes_inv data (foldl (routeShapes_route data) st entries).
Proof.
  induction entries as [|e entries IH]; intros st H; [done|].
  cbn [foldl]. by apply IH, routeShapes_trips_inv.
Qed.

Lemma routeShapes_routes_mono entries s : forall st,
  s ∈ st.1 -> s ∈ (foldl (routeShapes_route data) st entries).1.
Proof.
  induction entries as [|e entries IH]; intros st H; [done|].
  cbn [foldl]. by apply IH, routeShapes_trips_mono.
Qed.

(** A trip with a shape of the shapes table leaves its shape pushed. *)
Lemma routeShapes_trip_covers route st trip pts :
  routeShapes_inv data st ->
  shapeId trip <> EmptyString -> Data.shapes data !! shapeId trip = Some pts ->
  exists s, s ∈ (routeShapes_trip data route st trip).1
            /\ RouteShape.id s = shapeId trip /\ RouteShape.points s = pts.
Proof.
  intros (Hnd & Hset & Hpts) Hne Es. unfold routeShapes_trip.
  destruct (String.eqb_spec (shapeId trip) EmptyString) as [|_]; [done|].
  cbn [negb andb]. destruct (decide (shapeId trip ∈ st.2)) as [Hin|Hnin].
  - rewrite bool_decide_true by done. cbn [negb].
    apply Hset in Hin. apply list_elem_of_fmap in Hin as (s & Hid & Hs).
    exists s. split; [done|]. split; [done|].
    destruct (Hpts s Hs) as [_ E]. rewrite <- Hid, Es in E. by injection E.
  - rewrite bool_decide_false by done. cbn [negb]. rewrite Es.
    eexists. split; [apply elem_of_app; right; by apply list_elem_of_singleton|done].
Qed.

Lemma routeShapes_trips_covers route trips trip pts : forall st,
  routeShapes_inv data st -> trip ∈ trips ->
  shapeId trip <> EmptyString -> Data.shapes data !! shapeId trip = Some pts ->
  exists s, s ∈ (foldl (routeShapes_trip data route) st trips).1
            /\ RouteShape.id s = shapeId trip /\ RouteShape.points s = pts.
Proof.
  induction trips as [|x trips IH]; intros st Hinv Hin Hne Es; [by apply elem_of_nil in Hin|].
  cbn [foldl]. apply elem_of_cons in Hin as [->|Hin].
  - destruct (routeShapes_trip_covers route st x pts Hinv Hne Es) as (s & Hs & ?).
    exists s. split; [by apply routeShapes_trips_mono|done].
  - apply IH; try done. by apply routeShapes_trip_inv.
Qed.

Lemma routeShapes_routes_covers entries e trip pts : forall st,
  routeShapes_inv data st -> e ∈ entries -> trip ∈ e.2 ->
  shapeId trip <> EmptyString -> Data.shapes data !! shapeId trip = Some pts ->
  exists s, s ∈ (foldl (routeShapes_route data) st entries).1
            /\ RouteShape.id s = shapeId trip /\ RouteShape.points s = pts.
Proof.
  induction entries as [|x entries IH]; intros st Hinv He Hin Hne Es;
    [by apply elem_of_nil in He|].
  cbn [foldl]. apply elem_of_cons in He as [->|He].
  - destruct (routeShapes_trips_covers (find_route (Data.routes data) x.1) x.2 trip pts st
                Hinv Hin Hne Es) as (s & Hs & ?).
    exists s. split; [by apply routeShapes_routes_mono|done].
  - apply (IH _ (routeShapes_trips_inv _ _ _ Hinv)); done.
Qed.

Lemma routeShapes_trips_from route trips s : forall st,
  s ∈ (foldl (routeShapes_trip data route) st trips).1 ->
  s ∈ st.1 \/ exists trip, trip ∈ trips /\ RouteShape.id s = shapeId trip
                           /\ RouteShape.route s = route.
Proof.
  induction trips as [|x trips IH]; intros st Hs; [by left|].
  cbn [foldl] in Hs. apply IH in Hs as [Hs|(trip & ? & ?)].
  - unfold routeShapes_trip in Hs. destruct (_ && _); [|by left].
    destruct (Data.shapes data !! shapeId x); [|by left].
    cbn in Hs. apply elem_of_app in Hs as [?|Hs]; [by left|].
    apply list_elem_of_singleton in Hs as ->. right. exists x. split; [left|done].
  - right. exists trip. split; [by right|done].
Qed.

Lemma routeShapes_routes_from entries s : forall st,
  s ∈ (foldl (routeShapes_route data) st entries).1 ->
  s ∈ st.1 \/ routeShapes_from data entries s.
Proof.
  induction entries as [|x entries IH]; intros st Hs; [by left|].
  cbn [foldl] in Hs. apply IH in Hs as [Hs|(e & trip & ? & ?)].
  - apply routeShapes_trips_from in Hs as [?|(trip & ? & ? & ?)]; [by left|].
    right. exists x, trip. split; [left|done].
  - right. exists e, trip. split; [by right|done].
Qed.
End RouteShapes.

(** X14. The static route network holds every shape at most once; each of
    its shapes is the shape of a trip of the schedule table, has a
    non-empty identifier, the points that the shapes table has for it, and
    the route of that trip's route identifier; and every trip whose shape
    identifier is non-empty and in the shapes table has its shape
    drawn. *)
Theorem routeShapes_spec data :
  NoDup (RouteShape.id <$> routeShapes (Some data))
  /\ (forall s, s ∈ routeShapes (Some data) ->
        RouteShape.id s <> EmptyString
        /\ Data.shapes data !! RouteShape.id s = Some (RouteShape.points s)
        /\ exists routeId trips trip,
             Data.schedule data !! routeId = Some trips /\ trip ∈ trips
             /\ shapeId trip = RouteShape.id s
             /\ RouteShape.route s = find_route (Data.routes data) routeId)
  /\ (forall routeId trips trip pts,
        Data.schedule data !! routeId = Some trips -> trip ∈ trips ->
        shapeId trip <> EmptyString -> Data.shapes data !! shapeId trip = Some pts ->
        exists s, s ∈ routeShapes (Some data)
                  /\ RouteShape.id s = shapeId trip /\ RouteShape.points s = pts).
Proof.
  assert (routeShapes_inv data ([], ∅)) as H0.
  { split; [constructor|]. split.
    - intros k. cbn. rewrite elem_of_nil. set_solver.
    - intros s Hs. by apply elem_of_nil in Hs. }
  pose proof (routeShapes_routes_inv data (map_to_list (Data.schedule data)) _ H0)
    as (Hnd & _ & Hpts).
  cbn [routeShapes]. split; [done|]. split.
  - intros s Hs. destruct (Hpts s Hs) as [Hne Hp]. split; [done|]. split; [done|].
    apply routeShapes_routes_from in Hs as [Hs|([routeId trips] & trip & He & Ht & Hid & Hr)];
      [by apply elem_of_nil in Hs|].
    apply elem_of_map_to_list in He. by exists routeId, trips, trip.
  - intros routeId trips trip pts Hs Ht Hne Es.
    apply (routeShapes_routes_covers data (map_to_list (Data.schedule data)) (routeId, trips));
      try done.
    by apply elem_of_map_to_list.
Qed.

(** ** What the engine shows, and when it raises *)

Lemma currentSegment_Dwelling_inv t stops : forall s,
  currentSegment t stops = Some (Dwelling s) ->
  exists i a d,
    stops !! i = Some s /\ (S i < length stops)%nat
    /\ timeToSeconds (arrival s) = Some a
    /\ timeToSeconds (departure s) = Some d
    /\ a <= t < d.
Proof.
  induction stops as [|x1 stops IH]; intros s; [done|].
  destruct stops as [|x2 stops]; [done|].
  rewrite currentSegment_cons.
  destruct (inum_geb (Some t) (timeToSeconds (departure x1))
            && inum_leb (Some t) (timeToSeconds (arrival x2))); [done|].
  destruct (inum_geb (Some t) (timeToSeconds (arrival x1))
            && inum_ltb (Some t) (timeToSeconds (departure x1))) eqn:C2.
  - intros [= <-]. apply andb_true_iff in C2 as [G1 G2].
    unfold inum_geb in G1. apply inum_leb_Some in G1 as (a & t' & Ha & [= <-] & Hat).
    destruct (timeToSeconds (departure x1)) as [d|] eqn:Hd; [|done].
    cbn in G2. apply Z.ltb_lt in G2.
    exists 0%nat, a, d. split; [done|]. split; [cbn [length]; lia|].
    split; [done|]. split; [done|]. lia.
  - intros H. destruct (IH s H) as (i & a & d & Hi & Hlen & ?).
    exists (S i), a, d. split; [done|]. split; [cbn [length] in *; lia|done].
Qed.

Section EngineMore.
Variable Math : MathObject.

Lemma evalTrip_Throw data now t routeId trip :
  evalTrip Math data now t routeId trip = Throw
  <-> isServiceActive (serviceId trip) (Data.calendar data) now = true
      /\ stops trip = [].
Proof.
  split.
  - intros H. destruct (stops trip) as [|s0 rest] eqn:E.
    + split; [|done]. unfold evalTrip in H.
      by destruct (isServiceActive _ _ _).
    + exfalso. revert H. apply evalTrip_no_throw. by rewrite E.
  - intros [Ha Hs]. unfold evalTrip. by rewrite Ha, Hs.
Qed.

Lemma run_trips_Raise data now t routeId trips : forall acc,
  foldl (run_trip Math data now t routeId) acc trips = Raise
  <-> acc = Raise
      \/ exists trip, trip ∈ trips /\ evalTrip Math data now t routeId trip = Throw.
Proof.
  induction trips as [|trip trips IH]; intros acc.
  - cbn. split; [by left|]. intros [?|(? & ?%elem_of_nil & _)]; done.
  - cbn [foldl]. rewrite IH. split.
    + intros [H|(trip' & Hin & H)].
      * unfold run_trip in H. destruct acc as [|l]; [by left|]. cbn [bind] in H.
        right. exists trip. split; [left|].
        by destruct (evalTrip Math data now t routeId trip).
      * right. exists trip'. split; [by right|done].
    + intros [->|(trip' & [->|Hin]%elem_of_cons & H)].
      * by left.
      * left. unfold run_trip. destruct acc; [done|]. cbn [bind]. by rewrite H.
      * right. by exists trip'.
Qed.

Lemma run_routes_Raise data now t entries : forall acc,
  foldl (run_route Math data now t) acc entries = Raise
  <-> acc = Raise
      \/ exists routeId trips trip,
           (routeId, trips) ∈ entries /\ trip ∈ trips
           /\ evalTrip Math data now t routeId trip = Throw.
Proof.
  induction entries as [|[routeId trips] entries IH]; intros acc.
  - cbn. split; [by left|]. intros [?|(? & ? & ? & ?%elem_of_nil & _)]; done.
  - cbn [foldl]. rewrite IH. unfold run_route. cbn [fst snd].
    rewrite run_trips_Raise. split.
    + intros [[?|(trip & ? & ?)]|(r & ts & trip & ? & ?)].
      * by left.
      * right. exists routeId, trips, trip. split; [left|done].
      * right. exists r, ts, trip. split; [by right|done].
    + intros [?|(r & ts & trip & [[= -> ->]|Hin]%elem_of_cons & H)].
      * by left; left.
      * left; right. by exists trip.
      * right. by exists r, ts, trip.
Qed.

(** X15. The engine raises exactly when the data are loaded and the
    schedule table has a trip without stop-times whose service runs on the
    day; the simulated time plays no part in it. *)
Theorem activeTrips_raises data now t :
  activeTrips Math data now t = Raise
  <-> exists d routeId trips trip,
        data = Some d /\ Data.schedule d !! routeId = Some trips /\ trip ∈ trips
        /\ isServiceActive (serviceId trip) (Data.calendar d) now = true
        /\ stops trip = [].
Proof.
  destruct data as [d|]; cbn [activeTrips].
  2:{ split; [done|]. by intros (? & ? & ? & ? & ? & _). }
  rewrite run_routes_Raise. split.
  - intros [?|(routeId & trips & trip & Hs & Ht & H)]; [done|].
    apply elem_of_map_to_list in Hs. apply evalTrip_Throw in H as [? ?].
    by exists d, routeId, trips, trip.
  - intros (d' & routeId & trips & trip & [= <-] & Hs & Ht & Ha & He). right.
    exists routeId, trips, trip. split; [by apply elem_of_map_to_list|].
    split; [done|]. by apply evalTrip_Throw.
Qed.

(** When the engine returns, its result holds exactly the vehicles pushed
    for the trips of the table. *)
Lemma activeTrips_Ret data now t active :
  activeTrips Math (Some data) now t = Ret active ->
  forall v, v ∈ active <->
    exists routeId trips trip,
      Data.schedule data !! routeId = Some trips /\ trip ∈ trips
      /\ evalTrip Math data now t routeId trip = Push v.
Proof.
  intros Hret. cbn [activeTrips] in Hret.
  destruct (foldl_run_route Math data now t (map_to_list (Data.schedule data)) [])
    as (l & Hl & Hin).
  { intros routeId trips trip Hs Ht Hthrow.
    assert (foldl (run_route Math data now t) (Ret []) (map_to_list (Data.schedule data))
            = Raise) as E; [|congruence].
    apply run_routes_Raise. right. by exists routeId, trips, trip. }
  rewrite Hl in Hret. injection Hret as <-. cbn [app]. intros v. rewrite Hin.
  split; intros (routeId & trips & trip & Hs & ?); exists routeId, trips, trip;
    (split; [|done]); by apply elem_of_map_to_list.
Qed.

(** X16. Every vehicle that the engine shows is accounted for by the
    tables: it is a trip of the schedule table, with the route of its
    route identifier, on a service that runs on the day, at a time from
    its first departure to its last arrival.  A moving vehicle is between
    two consecutive stops, both in the stops table, from the departure
    from the one to the arrival at the other, at the point interpolated
    for the elapsed fraction of that leg; a dwelling vehicle is at the
    coordinates of a stop other than the first, from its arrival until
    just before its departure. *)
Theorem activeTrips_sound data now t active v :
  activeTrips Math (Some data) now t = Ret active -> v ∈ active ->
  exists routeId trips s0 t0 tN,
    Data.schedule data !! routeId = Some trips /\ vehicle_trip v ∈ trips
    /\ route v = find_route (Data.routes data) routeId
    /\ isServiceActive (serviceId (vehicle_trip v)) (Data.calendar data) now = true
    /\ head (stops (vehicle_trip v)) = Some s0
    /\ timeToSeconds (departure s0) = Some t0
    /\ timeToSeconds (arrival (List.last (stops (vehicle_trip v)) s0)) = Some tN
    /\ t0 <= t <= tN
    /\ match status v with
       | moving =>
           exists i s1 s2 d a stop1 stop2,
             stops (vehicle_trip v) !! i = Some s1
             /\ stops (vehicle_trip v) !! S i = Some s2
             /\ timeToSeconds (departure s1) = Some d
             /\ timeToSeconds (arrival s2) = Some a
             /\ d <= t <= a
             /\ Data.stops data !! stopId s1 = Some stop1
             /\ Data.stops data !! stopId s2 = Some stop2
             /\ interpolatePositionOnShape Math
                  (Data.shapes data !! shapeId (vehicle_trip v)) stop1 stop2
                  (num_div (of_Z (t - d)) (of_Z (a - d)))
                = Ret (vehicle_position v)
       | dwelling =>
           exists i s a d stop,
             (0 < i)%nat /\ stops (vehicle_trip v) !! i = Some s
             /\ (S i < length (stops (vehicle_trip v)))%nat
             /\ timeToSeconds (arrival s) = Some a
             /\ timeToSeconds (departure s) = Some d
             /\ a <= t < d
             /\ Data.stops data !! stopId s = Some stop
             /\ vehicle_position v = stop_position stop
       end.
Proof.
  intros Hret Hv.
  apply (activeTrips_Ret data now t active Hret) in Hv as (routeId & trips & trip & Hs & Ht & Hpush).
  apply evalTrip_Push in Hpush as (Hact & s0 & seg & Hhd & G1 & G2 & Hseg & Hpos & Hv).
  unfold inum_geb in G1. apply inum_leb_Some in G1 as (t0 & t' & Ht0 & [= <-] & Hlo).
  apply inum_leb_Some in G2 as (t' & tN & [= <-] & HtN & Hhi).
  assert (vehicle_trip v = trip) as Htv by (by rewrite Hv).
  assert (status v = segment_type seg) as Hst by (by rewrite Hv).
  assert (route v = find_route (Data.routes data) routeId) as Hrt by (by rewrite Hv).
  rewrite Htv, Hst. exists routeId, trips, s0, t0, tN.
  repeat (split; [done|]).
  apply segment_position_resolved in Hpos.
  destruct seg as [s1 s2 p|s]; cbn [segment_type].
  - apply currentSegment_Moving_inv in Hseg as (i & d & a & H1 & H2 & Hd & Ha & Hda & ->).
    destruct Hpos as (stop1 & stop2 & ? & ? & ?).
    by exists i, s1, s2, d, a, stop1, stop2.
  - apply currentSegment_Dwelling_inv in Hseg as (i & a & d & Hi & Hlen & Ha & Hd & Had).
    destruct Hpos as (stop & ? & ?).
    exists i, s, a, d, stop. split; [|done].
    destruct i as [|i]; [|lia]. apply head_lookup0 in Hhd.
    assert (s = s0) as -> by congruence. assert (d = t0) by congruence. lia.
Qed.
End EngineMore.

Lemma activeTrips_sound_witness :
  exists routeId trips s0 t0 tN,
    Data.schedule Sample.data !! routeId = Some trips
    /\ Sample.trip1 ∈ trips
    /\ Some Sample.route1 = find_route (Data.routes Sample.data) routeId
    /\ isServiceActive (serviceId Sample.trip1) (Data.calendar Sample.data) Sample.today = true
    /\ head (stops Sample.trip1) = Some s0
    /\ timeToSeconds (departure s0) = Some t0
    /\ timeToSeconds (arrival (List.last (stops Sample.trip1) s0)) = Some tN
    /\ t0 <= 29130 <= tN
    /\ exists i s a d stop,
         (0 < i)%nat /\ stops Sample.trip1 !! i = Some s
         /\ (S i < length (stops Sample.trip1))%nat
         /\ timeToSeconds (arrival s) = Some a
         /\ timeToSeconds (departure s) = Some d
         /\ a <= 29130 < d
         /\ Data.stops Sample.data !! stopId s = Some stop
         /\ stop_position Sample.B = stop_position stop.
Proof.
  apply (activeTrips_sound Sample.Math Sample.data Sample.today 29130
           [mkVehicle Sample.trip1 (Some Sample.route1) (stop_position Sample.B) dwelling]
           (mkVehicle Sample.trip1 (Some Sample.route1) (stop_position Sample.B) dwelling)).
  - vm_compute. reflexivity.
  - apply list_elem_of_here.
Defined.

(** ** The schedule table written by the processing script *)

Section Processing.
Variable parseInt : string -> inum.

Lemma push_stop_time_lookup m st k :
  push_stop_time parseInt m st !! k
  = if String.eqb (StopTimeRow.trip_id st) k
    then Some (default [] (m !! k) ++ [stop_time_of parseInt st])
    else m !! k.
Proof.
  unfold push_stop_time. destruct (String.eqb_spec (StopTimeRow.trip_id st) k) as [->|Hne].
  - by rewrite lookup_insert_eq.
  - by rewrite lookup_insert_ne.
Qed.

Lemma grouped_lookup stopTimes k : forall m,
  foldl (push_stop_time parseInt) m stopTimes !! k
  = match rows_of parseInt k stopTimes with
    | [] => m !! k
    | l => Some (default [] (m !! k) ++ l)
    end.
Proof.
  unfold rows_of.
  induction stopTimes as [|st stopTimes IH]; intros m; [done|].
  cbn [foldl List.filter]. rewrite IH, push_stop_time_lookup.
  destruct (String.eqb (StopTimeRow.trip_id st) k); cbn [map default].
  - destruct (map _ _); [done|]. unfold id. by rewrite <- app_assoc.
  - done.
Qed.

Lemma sortedStopTimes_lookup stopTimes k :
  sortedStopTimes parseInt stopTimes !! k
  = match rows_of parseInt k stopTimes with
    | [] => None
    | l => Some (sort by_seq l)
    end.
Proof.
  unfold sortedStopTimes. rewrite lookup_fmap, grouped_lookup, lookup_empty.
  by destruct (rows_of parseInt k stopTimes).
Qed.

Lemma trip_of_written stopTimes row :
  trip_of (sortedStopTimes parseInt stopTimes) row = written_trip parseInt stopTimes row.
Proof.
  unfold trip_of, written_trip. rewrite sortedStopTimes_lookup.
  by destruct (rows_of parseInt (TripRow.trip_id row) stopTimes).
Qed.

Lemma push_trip_lookup sorted schedule row r :
  push_trip sorted schedule row !! r
  = if String.eqb (TripRow.route_id row) r
    then Some (default [] (schedule !! r)
               ++ match trip_of sorted row with Some t => [t] | None => [] end)
    else schedule !! r.
Proof.
  unfold push_trip. destruct (String.eqb_spec (TripRow.route_id row) r) as [->|Hne].
  - destruct (schedule !! r) as [l|] eqn:E.
    + destruct (trip_of sorted row).
      * by rewrite lookup_insert_eq, E.
      * by rewrite E, app_nil_r.
    + destruct (trip_of sorted row).
      * by rewrite !lookup_insert_eq.
      * by rewrite lookup_insert_eq.
  - destruct (schedule !! TripRow.route_id row) as [l|] eqn:E.
    + destruct (trip_of sorted row); [by rewrite lookup_insert_ne|done].
    + destruct (trip_of sorted row); by rewrite !lookup_insert_ne.
Qed.

Lemma push_trips_lookup sorted trips r : forall schedule,
  foldl (push_trip sorted) schedule trips !! r
  = match List.filter (fun row => String.eqb (TripRow.route_id row) r) trips with
    | [] => schedule !! r
    | rows => Some (default [] (schedule !! r) ++ omap (trip_of sorted) rows)
    end.
Proof.
  induction trips as [|row trips IH]; intros schedule; [done|].
  cbn [foldl List.filter]. rewrite IH, push_trip_lookup.
  destruct (String.eqb (TripRow.route_id row) r); cbn [default omap].
  - destruct (List.filter _ trips) as [|x rows].
    + cbn. by destruct (trip_of sorted row).
    + cbn. destruct (trip_of sorted row); [by rewrite <- app_assoc|by rewrite app_nil_r].
  - done.
Qed.
End Processing.

Section ProcessingProperties.
Variable parseInt : string -> inum.

Lemma processSchedule_lookup stopTimes trips routeId :
  processSchedule parseInt stopTimes trips !! routeId
  = match List.filter (fun row => String.eqb (TripRow.route_id row) routeId) trips with
    | [] => None
    | rows => Some (omap (written_trip parseInt stopTimes) rows)
    end.
Proof.
  unfold processSchedule. rewrite push_trips_lookup, lookup_empty.
  destruct (List.filter _ trips) as [|x rows]; [done|]. cbn [default app].
  f_equal. apply list_omap_ext, Forall2_same_length_lookup. split; [done|].
  intros i a b Ha Hb. assert (a = b) as -> by congruence. apply trip_of_written.
Qed.

Lemma written_trip_Some stopTimes row trip :
  written_trip parseInt stopTimes row = Some trip ->
  rows_of parseInt (TripRow.trip_id row) stopTimes <> []
  /\ trip = mkTrip (TripRow.trip_id row) (TripRow.service_id row)
              (TripRow.shape_id row) (TripRow.trip_headsign row)
              (map seq_stop
                 (sort by_seq (rows_of parseInt (TripRow.trip_id row) stopTimes))).
Proof.
  unfold written_trip.
  destruct (rows_of parseInt (TripRow.trip_id row) stopTimes) as [|s l]; [done|].
  by intros [= <-].
Qed.

Lemma processSchedule_elem stopTimes trips routeId ts trip :
  processSchedule parseInt stopTimes trips !! routeId = Some ts -> trip ∈ ts ->
  exists row, row ∈ trips /\ TripRow.route_id row = routeId
              /\ written_trip parseInt stopTimes row = Some trip.
Proof.
  rewrite processSchedule_lookup.
  destruct (List.filter _ trips) as [|x rows] eqn:E; [done|].
  intros E' Hin.
  assert (ts = omap (written_trip parseInt stopTimes) (x :: rows)) as -> by congruence.
  apply list_elem_of_omap in Hin as (row & Hrow & Hw).
  rewrite <- E in Hrow. apply filter_elem in Hrow as [Hrow Hr].
  exists row. split; [done|]. split; [by apply String.eqb_eq|done].
Qed.

Lemma processSchedule_nonempty stopTimes trips :
  trips_nonempty (processSchedule parseInt stopTimes trips) = true.
Proof.
  unfold trips_nonempty. apply forallb_forall. intros [routeId ts] Hin.
  apply list_elem_of_In, elem_of_map_to_list in Hin. cbn [snd].
  apply forallb_forall. intros trip Ht. apply list_elem_of_In in Ht.
  destruct (processSchedule_elem _ _ _ _ _ Hin Ht) as (row & _ & _ & Hw).
  apply written_trip_Some in Hw as [Hne ->]. cbn [stops].
  destruct (rows_of parseInt (TripRow.trip_id row) stopTimes) as [|s l] eqn:E; [done|].
  pose proof (sort_length by_seq (s :: l)) as Hlen.
  destruct (sort by_seq (s :: l)); [done|]. done.
Qed.

Lemma has_stop_times_rows stopTimes row :
  has_stop_times stopTimes row = false
  <-> rows_of parseInt (TripRow.trip_id row) stopTimes = [].
Proof.
  unfold has_stop_times, rows_of.
  induction stopTimes as [|st stopTimes IH]; [done|].
  cbn [existsb List.filter].
  destruct (String.eqb (StopTimeRow.trip_id st) (TripRow.trip_id row)); [done|].
  cbn [orb]. apply IH.
Qed.

Lemma written_trip_for stopTimes row trip :
  written_trip parseInt stopTimes row = Some trip ->
  written_for parseInt stopTimes row trip.
Proof.
  intros [_ ->]%written_trip_Some. unfold written_for. cbn [tripId serviceId shapeId headsign stops].
  do 4 (split; [done|]).
  exists (sort by_seq (rows_of parseInt (TripRow.trip_id row) stopTimes)).
  split; [done|]. split; [apply sort_perm|done].
Qed.

Lemma written_trips_for stopTimes rows :
  Forall2 (written_for parseInt stopTimes)
    (List.filter (has_stop_times stopTimes) rows)
    (omap (written_trip parseInt stopTimes) rows).
Proof.
  induction rows as [|row rows IH]; [constructor|].
  cbn [List.filter]. change (omap ?f (row :: rows))
    with (match f row with Some t => t :: omap f rows | None => omap f rows end).
  destruct (written_trip parseInt stopTimes row) as [trip|] eqn:E.
  - assert (has_stop_times stopTimes row = true) as ->.
    { destruct (has_stop_times stopTimes row) eqn:Eh; [done|].
      apply has_stop_times_rows in Eh. apply written_trip_Some in E as [Hne _]. done. }
    constructor; [by apply written_trip_for|done].
  - assert (has_stop_times stopTimes row = false) as ->; [|done].
    apply has_stop_times_rows. unfold written_trip in E.
    by destruct (rows_of parseInt (TripRow.trip_id row) stopTimes).
Qed.

(** X17. The schedule table that the processing script writes has an
    entry for a route exactly when trips.txt has a row of that route, and
    the entry holds, in the order of the rows, one trip for each of these
    rows that has at least one row in stop_times.txt, with the identifiers
    and the headsign of the row; a row without stop-times is left out.
    The stop-times of a trip are those of the rows of stop_times.txt of
    the trip, each of them once, and when the sequence numbers of these
    rows are all numbers they are these rows sorted by sequence number. *)
Theorem processSchedule_spec stopTimes trips routeId :
  match List.filter (fun row => String.eqb (TripRow.route_id row) routeId) trips with
  | [] => processSchedule parseInt stopTimes trips !! routeId = None
  | rows =>
      exists ts,
        processSchedule parseInt stopTimes trips !! routeId = Some ts
        /\ Forall2 (written_for parseInt stopTimes)
             (List.filter (has_stop_times stopTimes) rows) ts
  end.
Proof.
  rewrite processSchedule_lookup.
  destruct (List.filter _ trips) as [|row rows]; [done|].
  eexists. split; [reflexivity|]. apply written_trips_for.
Qed.

(** X18. Every trip of the table that the processing script writes has
    at least one stop-time; its stop-times are those of the rows of
    stop_times.txt that carry its trip identifier, each of them once, and
    when the sequence numbers of these rows are numbers they are listed in
    ascending order of sequence number. *)
Theorem processSchedule_stops stopTimes trips routeId ts trip :
  processSchedule parseInt stopTimes trips !! routeId = Some ts -> trip ∈ ts ->
  stops trip <> []
  /\ exists sts,
       stops trip = map seq_stop sts
       /\ sts ≡ₚ rows_of parseInt (tripId trip) stopTimes
       /\ (Forall (fun s => is_Some (seq s)) sts ->
           StronglySorted (fun a b => inum_leb (seq a) (seq b) = true) sts).
Proof.
  intros Hs Ht.
  pose proof (trips_nonempty_lookup _ _ _ _ (processSchedule_nonempty stopTimes trips) Hs Ht)
    as Hne.
  split; [done|].
  destruct (processSchedule_elem _ _ _ _ _ Hs Ht) as (row & _ & _ & Hw).
  apply written_trip_Some in Hw as [_ ->]. cbn [stops tripId].
  exists (sort by_seq (rows_of parseInt (TripRow.trip_id row) stopTimes)).
  split; [done|]. split; [apply sort_perm|].
  intros Hall. apply (sort_key seq).
  apply Forall_forall. intros s Hin. rewrite <- sort_elem_of in Hin.
  by apply (proj1 (Forall_forall _ _) Hall).
Qed.

(** X19. On data whose schedule table is the one that the processing
    script writes, neither the engine nor [getNextRouteTrip] ever raises:
    the script keeps no trip without stop-times. *)
Theorem processSchedule_safe Math data stopTimes trips now t routeId :
  Data.schedule data = processSchedule parseInt stopTimes trips ->
  (exists active, activeTrips Math (Some data) now t = Ret active)
  /\ exists next,
       getNextRouteTrip now routeId (Data.schedule data) (Data.calendar data) t = Ret next.
Proof.
  intros Hs.
  pose proof (processSchedule_nonempty stopTimes trips) as Hne. rewrite <- Hs in Hne.
  split.
  - destruct (activeTrips_returns Math data now t Hne) as (active & Hret & _). by exists active.
  - destruct (getNextRouteTrip now routeId (Data.schedule data) (Data.calendar data) t)
      as [|next] eqn:E; [|by exists next].
    apply getNextRouteTrip_Raise in E as (routeTrips & trip & Hr & Ht & _ & Hempty).
    by pose proof (trips_nonempty_lookup _ _ _ _ Hne Hr Ht).
Qed.
End ProcessingProperties.

Lemma processSchedule_stops_witness :
  stops Sample.trip1 <> []
  /\ exists sts,
       stops Sample.trip1 = map seq_stop sts
       /\ sts ≡ₚ rows_of Demo.parseInt (tripId Sample.trip1) Demo.stopTimeRows
       /\ (Forall (fun s => is_Some (seq s)) sts ->
           StronglySorted (fun a b => inum_leb (seq a) (seq b) = true) sts).
Proof.
  apply (processSchedule_stops Demo.parseInt Demo.stopTimeRows Demo.tripRows "R1"
           [Sample.trip1] Sample.trip1).
  - vm_compute. reflexivity.
  - apply list_elem_of_here.
Defined.

Lemma processSchedule_safe_witness :
  (exists active, activeTrips Sample.Math (Some Demo.processed) Sample.today 29000 = Ret active)
  /\ exists next,
       getNextRouteTrip Sample.today "R1" (Data.schedule Demo.processed)
         (Data.calendar Demo.processed) 29000 = Ret next.
Proof.
  apply (processSchedule_safe Demo.parseInt Sample.Math Demo.processed Demo.stopTimeRows
           Demo.tripRows Sample.today 29000 "R1").
  reflexivity.
Defined.

Section OnPath.
Variable Math : MathObject.

(** With positive lengths and a target within the length still ahead,
    the walk ends within a segment of the path. *)
Lemma walk_on_path path : forall c,
  (2 <= length path)%nat -> positive_lengths Math path = true ->
  exists T,
    foldl num_add (Fin c) (segment_lengths Math path) = Fin T
    /\ (c < T)%Q
    /\ forall tgt fallback,
         (c <= tgt)%Q -> (tgt <= T)%Q ->
         exists k (p1 p2 : point) s x y,
           path !! k = Some p1 /\ path !! S k = Some p2
           /\ (0 <= s)%Q /\ (s <= 1)%Q
           /\ walk path (segment_lengths Math path) (Fin c) (Fin tgt) fallback
              = (Fin x, Fin y)
           /\ (x == p1.1 + (p2.1 - p1.1) * s)%Q
           /\ (y == p1.2 + (p2.2 - p1.2) * s)%Q.
Proof.
  unfold positive_lengths.
  induction path as [|p1 path IH]; intros c Hlen Hpos; [cbn in Hlen; lia|].
  destruct path as [|p2 path]; [cbn in Hlen; lia|].
  cbn [segment_lengths forallb] in *.
  apply andb_true_iff in Hpos as [(q & Eq & Hq)%positive_inv Hpos].
  rewrite Eq. cbn [foldl num_add].
  assert (forall tgt fallback rest,
            (c <= tgt)%Q -> (tgt <= c + q)%Q ->
            exists k (p1' p2' : point) s x y,
              (p1 :: p2 :: path) !! k = Some p1' /\ (p1 :: p2 :: path) !! S k = Some p2'
              /\ (0 <= s)%Q /\ (s <= 1)%Q
              /\ walk (p1 :: p2 :: path) (Fin q :: rest) (Fin c) (Fin tgt) fallback
                 = (Fin x, Fin y)
              /\ (x == p1'.1 + (p2'.1 - p1'.1) * s)%Q
              /\ (y == p1'.2 + (p2'.2 - p1'.2) * s)%Q) as Hhere.
  { intros tgt fallback rest Hlo Hhi. cbn [walk].
    change (num_add (Fin c) (Fin q)) with (Fin (c + q)).
    change (num_sub (Fin tgt) (Fin c)) with (Fin (tgt + - c)).
    rewrite num_div_Fin by done.
    cbn [num_geb num_leb]. rewrite Qle_bool_true by done.
    cbn [num_add num_mul num_sub num_neg].
    exists 0%nat, p1, p2, ((tgt + - c) / q)%Q. eexists _, _.
    split; [done|]. split; [done|].
    split. { apply Qle_shift_div_l; [done|]. lra. }
    split. { apply Qle_shift_div_r; [done|]. lra. }
    split; [reflexivity|]. split; ring. }
  destruct path as [|p3 path].
  - exists (c + q)%Q. split; [done|]. split; [lra|].
    intros tgt fallback Hlo Hhi. by apply Hhere.
  - destruct (IH (c + q)%Q) as (T & HT & HcT & Hwalk); [cbn; lia|done|].
    exists T. split; [done|]. split; [lra|].
    intros tgt fallback Hlo Hhi.
    destruct (Qlt_le_dec (c + q) tgt) as [Hnext|Hin].
    + cbn [walk]. change (num_add (Fin c) (Fin q)) with (Fin (c + q)).
      cbn [num_geb num_leb]. rewrite Qle_bool_false by done.
      destruct (Hwalk tgt fallback ltac:(lra) Hhi)
        as (k & p1' & p2' & s & x & y & H1 & H2 & Hs0 & Hs1 & Hw & Hx & Hy).
      exists (S k), p1', p2', s, x, y. by repeat (split; [done|]).
    + by apply Hhere.
Qed.

(** X20. In exact arithmetic, when the two stops snap to different points
    of the shape, every segment of the path between them has a positive
    length and the progress is a fraction from 0 to 1, the interpolated
    position lies on the shape: on the straight line between two
    consecutive points of it, neither before the point of the from-stop
    nor past the point of the to-stop. *)
Theorem interpolatePositionOnShape_on_shape shape stopFrom stopTo idx1 idx2 progress :
  findClosestPointIndex shape stopFrom 0 = Ret idx1 ->
  findClosestPointIndex shape stopTo idx1 = Ret idx2 ->
  idx1 < idx2 ->
  positive_lengths Math (slice shape idx1 (idx2 + 1)) = true ->
  (0 <= progress)%Q -> (progress <= 1)%Q ->
  exists i (p1 p2 : point) s x y,
    idx1 <= Z.of_nat i /\ Z.of_nat i < idx2
    /\ shape !! i = Some p1 /\ shape !! S i = Some p2
    /\ (0 <= s)%Q /\ (s <= 1)%Q
    /\ interpolatePositionOnShape Math (Some shape) stopFrom stopTo (Fin progress)
       = Ret (Fin x, Fin y)
    /\ (x == p1.1 + (p2.1 - p1.1) * s)%Q
    /\ (y == p1.2 + (p2.2 - p1.2) * s)%Q.
Proof.
  intros H1 H2 Hlt Hpos Hp0 Hp1.
  destruct (interpolatePositionOnShape_between Math shape stopFrom stopTo idx1 idx2
              (Fin progress) H1 H2 Hlt) as (B1 & B2 & p0 & p1 & rest & Es & E).
  rewrite Es in Hpos.
  pose proof (slice_length shape idx1 idx2 ltac:(lia) ltac:(lia) ltac:(lia)) as Hlen.
  destruct (walk_on_path (p0 :: p1 :: rest) 0 ltac:(cbn; lia) Hpos) as (T & HT & HcT & Hwalk).
  destruct (Hwalk (T * progress)%Q
              (Fin (List.last (p0 :: p1 :: rest) p0).1, Fin (List.last (p0 :: p1 :: rest) p0).2))
    as (k & q1 & q2 & s & x & y & L1 & L2 & Hs0 & Hs1 & Hw & Hx & Hy).
  { apply Qmult_le_0_compat; lra. }
  { rewrite <- (Qmult_1_r T) at 2. apply Qmult_le_l; lra. }
  assert (S k < length (p0 :: p1 :: rest))%nat as Hk by (by apply lookup_lt_Some in L2).
  rewrite <- Es, Hlen in Hk.
  exists (Z.to_nat idx1 + k)%nat, q1, q2, s, x, y.
  split; [lia|]. split; [lia|].
  split.
  { pose proof (slice_lookup shape idx1 idx2 k ltac:(lia) ltac:(lia) ltac:(lia) ltac:(lia))
      as Hsl.
    rewrite Es in Hsl. congruence. }
  split.
  { pose proof (slice_lookup shape idx1 idx2 (S k) ltac:(lia) ltac:(lia) ltac:(lia) ltac:(lia))
      as Hsl.
    rewrite Es in Hsl. replace (S (Z.to_nat idx1 + k)) with (Z.to_nat idx1 + S k)%nat by lia.
    congruence. }
  split; [done|]. split; [done|].
  split; [|done].
  rewrite E. unfold total_length. change (of_Z 0) with (Fin 0). rewrite HT.
  change (num_mul (Fin T) (Fin progress)) with (Fin (T * progress)). by rewrite Hw.
Qed.
End OnPath.

Lemma interpolatePositionOnShape_on_shape_witness :
  exists i (p1 p2 : point) s x y,
    0 <= Z.of_nat i /\ Z.of_nat i < 2
    /\ Sample.shape1 !! i = Some p1 /\ Sample.shape1 !! S i = Some p2
    /\ (0 <= s)%Q /\ (s <= 1)%Q
    /\ interpolatePositionOnShape Sample.Math (Some Sample.shape1) Sample.A Sample.C
         (Fin (3 # 4))
       = Ret (Fin x, Fin y)
    /\ (x == p1.1 + (p2.1 - p1.1) * s)%Q
    /\ (y == p1.2 + (p2.2 - p1.2) * s)%Q.
Proof.
  apply (interpolatePositionOnShape_on_shape Sample.Math Sample.shape1 Sample.A Sample.C 0 2
           (3 # 4)).
  - vm_compute. reflexivity.
  - vm_compute. reflexivity.
  - lia.
  - vm_compute. reflexivity.
  - vm_compute. discriminate.
  - vm_compute. discriminate.
Defined.

(** ** Times that are not of the form H:M:S *)

(** X21. [timeToSeconds] reads the first three fields of a time and
    ignores any further one: with fewer than three fields the result is
    NaN; with three fields of digits or more it is H * 3600 + M * 60 + S,
    an empty field counting as 0 and minutes or seconds of 60 or more
    being accepted. *)
Theorem timeToSeconds_fields_read s :
  match split ":" s with
  | h :: m :: sec :: _ =>
      digits10 h = true -> digits10 m = true -> digits10 sec = true ->
      timeToSeconds s
      = Some (decimal_value h * 3600 + decimal_value m * 60 + decimal_value sec)
  | _ => timeToSeconds s = None
  end.
Proof.
  unfold timeToSeconds.
  destruct (split ":" s) as [|h [|m [|sec rest]]]; cbn [map lookup list_lookup mjoin option_join].
  - done.
  - cbn. by destruct (Number h).
  - cbn. by destruct (Number h), (Number m).
  - intros [Hh _]%andb_true_iff [Hm _]%andb_true_iff [Hs _]%andb_true_iff.
    cbn. by rewrite !Number_digits.
Qed.

(** ** The next bus, as time passes *)

Lemma find_until {A} (time : A -> inum) (ok : A -> bool) (l : list A) t t' a ta :
  find (fun x => inum_gtb (time x) (Some t) && ok x) l = Some a ->
  time a = Some ta -> t <= t' < ta ->
  find (fun x => inum_gtb (time x) (Some t') && ok x) l = Some a.
Proof.
  intros Hf Ha Ht. induction l as [|x l IH]; [done|].
  cbn [find] in *.
  destruct (inum_gtb (time x) (Some t) && ok x) eqn:E.
  - injection Hf as ->. apply andb_true_iff in E as [_ ->].
    rewrite Ha. cbn. destruct (Z.ltb_spec t' ta); [done|lia].
  - assert (inum_gtb (time x) (Some t') && ok x = false) as ->; [|by apply IH].
    destruct (ok x); [|by rewrite andb_false_r]. rewrite andb_true_r in *.
    unfold inum_gtb, inum_ltb in *. destruct (time x) as [tx|]; [|done].
    apply Z.ltb_ge in E. apply Z.ltb_ge. lia.
Qed.

(** X22. The next bus of a stop does not change before it leaves: if at
    time [t] it is an entry of time [ta], then it is the same entry at
    every time from [t] until just before [ta]. *)
Theorem getNextArrival_until now stopId t t' stopSchedules calendar a ta :
  getNextArrival now stopId t stopSchedules calendar = Some a ->
  Arrival.time a = Some ta -> t <= t' < ta ->
  getNextArrival now stopId t' stopSchedules calendar = Some a.
Proof.
  unfold getNextArrival. destruct (stopSchedules !! stopId) as [arrivals|]; [|done].
  apply (find_until Arrival.time
           (fun arrival => isServiceActive (Arrival.serviceId arrival) calendar now)).
Qed.

Lemma getNextArrival_until_witness :
  getNextArrival Sample.today "A" 599 Sample.index Sample.calendar
  = Some (Sample.entry 600 "WD").
Proof.
  apply (getNextArrival_until Sample.today "A" 301 599 Sample.index Sample.calendar
           (Sample.entry 600 "WD") 600).
  - reflexivity.
  - reflexivity.
  - lia.
Defined.

(** ** Drawing the route network *)

(** X23. On loaded data in which every route identifier of the schedule
    table is the identifier of a route of the routes table, every shape of
    the static route network is drawn in a colour of the palette, and
    reading its colour does not raise. *)
Theorem polyline_color_palette routes stops shapes schedule calendar s :
  (forall routeId trips,
     schedule !! routeId = Some trips -> is_Some (find_route routes routeId)) ->
  s ∈ routeShapes (Some (loadData routes stops shapes schedule calendar)) ->
  exists c, polyline_color s = Ret c /\ c ∈ palette.
Proof.
  intros Hroutes Hs. cbn [routeShapes] in Hs.
  apply routeShapes_routes_from in Hs as [Hs|([routeId trips] & trip & He & _ & _ & Hr)];
    [by apply elem_of_nil in Hs|].
  apply elem_of_map_to_list in He. cbn [loadData Data.schedule Data.routes fst] in He, Hr.
  destruct (Hroutes routeId trips He) as [r Hfind].
  pose proof (find_route_imap
                (fun index route =>
                   recolor route (default EmptyString (palette !! (index mod length palette)%nat)))
                routes routeId (fun _ _ => eq_refl)) as H.
  rewrite Hfind in H. destruct H as (i & _ & E).
  destruct (palette_lookup i) as [c Hc]. rewrite Hc in E. cbn [default] in E.
  exists c. split; [|by apply list_elem_of_lookup_2 in Hc].
  unfold polyline_color. rewrite Hr. unfold assignRouteColors. by rewrite E.
Qed.

Lemma polyline_color_palette_witness :
  exists c,
    polyline_color (RouteShape.mk "S1" Sample.shape1 (Some (recolor Sample.route1 "#FF3B30")))
    = Ret c
    /\ c ∈ palette.
Proof.
  apply (polyline_color_palette [Sample.route1] Sample.stopsTable
           {[ "S1"%string := Sample.shape1 ]} Sample.schedule Sample.calendar).
  - intros routeId trips Hs.
    destruct (decide (routeId = "R1"%string)) as [->|Hne]; [by eexists|].
    unfold Sample.schedule in Hs. by rewrite lookup_singleton_ne in Hs.
  - vm_compute. apply list_elem_of_here.
Defined.

(** ** The calendar table written by the processing script *)



(** ** The shapes table written by the processing script *)

Section Shapes.
Variable parseFloat : string -> num.
Variable parseInt : string -> inum.

Lemma push_shape_point_lookup m shape k :
  push_shape_point parseFloat parseInt m shape !! k
  = if String.eqb (ShapeRow.shape_id shape) k
    then Some (default [] (m !! k) ++ [point_of parseFloat parseInt shape])
    else m !! k.
Proof.
  unfold push_shape_point. destruct (String.eqb_spec (ShapeRow.shape_id shape) k) as [->|Hne].
  - by rewrite lookup_insert_eq.
  - by rewrite lookup_insert_ne.
Qed.

Lemma grouped_points_lookup shapes k : forall m,
  foldl (push_shape_point parseFloat parseInt) m shapes !! k
  = match points_of parseFloat parseInt k shapes with
    | [] => m !! k
    | l => Some (default [] (m !! k) ++ l)
    end.
Proof.
  unfold points_of.
  induction shapes as [|shape shapes IH]; intros m; [done|].
  cbn [foldl List.filter]. rewrite IH, push_shape_point_lookup.
  destruct (String.eqb (ShapeRow.shape_id shape) k); cbn [map default].
  - destruct (map _ _); [done|]. unfold id. by rewrite <- app_assoc.
  - done.
Qed.

(** X25. The shapes table that the processing script writes has an entry
    for a shape exactly when shapes.txt has a row of that shape; the entry
    is never empty and holds the points of these rows, each of them once,
    and when the sequence numbers of these rows are all numbers the points
    are these rows sorted by sequence number, so in ascending order of
    it. *)
Theorem simplifiedShapes_spec shapes k :
  match points_of parseFloat parseInt k shapes with
  | [] => simplifiedShapes parseFloat parseInt shapes !! k = None
  | rows =>
      exists pts,
        simplifiedShapes parseFloat parseInt shapes !! k
        = Some (map (fun p => (pt_lat p, pt_lon p)) pts)
        /\ pts <> [] /\ pts ≡ₚ rows
        /\ (Forall (fun p => is_Some (pt_seq p)) rows ->
            pts = sort by_pt_seq rows
            /\ StronglySorted (fun a b => inum_leb (pt_seq a) (pt_seq b) = true) pts)
  end.
Proof.
  unfold simplifiedShapes, shapesMap.
  rewrite !lookup_fmap, grouped_points_lookup, lookup_empty.
  destruct (points_of parseFloat parseInt k shapes) as [|p l] eqn:E; [done|].
  cbn [default app fmap option_fmap option_map].
  exists (sort by_pt_seq (p :: l)). split; [done|].
  split. { intros H. pose proof (sort_length by_pt_seq (p :: l)) as Hl. by rewrite H in Hl. }
  split; [apply sort_perm|].
  intros Hall. split; [done|]. by apply (sort_key pt_seq).
Qed.
End Shapes.

(** ** The time of day *)

(** X26. For a time of day, [getCurrentTimeSeconds], from which the clock
    of the map starts, is within the day, from 0 to 86399, and determines
    the hours, minutes and seconds; started from it, the clock stays
    within the day at every tick, at every speed that is not negative. *)
Theorem getCurrentTimeSeconds_range now simSpeed k :
  time_of_day now = true -> 0 <= simSpeed ->
  0 <= getCurrentTimeSeconds now < 86400
  /\ getCurrentTimeSeconds now / 3600 = getHours now
  /\ getCurrentTimeSeconds now mod 3600 / 60 = getMinutes now
  /\ getCurrentTimeSeconds now mod 60 = getSeconds now
  /\ 0 <= Nat.iter k (tick simSpeed) (getCurrentTimeSeconds now) < 86400.
Proof.
  unfold time_of_day, getCurrentTimeSeconds. intros H Hs.
  repeat (apply andb_true_iff in H as [H ?]).
  destruct now as [h m s]. cbn [getHours getMinutes getSeconds] in *.
  assert (0 <= h < 24 /\ 0 <= m < 60 /\ 0 <= s < 60) as (Hh & Hm & Hsec) by lia.
  assert (0 <= h * 3600 + m * 60 + s < 86400) as Hr by lia.
  split; [done|].
  assert ((h * 3600 + m * 60 + s) / 3600 = h) as E1.
  { symmetry. apply (Z.div_unique _ _ h (m * 60 + s)); lia. }
  assert ((h * 3600 + m * 60 + s) mod 3600 = m * 60 + s) as E2.
  { symmetry. apply (Z.mod_unique _ _ h (m * 60 + s)); lia. }
  split; [done|]. rewrite E2. split.
  { symmetry. apply (Z.div_unique _ _ m s); lia. }
  split.
  { symmetry. apply (Z.mod_unique _ _ (h * 60 + m) s); lia. }
  induction k as [|k IH]; [done|]. rewrite Nat.iter_succ. by apply tick_range.
Qed.

Lemma getCurrentTimeSeconds_range_witness :
  0 <= getCurrentTimeSeconds Rows.morning < 86400
  /\ getCurrentTimeSeconds Rows.morning / 3600 = getHours Rows.morning
  /\ getCurrentTimeSeconds Rows.morning mod 3600 / 60 = getMinutes Rows.morning
  /\ getCurrentTimeSeconds Rows.morning mod 60 = getSeconds Rows.morning
  /\ 0 <= Nat.iter 5 (tick 600) (getCurrentTimeSeconds Rows.morning) < 86400.
Proof.
  apply (getCurrentTimeSeconds_range Rows.morning 600 5); [reflexivity|lia].
Defined.
